(** * code-editor-engine: the line buffer, documents and the command system

    A shallow embedding of [LineBuffer] and [TextDocumentImpl]
    (src/core/TextDocument.ts), of the classes of src/core/CommandSystem.ts
    ([UndoableCommand], [TextEditCommand], [CompositeCommand],
    [CommandRegistry], [CommandHistory], [CommandGrouper] and
    [BuiltInCommands]) and of [DisposableImpl] (src/core/EventSystem.ts),
    followed by what is proved about them.

    Conventions of the embedding:
    - a JavaScript number that holds a line, a column, an offset, a version
      or a stack size is an integer [Z];
    - a JavaScript string is the list of its code units ([str]); the code
      only ever inspects code units for being CR, LF or a word character;
    - a method of a class is a computation in the monad [M S], which threads
      the mutable fields [S] of the receiver and records a thrown error;
      [this.lines[i]] is an [option], [None] for [undefined], and reading a
      property of [undefined] throws;
    - a method of the classes that signal misuse with [new Error(message)]
      is a computation in [E S], which records the message;
    - objects that are shared and mutated in place (commands, composites,
      disposables) live on a heap and are known by their reference;
    - a [while] loop that the source does not bound takes fuel and ends in
      [OutOfFuel] when the fuel is spent;
    - [RegExp] objects and timers are the runtime's: the [RegExp]
      constructor is a parameter of the search methods, the literal [/\w+/g]
      is written out, and a timer fires when the runtime says so.

    The file has the embedding first, then the pure readings and invariants
    used to state results, then the lemmas and theorems. *)

From Stdlib Require Import ZArith Lia Ascii String List Bool.
From stdpp Require Import base list gmap sorting.

Local Open Scope Z_scope.

(** ** Outcomes and the state-and-error monad *)

Inductive JsError : Type :=
| TypeError                 (* a property read on [undefined] *)
| LineOutOfBounds (l : Z).  (* the [Error] raised by [getLineContent] *)

Inductive Res (A : Type) : Type :=
| Ok (a : A)
| Throw (e : JsError)
| OutOfFuel.

Arguments Ok {A} a.
Arguments Throw {A} e.
Arguments OutOfFuel {A}.

Definition M (S A : Type) : Type := S -> Res A * S.

Definition ret {S A : Type} (a : A) : M S A := fun s => (Ok a, s).

Definition bind {S A B : Type} (m : M S A) (k : A -> M S B) : M S B :=
  fun s =>
    match m s with
    | (Ok a, s') => k a s'
    | (Throw e, s') => (Throw e, s')
    | (OutOfFuel, s') => (OutOfFuel, s')
    end.

Definition throw {S A : Type} (e : JsError) : M S A := fun s => (Throw e, s).
Definition get {S : Type} : M S S := fun s => (Ok s, s).
Definition put {S : Type} (s : S) : M S unit := fun _ => (Ok tt, s).
Definition modify {S : Type} (f : S -> S) : M S unit := fun s => (Ok tt, f s).

Notation "'let*' x ':=' m 'in' k" := (bind m (fun x => k))
  (at level 10, x name, m at level 100, k at level 200, only parsing).
Notation "m ';>' k" := (bind m (fun _ => k))
  (at level 100, k at level 200, only parsing, right associativity).

(** Dereferencing a possibly [undefined] value ([x.length], [x.substring]). *)
Definition deref {S A : Type} (o : option A) : M S A :=
  match o with
  | Some a => ret a
  | None => throw TypeError
  end.

(** ** Strings *)

Abbreviation str := (list ascii) (only parsing).

Definition lit (s : string) : str := list_ascii_of_string s.

Definition CR : ascii := ascii_of_nat 13.
Definition LF : ascii := ascii_of_nat 10.
Definition isCR (c : ascii) : bool := Ascii.eqb c CR.
Definition isLF (c : ascii) : bool := Ascii.eqb c LF.

Definition len (s : str) : Z := Z.of_nat (length s).

(** [String.prototype.substring]: both indices are clamped into
    [0, length] and swapped when the first exceeds the second. *)
Definition clampIdx (n : nat) (i : Z) : nat :=
  Z.to_nat (Z.max 0 (Z.min i (Z.of_nat n))).

Definition substring (s : str) (a b : Z) : str :=
  let a' := clampIdx (length s) a in
  let b' := clampIdx (length s) b in
  take (Nat.max a' b' - Nat.min a' b') (drop (Nat.min a' b') s).

Definition substringFrom (s : str) (a : Z) : str :=
  drop (clampIdx (length s) a) s.

(** [s.split(/\r\n|\r|\n/)]: the alternation tries CR LF first. *)
Fixpoint splitLines (s : str) : list str :=
  match s with
  | [] => [[]]
  | c :: s' =>
    if isLF c then [] :: splitLines s'
    else if isCR c then
      match s' with
      | d :: s'' => if isLF d then [] :: splitLines s'' else [] :: splitLines s'
      | [] => [] :: splitLines s'
      end
    else
      match splitLines s' with
      | l :: ls => (c :: l) :: ls
      | [] => [[c]]
      end
  end.

(** [Array.prototype.join]. *)
Fixpoint join (sep : str) (ls : list str) : str :=
  match ls with
  | [] => []
  | l :: ls' =>
    match ls' with
    | [] => l
    | _ :: _ => l ++ sep ++ join sep ls'
    end
  end.

Fixpoint startsWith (p s : str) : bool :=
  match p, s with
  | [], _ => true
  | a :: p', b :: s' => Ascii.eqb a b && startsWith p' s'
  | _ :: _, [] => false
  end.

(** [String.prototype.includes]. *)
Fixpoint includes (needle s : str) : bool :=
  startsWith needle s ||
  match s with
  | [] => false
  | _ :: s' => includes needle s'
  end.

(** ** Arrays *)

(** [a.splice(start, deleteCount, ...items)] for a non-negative [start]:
    a start past the end is taken as the length. *)
Definition splice {A : Type} (a : list A) (start deleteCount : Z) (items : list A) : list A :=
  let s := Z.to_nat (Z.min (Z.max 0 start) (Z.of_nat (length a))) in
  let d := Z.to_nat (Z.max 0 deleteCount) in
  take s a ++ items ++ drop (s + d)%nat a.

(** [a.slice(from, to)]; a negative index counts from the end. *)
Definition slice {A : Type} (a : list A) (from to : Z) : list A :=
  let n := Z.of_nat (length a) in
  let rel i := if i <? 0 then Z.max (n + i) 0 else Z.min i n in
  let f := Z.to_nat (rel from) in
  let t := Z.to_nat (rel to) in
  take (t - f)%nat (drop f a).

(** ** Positions and ranges *)

Record Position : Type := mkPosition { line : Z; column : Z }.
Record Range : Type := mkRange { start : Position; end_ : Position }.

(** ** LineBuffer *)

Record LineBuffer : Type := mkLineBuffer {
  lines : list str;
  _version : Z;
  _lineEndings : str
}.

Definition set_lines (ls : list str) : M LineBuffer unit :=
  modify (fun b => mkLineBuffer ls (_version b) (_lineEndings b)).
Definition set_lineEndings (e : str) : M LineBuffer unit :=
  modify (fun b => mkLineBuffer (lines b) (_version b) e).
(** [this._version++] *)
Definition bump_version : M LineBuffer unit :=
  modify (fun b => mkLineBuffer (lines b) (_version b + 1) (_lineEndings b)).

(** [this.lines[i]]: [None] is [undefined]. *)
Definition lines_at (b : LineBuffer) (i : Z) : option str :=
  if i <? 0 then None else lines b !! Z.to_nat i.

(** [this.lines[i] = v]. Every assignment of the source follows a successful
    read of [this.lines[i].length] at the same index, so the index is inside the array. *)
Definition set_line (i : Z) (v : str) : M LineBuffer unit :=
  modify (fun b => mkLineBuffer (<[Z.to_nat i := v]> (lines b)) (_version b) (_lineEndings b)).

Definition version (b : LineBuffer) : Z := _version b.
Definition lineCount (b : LineBuffer) : Z := Z.of_nat (length (lines b)).
Definition lineEndings (b : LineBuffer) : str := _lineEndings b.

Definition getText : M LineBuffer str :=
  let* b := get in ret (join (_lineEndings b) (lines b)).

Definition setText (content : str) : M LineBuffer unit :=
  (if includes [CR; LF] content then set_lineEndings [CR; LF]
   else if includes [CR] content then set_lineEndings [CR]
   else set_lineEndings [LF]) ;>
  set_lines (splitLines content) ;>
  let* b := get in
  (if Z.of_nat (length (lines b)) =? 0 then set_lines [[]] else ret tt) ;>
  bump_version.

(** The field initialisers followed by the constructor body. *)
Definition LineBuffer_new (content lineEnding : str) : Res unit * LineBuffer :=
  (set_lineEndings lineEnding ;> setText content) (mkLineBuffer [[]] 0 [LF]).

Definition validatePosition (position : Position) : M LineBuffer Position :=
  let* b := get in
  let line_ := Z.max 0 (Z.min (line position) (Z.of_nat (length (lines b)) - 1)) in
  let* l := deref (lines_at b line_) in
  let maxColumn := len l in
  let column_ := Z.max 0 (Z.min (column position) maxColumn) in
  ret (mkPosition line_ column_).

Definition validateRange (range : Range) : M LineBuffer Range :=
  let* start_ := validatePosition (start range) in
  let* end__ := validatePosition (end_ range) in
  if (line start_ >? line end__) ||
     ((line start_ =? line end__) && (column start_ >? column end__))
  then ret (mkRange end__ start_)
  else ret (mkRange start_ end__).

Definition getTextRange (range : Range) : M LineBuffer str :=
  let* r := validateRange range in
  let* b := get in
  if line (start r) =? line (end_ r) then
    let* l := deref (lines_at b (line (start r))) in
    ret (substring l (column (start r)) (column (end_ r)))
  else
    (* First line *)
    let* first := deref (lines_at b (line (start r))) in
    let result := [substringFrom first (column (start r))] in
    (* Middle lines; [join] renders an [undefined] element as the empty string *)
    let middle :=
      map (fun i => default [] (lines_at b i))
          (seqZ (line (start r) + 1) (line (end_ r) - line (start r) - 1)) in
    (* Last line *)
    let* last_ := deref (lines_at b (line (end_ r))) in
    ret (join (_lineEndings b) (result ++ middle ++ [substring last_ 0 (column (end_ r))])).

Definition getLineContent (line_ : Z) : M LineBuffer str :=
  let* b := get in
  if (line_ <? 0) || (line_ >=? Z.of_nat (length (lines b)))
  then throw (LineOutOfBounds line_)
  else deref (lines_at b line_).

Definition getLineLength (line_ : Z) : M LineBuffer Z :=
  let* content := getLineContent line_ in
  let* b := get in
  let isLastLine := line_ =? Z.of_nat (length (lines b)) - 1 in
  ret (len content + (if isLastLine then 0 else len (_lineEndings b))).

Definition insertText (position : Position) (text : str) : M LineBuffer Range :=
  let* validPosition := validatePosition position in
  let insertLines := splitLines text in
  if Z.of_nat (length insertLines) =? 1 then
    (* Single line insertion *)
    let* b := get in
    let* l := deref (lines_at b (line validPosition)) in
    set_line (line validPosition)
      (substring l 0 (column validPosition) ++ text ++ substringFrom l (column validPosition)) ;>
    bump_version ;>
    ret (mkRange validPosition
           (mkPosition (line validPosition) (column validPosition + len text)))
  else
    (* Multi-line insertion *)
    let* b := get in
    let* l := deref (lines_at b (line validPosition)) in
    let before := substring l 0 (column validPosition) in
    let after := substringFrom l (column validPosition) in
    (* Replace current line with first insert line *)
    set_line (line validPosition) (before ++ default [] (insertLines !! 0%nat)) ;>
    (* Insert middle lines *)
    let middleLines := slice insertLines 1 (-1) in
    modify (fun b => mkLineBuffer (splice (lines b) (line validPosition + 1) 0 middleLines)
                       (_version b) (_lineEndings b)) ;>
    (* Insert last line merged with remaining content *)
    let lastInsertLine := default [] (insertLines !! (length insertLines - 1)%nat) in
    modify (fun b => mkLineBuffer
                       (splice (lines b) (line validPosition + Z.of_nat (length insertLines) - 1) 0
                          [lastInsertLine ++ after])
                       (_version b) (_lineEndings b)) ;>
    bump_version ;>
    ret (mkRange validPosition
           (mkPosition (line validPosition + Z.of_nat (length insertLines) - 1)
              (len lastInsertLine +
               (if Z.of_nat (length insertLines) =? 1 then column validPosition else 0)))).

Definition deleteText (range : Range) : M LineBuffer str :=
  let* validRange := validateRange range in
  let* deletedText := getTextRange validRange in
  (if line (start validRange) =? line (end_ validRange) then
     (* Single line deletion *)
     let* b := get in
     let* l := deref (lines_at b (line (start validRange))) in
     set_line (line (start validRange))
       (substring l 0 (column (start validRange)) ++ substringFrom l (column (end_ validRange)))
   else
     (* Multi-line deletion *)
     let* b := get in
     let* startLine := deref (lines_at b (line (start validRange))) in
     let* endLine := deref (lines_at b (line (end_ validRange))) in
     (* Merge start and end lines *)
     set_line (line (start validRange))
       (substring startLine 0 (column (start validRange)) ++
        substringFrom endLine (column (end_ validRange))) ;>
     (* Remove lines in between *)
     modify (fun b => mkLineBuffer
                        (splice (lines b) (line (start validRange) + 1)
                           (line (end_ validRange) - line (start validRange)) [])
                        (_version b) (_lineEndings b))) ;>
  bump_version ;>
  ret deletedText.

Definition replaceText (range : Range) (text : str) : M LineBuffer Range :=
  deleteText range ;>
  insertText (start range) text.

(** The [for] loop of [offsetToPosition]; [n] counts the iterations left
    before [line] reaches [this.lines.length], which the loop does not change. *)
Fixpoint offsetToPosition_loop (n : nat) (line_ currentOffset offset : Z)
  : M LineBuffer (option Position) :=
  match n with
  | O => ret None
  | S n' =>
    let* lineLength := getLineLength line_ in
    if currentOffset + lineLength >? offset
    then ret (Some (mkPosition line_ (offset - currentOffset)))
    else offsetToPosition_loop n' (line_ + 1) (currentOffset + lineLength) offset
  end.

Definition offsetToPosition (offset : Z) : M LineBuffer Position :=
  let* b := get in
  let* found := offsetToPosition_loop (length (lines b)) 0 0 offset in
  match found with
  | Some p => ret p
  | None =>
    (* If offset is beyond document, return end position *)
    let lastLine := Z.of_nat (length (lines b)) - 1 in
    let* l := deref (lines_at b lastLine) in
    ret (mkPosition lastLine (len l))
  end.

(** The [for] loop of [positionToOffset]. *)
Fixpoint positionToOffset_loop (n : nat) (line_ offset : Z) : M LineBuffer Z :=
  match n with
  | O => ret offset
  | S n' =>
    let* lineLength := getLineLength line_ in
    positionToOffset_loop n' (line_ + 1) (offset + lineLength)
  end.

Definition positionToOffset (position : Position) : M LineBuffer Z :=
  let* validPosition := validatePosition position in
  let* offset := positionToOffset_loop (Z.to_nat (line validPosition)) 0 0 in
  ret (offset + column validPosition).


(** ** Regular expressions

    [RegExp] objects belong to the JavaScript runtime. An object is
    represented by what the buffer code observes of it: its match procedure
    ([matcher r s i] is the index and the length of the first match of the
    pattern in [s] found when scanning from index [i], if any), its [global]
    flag and its mutable [lastIndex]. Sticky patterns are left out. *)

Record RegExp : Type := mkRegExp {
  matcher : str -> Z -> option (Z * Z);
  global : bool;
  lastIndex : Z
}.

Definition set_lastIndex (i : Z) (r : RegExp) : RegExp :=
  mkRegExp (matcher r) (global r) i.

(** [r.exec(s)]: the updated object and the match, [None] for [null]. A
    pattern that is not global always scans from 0 and leaves [lastIndex] alone. *)
Definition exec (r : RegExp) (s : str) : RegExp * option (Z * Z) :=
  let i := if global r then Z.max 0 (lastIndex r) else 0 in
  if i >? len s then ((if global r then set_lastIndex 0 r else r), None)
  else
    match matcher r s i with
    | None => ((if global r then set_lastIndex 0 r else r), None)
    | Some (index, n) =>
      ((if global r then set_lastIndex (index + n) r else r), Some (index, n))
    end.

(** The literal [/\w+/g]: [\w] is [A-Za-z0-9_]. *)
Definition isWordChar (c : ascii) : bool :=
  let n := nat_of_ascii c in
  ((48 <=? n) && (n <=? 57) || (65 <=? n) && (n <=? 90) ||
   (97 <=? n) && (n <=? 122) || (n =? 95))%nat.

Fixpoint wordRun (s : str) : nat :=
  match s with
  | c :: s' => if isWordChar c then S (wordRun s') else O
  | [] => O
  end.

Fixpoint findWord (s : str) (skipped : nat) : option (nat * nat) :=
  match s with
  | [] => None
  | c :: s' => if isWordChar c then Some (skipped, wordRun s) else findWord s' (S skipped)
  end.

Definition word_matcher (s : str) (i : Z) : option (Z * Z) :=
  match findWord (drop (Z.to_nat i) s) O with
  | None => None
  | Some (k, n) => Some (i + Z.of_nat k, Z.of_nat n)
  end.

Definition defaultWordPattern : RegExp := mkRegExp word_matcher true 0.

(** The [while ((match = pattern.exec(line)) !== null)] loop of
    [getWordRangeAtPosition]. *)
Fixpoint wordRange_loop (fuel : nat) (pattern : RegExp) (l : str) (validPosition : Position)
  : Res (option Range) :=
  match fuel with
  | O => OutOfFuel
  | S fuel' =>
    match exec pattern l with
    | (_, None) => Ok None
    | (pattern', Some (index, n)) =>
      let start_ := index in
      let end__ := start_ + n in
      if (column validPosition >=? start_) && (column validPosition <=? end__)
      then Ok (Some (mkRange (mkPosition (line validPosition) start_)
                             (mkPosition (line validPosition) end__)))
      else wordRange_loop fuel' pattern' l validPosition
    end
  end.

(** [wordPattern] is [None] when the caller leaves the argument out. An empty
    string and [undefined] are the falsy values of [!line]. *)
Definition getWordRangeAtPosition (fuel : nat) (position : Position)
  (wordPattern : option RegExp) : M LineBuffer (option Range) :=
  let* validPosition := validatePosition position in
  let* b := get in
  match lines_at b (line validPosition) with
  | None => ret None
  | Some l =>
    if (len l =? 0) || (column validPosition >=? len l) then ret None
    else
      let pattern := default defaultWordPattern wordPattern in
      fun b' => (wordRange_loop fuel pattern l validPosition, b')
  end.

Record FindOptions : Type := mkFindOptions {
  caseSensitive : option bool;
  wholeWord : option bool;
  regex : option bool
}.

(** [{}], the default of the [options] argument. *)
Definition noOptions : FindOptions := mkFindOptions None None None.

(** The characters of the class [[.*+?^${}()|[\]\\]]. *)
Definition isRegExpSpecial (c : ascii) : bool :=
  existsb (Ascii.eqb c) (lit ".*+?^${}()|[]\").

(** [searchText.replace(/[.*+?^${}()|[\]\\]/g, '\\$&')] *)
Definition escapeRegExp (s : str) : str :=
  flat_map (fun c => if isRegExpSpecial c then ["\"%char; c] else [c]) s.

Section Find.

(** [new RegExp(source, flags)]; [None] when the constructor throws a
    [SyntaxError]. *)
Variable RegExp_new : str -> str -> option RegExp.

(** The [try] block of [findNext]: the pattern it builds, [None] when the
    [catch] clause is taken. *)
Definition compilePattern (searchText : str) (options : FindOptions) : option RegExp :=
  let caseSensitive_ := default false (caseSensitive options) in
  let wholeWord_ := default false (wholeWord options) in
  let regex_ := default false (regex options) in
  if regex_ then
    let flags := if caseSensitive_ then lit "g" else lit "gi" in
    RegExp_new searchText flags
  else
    let escapedText := escapeRegExp searchText in
    let flags := if caseSensitive_ then lit "g" else lit "gi" in
    let patternText :=
      if wholeWord_ then lit "\b" ++ escapedText ++ lit "\b" else escapedText in
    RegExp_new patternText flags.

Definition findNext (searchText : str) (startPosition : Position) (options : FindOptions)
  : M LineBuffer (option Range) :=
  match compilePattern searchText options with
  | None => ret None (* Invalid regex *)
  | Some pattern =>
    let* startOffset := positionToOffset startPosition in
    let* text := getText in
    let pattern := set_lastIndex startOffset pattern in
    match snd (exec pattern text) with
    | Some (index, n) =>
      let* matchStart := offsetToPosition index in
      let* matchEnd := offsetToPosition (index + n) in
      ret (Some (mkRange matchStart matchEnd))
    | None => ret None
    end
  end.

(** The [while (true)] loop of [findAll]. *)
Fixpoint findAll_loop (fuel : nat) (searchText : str) (options : FindOptions)
  (ranges : list Range) (position : Position) : M LineBuffer (list Range) :=
  match fuel with
  | O => fun b => (OutOfFuel, b)
  | S fuel' =>
    let* range := findNext searchText position options in
    match range with
    | None => ret ranges
    | Some r => findAll_loop fuel' searchText options (ranges ++ [r]) (end_ r)
    end
  end.

Definition findAll (fuel : nat) (searchText : str) (options : FindOptions)
  : M LineBuffer (list Range) :=
  findAll_loop fuel searchText options [] (mkPosition 0 0).

End Find.

(** ** Commands

    A command is an object on the heap: the history stacks hold references
    to it, and [execute] / [undo] / [redo] mutate it in place. [World] is
    what those methods can reach: the buffer of the document the commands
    were created for, and the command objects themselves. *)

Record TextEditCommand : Type := mkTextEditCommand {
  range : Range;
  newText : str;
  previousText : str;
  actualRange : Range;
  executed : bool;
  undone : bool
}.

(** The constructor: [previousText = ''], [actualRange = range]. *)
Definition TextEditCommand_new (range_ : Range) (newText_ : str) : TextEditCommand :=
  mkTextEditCommand range_ newText_ [] range_ false false.

Record World : Type := mkWorld {
  buffer : LineBuffer;
  objects : gmap nat TextEditCommand
}.

(** A call on [document.getBuffer()]. *)
Definition onBuffer {A : Type} (m : M LineBuffer A) : M World A :=
  fun w => let (r, b') := m (buffer w) in (r, mkWorld b' (objects w)).

(** Reading the fields of [this]; a reference always points to an object,
    the [None] case only makes the lookup total. *)
Definition this_ (c : nat) : M World TextEditCommand :=
  fun w =>
    match objects w !! c with
    | Some o => (Ok o, w)
    | None => (Throw TypeError, w)
    end.

Definition update (c : nat) (f : TextEditCommand -> TextEditCommand) : M World unit :=
  modify (fun w => mkWorld (buffer w) (alter f c (objects w))).

Definition markExecuted (o : TextEditCommand) : TextEditCommand :=
  mkTextEditCommand (range o) (newText o) (previousText o) (actualRange o) true false.

Definition markUndone (o : TextEditCommand) : TextEditCommand :=
  mkTextEditCommand (range o) (newText o) (previousText o) (actualRange o) false true.

Definition set_previousText (t : str) (o : TextEditCommand) : TextEditCommand :=
  mkTextEditCommand (range o) (newText o) t (actualRange o) (executed o) (undone o).

Definition set_actualRange (r : Range) (o : TextEditCommand) : TextEditCommand :=
  mkTextEditCommand (range o) (newText o) (previousText o) r (executed o) (undone o).

Definition TextEditCommand_execute (c : nat) : M World unit :=
  let* this := this_ c in
  (* Store the text that will be replaced for undo *)
  let* prev := onBuffer (getTextRange (range this)) in
  update c (set_previousText prev) ;>
  (* Perform the edit *)
  let* actual := onBuffer (replaceText (range this) (newText this)) in
  update c (set_actualRange actual) ;>
  update c markExecuted.

Definition TextEditCommand_undo (c : nat) : M World unit :=
  let* this := this_ c in
  if negb (executed this) then ret tt
  else
    (* Restore the previous text *)
    onBuffer (replaceText (actualRange this) (previousText this)) ;>
    update c markUndone.

(** [UndoableCommand.redo], which [TextEditCommand] inherits. *)
Definition TextEditCommand_redo (c : nat) : M World unit :=
  let* this := this_ c in
  if undone this then
    update c (fun o => mkTextEditCommand (range o) (newText o) (previousText o)
                         (actualRange o) true false) ;>
    TextEditCommand_execute c
  else ret tt.

(** The abstract class [UndoableCommand]: [C] is the type of references to
    commands, [W] the state their methods act on. *)
Class UndoableCommand (W C : Type) : Type := {
  execute : C -> M W unit;
  undo : C -> M W unit;
  redo : C -> M W unit
}.

#[export] Instance TextEditCommand_UndoableCommand : UndoableCommand World nat := {
  execute := TextEditCommand_execute;
  undo := TextEditCommand_undo;
  redo := TextEditCommand_redo
}.

(** ** CommandHistory

    The [events.emit] calls are left out: listeners are not part of the
    class, [emit] catches whatever a listener throws, and the four events
    are emitted after the stacks have been updated. *)

Record CommandHistory (C : Type) : Type := mkCommandHistory {
  undoStack : list C;
  redoStack : list C;
  maxStackSize : Z
}.

Arguments mkCommandHistory {C} _ _ _.
Arguments undoStack {C} _.
Arguments redoStack {C} _.
Arguments maxStackSize {C} _.

Definition CommandHistory_new {C : Type} (maxStackSize_ : Z) : CommandHistory C :=
  mkCommandHistory [] [] maxStackSize_.

Definition canUndo {C : Type} (h : CommandHistory C) : bool :=
  Z.of_nat (length (undoStack h)) >? 0.

Definition canRedo {C : Type} (h : CommandHistory C) : bool :=
  Z.of_nat (length (redoStack h)) >? 0.

Definition undoStackSize {C : Type} (h : CommandHistory C) : Z :=
  Z.of_nat (length (undoStack h)).

Definition redoStackSize {C : Type} (h : CommandHistory C) : Z :=
  Z.of_nat (length (redoStack h)).

Section History.

Context {W C : Type} `{UndoableCommand W C}.

(** A method of a command, called from a method of the history. *)
Definition onWorld {A : Type} (m : M W A) : M (CommandHistory C * W) A :=
  fun s => let (r, w') := m (snd s) in (r, (fst s, w')).

Definition onHistory (f : CommandHistory C -> CommandHistory C) : M (CommandHistory C * W) unit :=
  modify (fun s => (f (fst s), snd s)).

Definition CommandHistory_execute (command : C) : M (CommandHistory C * W) unit :=
  (* Execute the command *)
  onWorld (execute command) ;>
  (* Add to undo stack *)
  onHistory (fun h => mkCommandHistory (undoStack h ++ [command]) (redoStack h) (maxStackSize h)) ;>
  (* Clear redo stack *)
  onHistory (fun h => mkCommandHistory (undoStack h) [] (maxStackSize h)) ;>
  (* Trim stack if too large *)
  let* s := get in
  if Z.of_nat (length (undoStack (fst s))) >? maxStackSize (fst s)
  then onHistory (fun h => mkCommandHistory (tail (undoStack h)) (redoStack h) (maxStackSize h))
  else ret tt.

Definition CommandHistory_undo : M (CommandHistory C * W) bool :=
  let* s := get in
  if negb (canUndo (fst s)) then ret false
  else
    match last (undoStack (fst s)) with
    | None => ret false
    | Some command =>
      onHistory (fun h => mkCommandHistory (removelast (undoStack h)) (redoStack h) (maxStackSize h)) ;>
      onWorld (undo command) ;>
      onHistory (fun h => mkCommandHistory (undoStack h) (redoStack h ++ [command]) (maxStackSize h)) ;>
      ret true
    end.

Definition CommandHistory_redo : M (CommandHistory C * W) bool :=
  let* s := get in
  if negb (canRedo (fst s)) then ret false
  else
    match last (redoStack (fst s)) with
    | None => ret false
    | Some command =>
      onHistory (fun h => mkCommandHistory (undoStack h) (removelast (redoStack h)) (maxStackSize h)) ;>
      onWorld (redo command) ;>
      onHistory (fun h => mkCommandHistory (undoStack h ++ [command]) (redoStack h) (maxStackSize h)) ;>
      ret true
    end.

Definition CommandHistory_clear : M (CommandHistory C * W) unit :=
  onHistory (fun h => mkCommandHistory [] [] (maxStackSize h)).

(** [n] calls of a method in a row, as a caller writes them. *)
Fixpoint times {A : Type} (n : nat) (m : M (CommandHistory C * W) A) : M (CommandHistory C * W) unit :=
  match n with
  | O => ret tt
  | S n' => m ;> times n' m
  end.

(** [history.execute(c)] for each command of a list, first to last. *)
Fixpoint executeAll (cs : list C) : M (CommandHistory C * W) unit :=
  match cs with
  | [] => ret tt
  | c :: cs' => CommandHistory_execute c ;> executeAll cs'
  end.

End History.
(** ** What the buffer methods compute

    The class invariant: the array of lines is never empty and the line
    ending is one of the three styles [setText] detects. *)

Definition validLineEnding (e : str) : Prop :=
  e = [CR; LF] \/ e = [CR] \/ e = [LF].

Record wf (b : LineBuffer) : Prop := mk_wf {
  wf_lines : lines b <> [];
  wf_ending : validLineEnding (_lineEndings b)
}.

(** Pure readings of the clamping arithmetic, used to state results. *)
Definition clampLine (ls : list str) (l : Z) : Z :=
  Z.max 0 (Z.min l (Z.of_nat (length ls) - 1)).

Definition lineAt (ls : list str) (l : Z) : str := nth (Z.to_nat l) ls [].

Definition clampPos (ls : list str) (p : Position) : Position :=
  let l := clampLine ls (line p) in
  mkPosition l (Z.max 0 (Z.min (column p) (len (lineAt ls l)))).

Definition inBounds (ls : list str) (p : Position) : Prop :=
  0 <= line p < Z.of_nat (length ls) /\ 0 <= column p <= len (lineAt ls (line p)).

Definition posLe (p q : Position) : Prop :=
  line p < line q \/ (line p = line q /\ column p <= column q).

Definition normRange (ls : list str) (r : Range) : Range :=
  let s := clampPos ls (start r) in
  let e := clampPos ls (end_ r) in
  if (line s >? line e) || ((line s =? line e) && (column s >? column e))
  then mkRange e s else mkRange s e.

Definition detectLineEnding (content : str) : str :=
  if includes [CR; LF] content then [CR; LF]
  else if includes [CR] content then [CR]
  else [LF].


(** The text between two in-bounds positions [s <= e]. *)
Definition rangeText (sep : str) (ls : list str) (s e : Position) : str :=
  if line s =? line e then
    substring (lineAt ls (line s)) (column s) (column e)
  else
    join sep
      ([substringFrom (lineAt ls (line s)) (column s)] ++
       take (Z.to_nat (line e - line s - 1)) (drop (Z.to_nat (line s + 1)) ls) ++
       [substring (lineAt ls (line e)) 0 (column e)]).

(** The lines left when the text between [s] and [e] is cut out. *)
Definition delLines (ls : list str) (s e : Position) : list str :=
  take (Z.to_nat (line s)) ls ++
  [take (Z.to_nat (column s)) (lineAt ls (line s)) ++
   drop (Z.to_nat (column e)) (lineAt ls (line e))] ++
  drop (S (Z.to_nat (line e))) ls.

(** The segments of an inserted text placed between the two halves of the
    line they are inserted in. *)
Definition glue (before : str) (segs : list str) (after : str) : list str :=
  match segs with
  | [] => [before ++ after]
  | [s] => [before ++ s ++ after]
  | s :: rest => [before ++ s] ++ removelast rest ++ [default [] (last rest) ++ after]
  end.

Definition insLines (ls : list str) (q : Position) (segs : list str) : list str :=
  take (Z.to_nat (line q)) ls ++
  glue (take (Z.to_nat (column q)) (lineAt ls (line q))) segs
       (drop (Z.to_nat (column q)) (lineAt ls (line q))) ++
  drop (S (Z.to_nat (line q))) ls.

(** The end of the range [insertText] returns. *)
Definition insEnd (q : Position) (segs : list str) : Position :=
  mkPosition (line q + Z.of_nat (length segs) - 1)
    (len (default [] (last segs)) + (if Z.of_nat (length segs) =? 1 then column q else 0)).

(** The length [getLineLength] gives to an existing line. *)
Definition lineLen (b : LineBuffer) (i : Z) : Z :=
  len (lineAt (lines b) i) +
  (if i =? Z.of_nat (length (lines b)) - 1 then 0 else len (_lineEndings b)).

(** The lengths of the [n] lines from line [i] on, added up. *)
Fixpoint sumLens (b : LineBuffer) (n : nat) (i : Z) : Z :=
  match n with
  | O => 0
  | S n' => lineLen b i + sumLens b n' (i + 1)
  end.

(** The characters of some lines, each counted with one separator after it. *)
Definition lensWithSep (sep : str) (xs : list str) : Z :=
  fold_right (fun x acc => len x + len sep + acc) 0 xs.

(** Whether column [i] of a line holds a word character. *)
Definition isWordAt (l : str) (i : Z) : bool :=
  if i <? 0 then false
  else
    match l !! Z.to_nat i with
    | Some c => isWordChar c
    | None => false
    end.

(** The matches of [/\w+/g] on a line, by what they are rather than by how
    [exec] finds them: the columns [a] to [e] delimit a match when they
    enclose a non-empty run of word characters that cannot be extended on
    either side. *)
Definition wordSpan (l : str) (a e : Z) : Prop :=
  0 <= a < e /\ e <= len l /\
  (forall i, a <= i < e -> isWordAt l i = true) /\
  (a = 0 \/ isWordAt l (a - 1) = false) /\
  isWordAt l e = false.

Definition rangeOnLine (ln a e : Z) : Range :=
  mkRange (mkPosition ln a) (mkPosition ln e).

(** ** Undo and redo of well-formed edits

    [replaceText] on the array of lines: cut the normalised range out, then
    insert at the start the caller gave, clamped in the shortened buffer. *)
Definition replaceLines (ls : list str) (r : Range) (t : str) : list str :=
  let n := normRange ls r in
  let ls1 := delLines ls (start n) (end_ n) in
  insLines ls1 (clampPos ls1 (start r)) (splitLines t).

Definition replaceRange (ls : list str) (r : Range) (t : str) : Range :=
  let n := normRange ls r in
  let ls1 := delLines ls (start n) (end_ n) in
  mkRange (clampPos ls1 (start r)) (insEnd (clampPos ls1 (start r)) (splitLines t)).

(** A line holds no line break. *)
Definition clean (l : str) : Prop :=
  Forall (fun c => isCR c = false /\ isLF c = false) l.

(** The invariant of the buffer together with the fact that its lines, which
    all come out of [split], hold no line break. *)
Record wfc (b : LineBuffer) : Prop := mk_wfc {
  wfc_wf : wf b;
  wfc_clean : Forall clean (lines b)
}.

(** A range an edit can be undone for: its start is a position of the
    buffer and does not come after its clamped end. *)
Definition rangeOk (ls : list str) (r : Range) : Prop :=
  inBounds ls (start r) /\ posLe (start r) (clampPos ls (end_ r)).

(** The lines after a list of edits, and the requirement that each edit has
    a well-formed range in the buffer it is applied to. *)
Fixpoint linesAfter (ls : list str) (es : list (Range * str)) : list str :=
  match es with
  | [] => ls
  | (r, t) :: es' => linesAfter (replaceLines ls r t) es'
  end.

Fixpoint rangesOk (ls : list str) (es : list (Range * str)) : Prop :=
  match es with
  | [] => True
  | (r, t) :: es' => rangeOk ls r /\ rangesOk (replaceLines ls r t) es'
  end.

(** The range and the text a command was constructed with. *)
Definition editOf (w : World) (c : nat) : Range * str :=
  match objects w !! c with
  | Some o => (range o, newText o)
  | None => (mkRange (mkPosition 0 0) (mkPosition 0 0), [])
  end.

(** The command object once [execute] has run on the lines [ls]. *)
Definition executedCmd (sep : str) (ls : list str) (e : Range * str) : TextEditCommand :=
  mkTextEditCommand (fst e) (snd e)
    (rangeText sep ls (start (normRange ls (fst e))) (end_ (normRange ls (fst e))))
    (replaceRange ls (fst e) (snd e)) true false.

Fixpoint execObjs (sep : str) (ed : nat -> Range * str) (ls : list str)
  (objs : gmap nat TextEditCommand) (cs : list nat) : gmap nat TextEditCommand :=
  match cs with
  | [] => objs
  | c :: cs' =>
    execObjs sep ed (replaceLines ls (fst (ed c)) (snd (ed c)))
      (<[c := executedCmd sep ls (ed c)]> objs) cs'
  end.

(** A text that does not start with LF, so that a CR put in front of it
    stays a line ending of its own. *)
Definition noLeadingLF (s : str) : Prop :=
  match s with
  | c :: _ => isLF c = false
  | [] => True
  end.

(** The command [c] on the heap has the range and the text [ed c]. *)
Definition hasEdit (ed : nat -> Range * str) (objs : gmap nat TextEditCommand) (c : nat) : Prop :=
  exists o, objs !! c = Some o /\ (range o, newText o) = ed c.

(** The command [c] on the heap has been undone and still has the range and
    the text [ed c]. *)
Definition undoneEdit (ed : nat -> Range * str) (objs : gmap nat TextEditCommand) (c : nat) : Prop :=
  exists o, objs !! c = Some o /\ undone o = true /\ (range o, newText o) = ed c.

(** ** Concrete inputs used by the examples below *)

Definition exampleBuffer : LineBuffer :=
  snd (LineBuffer_new (lit "abc" ++ [LF] ++ lit "de" ++ [LF] ++ lit "fgh") [LF]).

(** A buffer holding ["abcdef"] and one command that replaces the range
    written backwards, from column 4 to column 1, by ["X"]. *)
Definition reversedWorld : World :=
  mkWorld (snd (LineBuffer_new (lit "abcdef") [LF]))
    {[ 0%nat := TextEditCommand_new (mkRange (mkPosition 0 4) (mkPosition 0 1)) (lit "X") ]}.

Definition textOf (s : CommandHistory nat * World) : Res str :=
  fst (getText (buffer (snd s))).

(** A stand-in for [new RegExp] that runs the search code on examples; it
    is not the runtime's constructor. It knows the sources without special
    characters, which match their own text (the letters A to Z regardless
    of case under the [i] flag). Every source with a special character it
    rejects, the well-formed ones too, which the runtime accepts; the
    runtime rejects ["("]. The theorems about searching take the
    constructor as a parameter; the examples apply the stand-in only to
    sources on which it agrees with the runtime. *)
Definition toLower (c : ascii) : ascii :=
  let n := nat_of_ascii c in
  if ((65 <=? n) && (n <=? 90))%nat then ascii_of_nat (n + 32) else c.

Definition sameChar (ignoreCase : bool) (a c : ascii) : bool :=
  if ignoreCase then Ascii.eqb (toLower a) (toLower c) else Ascii.eqb a c.

Fixpoint startsWithBy (eqc : ascii -> ascii -> bool) (p s : str) : bool :=
  match p, s with
  | [], _ => true
  | a :: p', c :: s' => eqc a c && startsWithBy eqc p' s'
  | _ :: _, [] => false
  end.

Fixpoint searchFrom (eqc : ascii -> ascii -> bool) (p s : str) (i : nat) : option nat :=
  if startsWithBy eqc p s then Some i
  else
    match s with
    | [] => None
    | _ :: s' => searchFrom eqc p s' (S i)
    end.

Definition literalMatcher (ignoreCase : bool) (p s : str) (i : Z) : option (Z * Z) :=
  match searchFrom (sameChar ignoreCase) p (drop (Z.to_nat i) s) (Z.to_nat i) with
  | Some k => Some (Z.of_nat k, len p)
  | None => None
  end.

Definition literal_RegExp_new (source flags : str) : option RegExp :=
  if existsb isRegExpSpecial source then None
  else
    Some (mkRegExp (literalMatcher (existsb (Ascii.eqb "i"%char) flags) source)
            (existsb (Ascii.eqb "g"%char) flags) 0).

Definition bufferOf (content : str) : LineBuffer := snd (LineBuffer_new content [LF]).

(** A history whose redo stack is not empty. *)
Definition historyWithRedo : CommandHistory nat := mkCommandHistory [3%nat] [5%nat; 4%nat] 1000.

(** The buffer ["abc"; "de"; "fgh"] and three commands: an insertion, a
    deletion over two lines and a replacement. *)
Definition threeCommandsWorld : World :=
  mkWorld exampleBuffer
    {[ 0%nat := TextEditCommand_new (mkRange (mkPosition 0 1) (mkPosition 0 1)) (lit "X");
       1%nat := TextEditCommand_new (mkRange (mkPosition 0 3) (mkPosition 1 1)) [];
       2%nat := TextEditCommand_new (mkRange (mkPosition 1 0) (mkPosition 1 2))
                  (lit "p" ++ [LF] ++ lit "q") ]}.

(** ** Sequences of edits

    The four mutating methods of [LineBuffer], as a caller applies them one
    after the other to the same buffer. *)
Inductive Edit : Type :=
| SetText (content : str)
| InsertText (position : Position) (text : str)
| DeleteText (range : Range)
| ReplaceText (range : Range) (text : str).

Definition applyEdit (e : Edit) : M LineBuffer unit :=
  match e with
  | SetText content => setText content
  | InsertText position text => insertText position text ;> ret tt
  | DeleteText range => deleteText range ;> ret tt
  | ReplaceText range text => replaceText range text ;> ret tt
  end.

Fixpoint applyEdits (es : list Edit) : M LineBuffer unit :=
  match es with
  | [] => ret tt
  | e :: es' => applyEdit e ;> applyEdits es'
  end.

(** The number of times an edit increments the version. *)
Definition versionSteps (e : Edit) : Z :=
  match e with
  | ReplaceText _ _ => 2
  | _ => 1
  end.

(** A computation that leaves the state as it found it, whatever it returns. *)
Definition readOnly {S A : Type} (m : M S A) : Prop := forall s, snd (m s) = s.

(** A match procedure that, on the text [text], reports matches that are
    not empty, start at or after the index the scan starts from and end
    inside the text. *)
Definition matchesInside (r : RegExp) (text : str) : Prop :=
  forall i a n, 0 <= i <= len text -> matcher r text i = Some (a, n) ->
  i <= a /\ 1 <= n /\ a + n <= len text.


(** ** BuiltInCommands

    The factories of text edit commands. The context argument is the
    [World] the command is run in and the label plays no part in what a
    command does; both are left out, as they are in [TextEditCommand]. *)

Definition createInsertTextCommand (position : Position) (text : str) : TextEditCommand :=
  let range_ := mkRange position position in
  TextEditCommand_new range_ text.

Definition createDeleteTextCommand (range_ : Range) : TextEditCommand :=
  TextEditCommand_new range_ [].

Definition createReplaceTextCommand (range_ : Range) (newText_ : str) : TextEditCommand :=
  TextEditCommand_new range_ newText_.

(** ** Methods that throw [new Error(message)]

    The classes around the buffer signal misuse with [throw new
    Error(message)]. Their methods are computations in [E S]: a call
    returns a value, raises an [Error] with its message, or fails on an
    [undefined] reference as in [M]. *)

Inductive Outcome (A : Type) : Type :=
| Returned (a : A)
| Raised (message : string)
| Failed (e : JsError).

Arguments Returned {A} a.
Arguments Raised {A} message.
Arguments Failed {A} e.

Definition E (S A : Type) : Type := S -> Outcome A * S.

(** ** CompositeCommand

    A composite command owns an array of references to commands of some
    class [C] and its own two flags. It lives on a heap of its own, beside
    the state [W] its children act on: a child cannot reach the composite
    that holds it. *)

Module CompositeCommand.

Record t (C : Type) : Type := mk {
  commands : list C;
  executed : bool;
  undone : bool
}.

Arguments mk {C} _ _ _.
Arguments commands {C} _.
Arguments executed {C} _.
Arguments undone {C} _.

(** The constructor copies the array it is given. *)
Definition new {C : Type} (commands_ : list C) : t C := mk commands_ false false.

Definition markExecuted {C : Type} (o : t C) : t C := mk (commands o) true false.
Definition markUndone {C : Type} (o : t C) : t C := mk (commands o) false true.

End CompositeCommand.

Record Heap (W C : Type) : Type := mkHeap {
  world : W;
  composites : gmap nat (CompositeCommand.t C)
}.

Arguments mkHeap {W C} _ _.
Arguments world {W C} _.
Arguments composites {W C} _.

Section Composite.

Context {W C : Type} `{UndoableCommand W C}.

(** A method of a child, called from a method of the composite. *)
Definition onChildren {A : Type} (m : M W A) : M (Heap W C) A :=
  fun s => let (r, w') := m (world s) in (r, mkHeap w' (composites s)).

Definition thisComposite (k : nat) : M (Heap W C) (CompositeCommand.t C) :=
  fun s =>
    match composites s !! k with
    | Some o => (Ok o, s)
    | None => (Throw TypeError, s)
    end.

Definition updateComposite (k : nat) (f : CompositeCommand.t C -> CompositeCommand.t C)
  : M (Heap W C) unit :=
  modify (fun s => mkHeap (world s) (alter f k (composites s))).

(** [for (const command of commands) command.m()] *)
Fixpoint forEach (m : C -> M W unit) (commands : list C) : M W unit :=
  match commands with
  | [] => ret tt
  | command :: rest => m command ;> forEach m rest
  end.

(** [for (let i = n - 1; i >= 0; i--) commands[i].undo()], with [n] the
    number of iterations left. *)
Fixpoint undo_loop (n : nat) (commands : list C) : M W unit :=
  match n with
  | O => ret tt
  | S i => (let* command := deref (commands !! i) in undo command) ;> undo_loop i commands
  end.

Definition CompositeCommand_execute (k : nat) : M (Heap W C) unit :=
  let* this := thisComposite k in
  onChildren (forEach execute (CompositeCommand.commands this)) ;>
  updateComposite k CompositeCommand.markExecuted.

Definition CompositeCommand_undo (k : nat) : M (Heap W C) unit :=
  let* this := thisComposite k in
  if negb (CompositeCommand.executed this) then ret tt
  else
    (* Undo in reverse order *)
    onChildren (undo_loop (length (CompositeCommand.commands this))
                  (CompositeCommand.commands this)) ;>
    updateComposite k CompositeCommand.markUndone.

Definition CompositeCommand_redo (k : nat) : M (Heap W C) unit :=
  let* this := thisComposite k in
  if negb (CompositeCommand.undone this) then ret tt
  else
    onChildren (forEach redo (CompositeCommand.commands this)) ;>
    updateComposite k CompositeCommand.markExecuted.

Definition CompositeCommand_addCommand (k : nat) (command : C) : E (Heap W C) unit :=
  fun s =>
    match composites s !! k with
    | None => (Failed TypeError, s)
    | Some this =>
      if CompositeCommand.executed this
      then (Raised "Cannot add commands to an already executed composite command", s)
      else
        (Returned tt,
         mkHeap (world s)
           (<[k := CompositeCommand.mk (CompositeCommand.commands this ++ [command])
                     (CompositeCommand.executed this) (CompositeCommand.undone this)]>
              (composites s)))
    end.

End Composite.

(** A composite is a command itself. *)
#[export] Instance CompositeCommand_UndoableCommand {W C : Type} `{UndoableCommand W C}
  : UndoableCommand (Heap W C) nat := {
  execute := CompositeCommand_execute;
  undo := CompositeCommand_undo;
  redo := CompositeCommand_redo
}.

(** [new TextEditCommand(...)]: the new object gets a reference no object
    of the heap has. *)
Definition alloc (o : TextEditCommand) : M World nat :=
  fun w =>
    let k := fresh (dom (objects w)) in
    (Ok k, mkWorld (buffer w) (<[k := o]> (objects w))).

(** [edits.map(edit => new TextEditCommand(context, edit.range, edit.text, ...))] *)
Fixpoint allocEdits (edits : list (Range * str)) : M World (list nat) :=
  match edits with
  | [] => ret []
  | edit :: rest =>
    let* k := alloc (TextEditCommand_new (fst edit) (snd edit)) in
    let* ks := allocEdits rest in
    ret (k :: ks)
  end.

(** [BuiltInCommands.createMultiCursorEditCommand]: the reference to the
    new composite. *)
Definition createMultiCursorEditCommand (edits : list (Range * str)) : M (Heap World nat) nat :=
  let* commands_ := onChildren (allocEdits edits) in
  fun s =>
    let k := fresh (dom (composites s)) in
    (Ok k, mkHeap (world s) (<[k := CompositeCommand.new commands_]> (composites s))).

(** Two edits at two cursors of the example buffer. *)
Definition twoCursorEdits : list (Range * str) :=
  [(mkRange (mkPosition 0 1) (mkPosition 0 1), lit "X");
   (mkRange (mkPosition 1 0) (mkPosition 1 2), lit "p" ++ [LF] ++ lit "q")].

Definition emptyHeap : Heap World nat := mkHeap (mkWorld exampleBuffer ∅) ∅.

(** ** TextDocumentImpl *)

Module TextDocumentImpl.

Record t : Type := mk {
  uri : string;
  languageId : string;
  version : Z;
  buffer : LineBuffer
}.

End TextDocumentImpl.

(** The outcome of an expression that has no state of its own to return. *)
Definition liftRes {S A : Type} (r : Res A) : M S A := fun s => (r, s).

(** The constructor: [this.buffer = new LineBuffer(content)], the line
    ending argument left to its default. *)
Definition TextDocumentImpl_new (uri languageId : string) (version_ : Z) (content : str)
  : Res TextDocumentImpl.t :=
  match LineBuffer_new content [LF] with
  | (Ok _, buffer_) => Ok (TextDocumentImpl.mk uri languageId version_ buffer_)
  | (Throw e, _) => Throw e
  | (OutOfFuel, _) => OutOfFuel
  end.

(** A method of [this.buffer], called from a method of the document. *)
Definition onDocumentBuffer {A : Type} (m : M LineBuffer A) : M TextDocumentImpl.t A :=
  fun d =>
    let (r, b') := m (TextDocumentImpl.buffer d) in
    (r, TextDocumentImpl.mk (TextDocumentImpl.uri d) (TextDocumentImpl.languageId d)
          (TextDocumentImpl.version d) b').

Definition TextDocumentImpl_lineCount (d : TextDocumentImpl.t) : Z :=
  lineCount (TextDocumentImpl.buffer d).

(** [getText(range?)]: [None] when the argument is left out. *)
Definition TextDocumentImpl_getText (range_ : option Range) : M TextDocumentImpl.t str :=
  match range_ with
  | None => onDocumentBuffer getText
  | Some r => onDocumentBuffer (getTextRange r)
  end.

Definition TextDocumentImpl_getLineContent (line_ : Z) : M TextDocumentImpl.t str :=
  onDocumentBuffer (getLineContent line_).

Definition TextDocumentImpl_validateRange (range_ : Range) : M TextDocumentImpl.t Range :=
  onDocumentBuffer (validateRange range_).

Definition TextDocumentImpl_validatePosition (position : Position)
  : M TextDocumentImpl.t Position :=
  onDocumentBuffer (validatePosition position).

(** The comparator [applyChanges] sorts with: negative when [a] is to come
    first, which is when [a] starts later in the document. *)
Definition compareChanges (a b : Range * str) : Z :=
  if negb (line (start (fst a)) =? line (start (fst b)))
  then line (start (fst b)) - line (start (fst a))
  else column (start (fst b)) - column (start (fst a)).

(** [Array.prototype.sort] with a comparator. The sort is stable, and with
    a comparator that is a consistent ordering, as [compareChanges] is, its
    result does not depend on the algorithm; it is written here as an
    insertion sort. *)
Fixpoint insertSorted {A : Type} (compare : A -> A -> Z) (x : A) (l : list A) : list A :=
  match l with
  | [] => [x]
  | y :: l' => if compare x y >? 0 then y :: insertSorted compare x l' else x :: y :: l'
  end.

Definition sort {A : Type} (compare : A -> A -> Z) (l : list A) : list A :=
  fold_right (insertSorted compare) [] l.

(** [for (const change of sortedChanges) newBuffer.replaceText(change.range, change.text)] *)
Fixpoint applySorted (sortedChanges : list (Range * str)) : M LineBuffer unit :=
  match sortedChanges with
  | [] => ret tt
  | change :: rest => replaceText (fst change) (snd change) ;> applySorted rest
  end.

Definition applyChanges (changes : list (Range * str))
  : M TextDocumentImpl.t TextDocumentImpl.t :=
  let* text := onDocumentBuffer getText in
  let* this := get in
  let (made, newBuffer) := LineBuffer_new text (lineEndings (TextDocumentImpl.buffer this)) in
  liftRes made ;>
  (* Sort changes by position (reverse order to maintain indices) *)
  let sortedChanges := sort compareChanges changes in
  (* Apply changes in reverse order *)
  let (applied, newBuffer') := applySorted sortedChanges newBuffer in
  liftRes applied ;>
  let* text' := liftRes (fst (getText newBuffer')) in
  liftRes (TextDocumentImpl_new (TextDocumentImpl.uri this) (TextDocumentImpl.languageId this)
             (TextDocumentImpl.version this + 1) text').

(** ** Edits seen on the text *)

(** The text before a position and the text from it on. *)
Definition textBefore (sep : str) (ls : list str) (q : Position) : str :=
  join sep (take (Z.to_nat (line q)) ls ++ [take (Z.to_nat (column q)) (lineAt ls (line q))]).

Definition textFrom (sep : str) (ls : list str) (q : Position) : str :=
  join sep ([drop (Z.to_nat (column q)) (lineAt ls (line q))] ++ drop (S (Z.to_nat (line q))) ls).






(** The line ending [setText] detects in the text of a buffer. *)
Definition detectedEnding (b : LineBuffer) : str :=
  if (1 <? length (lines b))%nat then _lineEndings b else [LF].

(** A document on the example buffer. *)
Definition exampleDocument : TextDocumentImpl.t :=
  TextDocumentImpl.mk "file:///notes.txt" "plaintext" 7 exampleBuffer.

(** ** Maps

    A JavaScript [Map] with string keys keeps its entries in the order in
    which their keys were first set; [keys()] lists them in that order. *)

Fixpoint Map_get {V : Type} (m : list (string * V)) (key : string) : option V :=
  match m with
  | [] => None
  | (k, v) :: m' => if String.eqb k key then Some v else Map_get m' key
  end.

Definition Map_has {V : Type} (m : list (string * V)) (key : string) : bool :=
  match Map_get m key with
  | Some _ => true
  | None => false
  end.

Fixpoint Map_set {V : Type} (m : list (string * V)) (key : string) (value : V)
  : list (string * V) :=
  match m with
  | [] => [(key, value)]
  | (k, v) :: m' =>
    if String.eqb k key then (k, value) :: m' else (k, v) :: Map_set m' key value
  end.

Definition Map_delete {V : Type} (m : list (string * V)) (key : string) : list (string * V) :=
  List.filter (fun e => negb (String.eqb (fst e) key)) m.

Definition Map_keys {V : Type} (m : list (string * V)) : list string := map fst m.

(** ** DisposableImpl and CommandRegistry

    The registry stores commands and handlers it knows nothing about
    besides the [id] of a command: their types are parameters. A disposable
    is an object on the heap; the two closures the registry gives to
    [new DisposableImpl] are told apart by what they delete. *)

Inductive Cleanup : Type :=
| DeleteCommand (commandId : string)   (* [() => this.commands.delete(command.id)] *)
| DeleteHandler (commandId : string).  (* [() => this.handlers.delete(commandId)] *)

Record DisposableImpl : Type := mkDisposableImpl {
  isDisposed : bool;
  cleanupFn : Cleanup
}.

Section Registry.

Variables Command Handler : Type.

(** [command.id] *)
Variable id : Command -> string.

(** The two maps of the registry and the disposables it has handed out. *)
Record CommandRegistry : Type := mkCommandRegistry {
  commands : list (string * Command);
  handlers : list (string * Handler);
  disposables : gmap nat DisposableImpl
}.

Definition CommandRegistry_new : CommandRegistry := mkCommandRegistry [] [] ∅.

(** [new DisposableImpl(cleanupFn)]: the reference to the new object. *)
Definition newDisposable (cleanup : Cleanup) (ds : gmap nat DisposableImpl)
  : nat * gmap nat DisposableImpl :=
  let k := fresh (dom ds) in (k, <[k := mkDisposableImpl false cleanup]> ds).

Definition register (command : Command) : E CommandRegistry nat :=
  fun s =>
    if Map_has (commands s) (id command)
    then (Raised ("Command with id '" ++ id command ++ "' is already registered")%string, s)
    else
      let (k, ds) := newDisposable (DeleteCommand (id command)) (disposables s) in
      (Returned k, mkCommandRegistry (Map_set (commands s) (id command) command) (handlers s) ds).

Definition registerHandler (commandId : string) (handler : Handler) : E CommandRegistry nat :=
  fun s =>
    if Map_has (handlers s) commandId
    then (Raised ("Handler for command '" ++ commandId ++ "' is already registered")%string, s)
    else
      let (k, ds) := newDisposable (DeleteHandler commandId) (disposables s) in
      (Returned k, mkCommandRegistry (commands s) (Map_set (handlers s) commandId handler) ds).

(** [DisposableImpl.dispose] on the disposable [k]. *)
Definition dispose (k : nat) : E CommandRegistry unit :=
  fun s =>
    match disposables s !! k with
    | None => (Failed TypeError, s)
    | Some d =>
      if negb (isDisposed d) then
        let ds := <[k := mkDisposableImpl true (cleanupFn d)]> (disposables s) in
        match cleanupFn d with
        | DeleteCommand commandId =>
          (Returned tt, mkCommandRegistry (Map_delete (commands s) commandId) (handlers s) ds)
        | DeleteHandler commandId =>
          (Returned tt, mkCommandRegistry (commands s) (Map_delete (handlers s) commandId) ds)
        end
      else (Returned tt, s)
    end.

Definition CommandRegistry_get (commandId : string) (s : CommandRegistry) : option Command :=
  Map_get (commands s) commandId.

Definition getCommandIds (s : CommandRegistry) : list string := Map_keys (commands s).

Definition has (commandId : string) (s : CommandRegistry) : bool :=
  Map_has (commands s) commandId || Map_has (handlers s) commandId.

(** What a handler and the [execute] method of a command do when called is
    not the registry's business. *)
Variables Args Value : Type.
Variable callHandler : Handler -> Args -> E CommandRegistry Value.
Variable callCommand : Command -> Args -> E CommandRegistry Value.

Definition CommandRegistry_execute (commandId : string) (args : Args)
  : E CommandRegistry Value :=
  fun s =>
    (* Try handler first *)
    match Map_get (handlers s) commandId with
    | Some handler => callHandler handler args s
    | None =>
      (* Try registered command *)
      match Map_get (commands s) commandId with
      | Some command => callCommand command args s
      | None => (Raised ("Command '" ++ commandId ++ "' not found")%string, s)
      end
    end.

(** The calls that change a registry, as its users make them; a call that
    raises an error leaves the registry to the next call. *)
Inductive RegistryCall : Type :=
| CallRegister (command : Command)
| CallRegisterHandler (commandId : string) (handler : Handler)
| CallDispose (k : nat).

Definition runCall (call : RegistryCall) (s : CommandRegistry) : CommandRegistry :=
  match call with
  | CallRegister command => snd (register command s)
  | CallRegisterHandler commandId handler => snd (registerHandler commandId handler s)
  | CallDispose k => snd (dispose k s)
  end.

Definition runCalls (calls : list RegistryCall) (s : CommandRegistry) : CommandRegistry :=
  fold_left (fun s call => runCall call s) calls s.

End Registry.

Arguments commands {Command Handler} _.
Arguments handlers {Command Handler} _.
Arguments disposables {Command Handler} _.
Arguments CallRegister {Command Handler} _.
Arguments CallRegisterHandler {Command Handler} _ _.
Arguments CallDispose {Command Handler} _.

(** The disposable [k] has not been disposed and its cleanup is [c]. *)
Definition liveFor {Command Handler : Type} (s : CommandRegistry Command Handler)
  (k : nat) (c : Cleanup) : Prop :=
  disposables s !! k = Some (mkDisposableImpl false c).

(** Every disposable of a command that has not been disposed belongs to a
    command that is registered, and no two of them to the same id. *)
Definition registryOk {Command Handler : Type} (s : CommandRegistry Command Handler) : Prop :=
  (forall k i, liveFor s k (DeleteCommand i) -> Map_has (commands s) i = true) /\
  (forall k k' i, liveFor s k (DeleteCommand i) -> liveFor s k' (DeleteCommand i) -> k = k') /\
  NoDup (Map_keys (commands s)).

(** The registration of [c] with the disposable [k] is in force. *)
Definition registered {Command Handler : Type} (id : Command -> string) (c : Command) (k : nat)
  (s : CommandRegistry Command Handler) : Prop :=
  registryOk s /\ liveFor s k (DeleteCommand (id c)) /\ Map_get (commands s) (id c) = Some c.

(** A registry of commands that are their own id, with handlers that carry
    nothing. *)
Definition exampleCalls : list (@RegistryCall string unit) :=
  [CallRegister "editor.save"%string; CallDispose 0%nat;
   CallRegisterHandler "editor.open"%string tt].

Definition laterCalls : list (@RegistryCall string unit) :=
  [CallDispose 0%nat; CallRegister "editor.save"%string; CallDispose 1%nat].

(** ** CommandGrouper

    The grouper relies on the timers of the runtime. A timer is known by
    its id, a positive number; [setTimeout] hands out a new id and keeps the
    timer pending until it is cleared or fires. The only callback the
    grouper ever registers is [() => this.endGroup()], so a pending timer
    needs no more than its id. When a timer fires is up to the runtime:
    [timerFires] is the event, to be placed between the calls of the
    methods. *)

Record CommandGrouper : Type := mkCommandGrouper {
  currentGroup : option nat;   (* a reference to a composite, [None] for [null] *)
  groupTimeout : option nat;   (* a timer id, [None] for [null] *)
  groupingTimeoutMs : Z
}.

Record Timers : Type := mkTimers {
  pending : gset nat;
  nextTimerId : nat
}.

Record GrouperWorld (W C : Type) : Type := mkGrouperWorld {
  grouper : CommandGrouper;
  timers : Timers;
  heap : Heap W C
}.

Arguments mkGrouperWorld {W C} _ _ _.
Arguments grouper {W C} _.
Arguments timers {W C} _.
Arguments heap {W C} _.

Section Grouper.

Context {W C : Type}.

(** A grouper fresh from the constructor, in a runtime without timers. *)
Definition CommandGrouper_new (groupingTimeoutMs_ : Z) (h : Heap W C) : GrouperWorld W C :=
  mkGrouperWorld (mkCommandGrouper None None groupingTimeoutMs_) (mkTimers ∅ 1) h.

Definition setTimeout (ts : Timers) : nat * Timers :=
  (nextTimerId ts, mkTimers ({[nextTimerId ts]} ∪ pending ts) (S (nextTimerId ts))).

Definition clearTimeout (t : nat) (ts : Timers) : Timers :=
  mkTimers (pending ts ∖ {[t]}) (nextTimerId ts).

(** [if (this.groupTimeout)]: [null] and 0 are falsy. *)
Definition truthy (t : option nat) : bool :=
  match t with
  | Some (S _) => true
  | _ => false
  end.

(** [clearTimeout(this.groupTimeout)] *)
Definition clearGroupTimeout (s : GrouperWorld W C) : Timers :=
  match groupTimeout (grouper s) with
  | Some t => clearTimeout t (timers s)
  | None => timers s
  end.

Definition endGroup : E (GrouperWorld W C) (option nat) :=
  fun s =>
    let g := grouper s in
    let s1 :=
      if truthy (groupTimeout g)
      then mkGrouperWorld (mkCommandGrouper (currentGroup g) None (groupingTimeoutMs g))
             (clearGroupTimeout s) (heap s)
      else s in
    let group := currentGroup (grouper s1) in
    (Returned group,
     mkGrouperWorld
       (mkCommandGrouper None (groupTimeout (grouper s1)) (groupingTimeoutMs (grouper s1)))
       (timers s1) (heap s1)).

(** [startGroup(id, label)]: the id and the label play no part. *)
Definition startGroup : E (GrouperWorld W C) unit :=
  fun s =>
    let (_, s1) := endGroup s in
    let k := fresh (dom (composites (heap s1))) in
    (Returned tt,
     mkGrouperWorld
       (mkCommandGrouper (Some k) (groupTimeout (grouper s1)) (groupingTimeoutMs (grouper s1)))
       (timers s1)
       (mkHeap (world (heap s1)) (<[k := CompositeCommand.new []]> (composites (heap s1))))).

Definition resetGroupTimeout : E (GrouperWorld W C) unit :=
  fun s =>
    let ts := if truthy (groupTimeout (grouper s)) then clearGroupTimeout s else timers s in
    let (t, ts') := setTimeout ts in
    (Returned tt,
     mkGrouperWorld
       (mkCommandGrouper (currentGroup (grouper s)) (Some t) (groupingTimeoutMs (grouper s)))
       ts' (heap s)).

Definition addToGroup (command : C) : E (GrouperWorld W C) unit :=
  fun s =>
    match currentGroup (grouper s) with
    | Some k =>
      match CompositeCommand_addCommand k command (heap s) with
      | (Returned _, h') => resetGroupTimeout (mkGrouperWorld (grouper s) (timers s) h')
      | (Raised message, h') => (Raised message, mkGrouperWorld (grouper s) (timers s) h')
      | (Failed e, h') => (Failed e, mkGrouperWorld (grouper s) (timers s) h')
      end
    | None => (Returned tt, s)
    end.

Definition getCurrentGroup (s : GrouperWorld W C) : option nat := currentGroup (grouper s).

(** The runtime runs the callback of the timer [t], if [t] is pending. *)
Definition timerFires (t : nat) : E (GrouperWorld W C) unit :=
  fun s =>
    if decide (t ∈ pending (timers s)) then
      let s1 :=
        mkGrouperWorld (grouper s)
          (mkTimers (pending (timers s) ∖ {[t]}) (nextTimerId (timers s))) (heap s) in
      let (_, s2) := endGroup s1 in
      (Returned tt, s2)
    else (Returned tt, s).

(** [addToGroup] for each command of a list, first to last, stopping at the
    first call that does not return. *)
Fixpoint addAllToGroup (cs : list C) : E (GrouperWorld W C) unit :=
  fun s =>
    match cs with
    | [] => (Returned tt, s)
    | c :: cs' =>
      match addToGroup c s with
      | (Returned _, s') => addAllToGroup cs' s'
      | other => other
      end
    end.

(** What the grouper keeps true of the timers: a pending timer is the one
    [groupTimeout] names, and ids are positive and below the next id. *)
Definition timersOk (s : GrouperWorld W C) : Prop :=
  (forall x, x ∈ pending (timers s) -> groupTimeout (grouper s) = Some x) /\
  (forall x, groupTimeout (grouper s) = Some x -> (1 <= x < nextTimerId (timers s))%nat) /\
  (1 <= nextTimerId (timers s))%nat.

End Grouper.
Ltac unfold_M := unfold bind, ret, get, put, modify, throw, deref in *.


Lemma lines_at_inside (b : LineBuffer) (i : Z) :
  0 <= i < Z.of_nat (length (lines b)) ->
  lines_at b i = Some (lineAt (lines b) i).
Proof.
  intros Hi. unfold lines_at, lineAt.
  destruct (Z.ltb_spec i 0); [lia|].
  rewrite nth_lookup.
  destruct (lookup_lt_is_Some_2 (lines b) (Z.to_nat i)) as [x Hx]; [lia|].
  rewrite Hx. reflexivity.
Qed.

(** Running a method body whose reads of [this.lines[i]] are inside the array. *)
Ltac run_M :=
  unfold bind, get;
  rewrite ?lines_at_inside by lia;
  unfold set_line, set_lines, set_lineEndings, bump_version;
  unfold deref, ret, throw, put, modify;
  cbn [lines _version _lineEndings fst snd].

Lemma lines_at_Some_inside (b : LineBuffer) (i : Z) (l : str) :
  lines_at b i = Some l -> 0 <= i < Z.of_nat (length (lines b)) /\ l = lineAt (lines b) i.
Proof.
  unfold lines_at, lineAt. destruct (Z.ltb_spec i 0); [discriminate|].
  intros Hl. pose proof (lookup_lt_Some _ _ _ Hl).
  rewrite nth_lookup, Hl. split; [lia | reflexivity].
Qed.

Lemma clampLine_inside (ls : list str) (l : Z) :
  ls <> [] -> 0 <= clampLine ls l < Z.of_nat (length ls).
Proof.
  intros Hne. unfold clampLine. destruct ls; [congruence|]. simpl length. lia.
Qed.

Lemma clampPos_inBounds (ls : list str) (p : Position) :
  ls <> [] -> inBounds ls (clampPos ls p).
Proof.
  intros Hne. unfold inBounds, clampPos. simpl.
  pose proof (clampLine_inside ls (line p) Hne). unfold len. lia.
Qed.

Lemma clampPos_id (ls : list str) (p : Position) :
  inBounds ls p -> clampPos ls p = p.
Proof.
  unfold inBounds, clampPos, clampLine. intros [Hl Hc]. destruct p as [l c]; simpl in *.
  assert (Z.max 0 (Z.min l (Z.of_nat (length ls) - 1)) = l) as -> by lia.
  f_equal. lia.
Qed.

Lemma validatePosition_run (b : LineBuffer) (p : Position) :
  lines b <> [] -> validatePosition p b = (Ok (clampPos (lines b) p), b).
Proof.
  intros Hne. unfold validatePosition. unfold_M.
  pose proof (clampLine_inside (lines b) (line p) Hne) as Hin.
  unfold clampLine in Hin. rewrite (lines_at_inside b _ Hin). reflexivity.
Qed.

Lemma validateRange_run (b : LineBuffer) (r : Range) :
  lines b <> [] -> validateRange r b = (Ok (normRange (lines b) r), b).
Proof.
  intros Hne. unfold validateRange, bind.
  rewrite !validatePosition_run by assumption.
  unfold normRange.
  destruct ((line (clampPos (lines b) (start r)) >? line (clampPos (lines b) (end_ r)))
            || ((line (clampPos (lines b) (start r)) =? line (clampPos (lines b) (end_ r)))
                && (column (clampPos (lines b) (start r)) >? column (clampPos (lines b) (end_ r)))));
    reflexivity.
Qed.

(** The constructor establishes the invariant. *)
Lemma splitLines_nonempty (s : str) : splitLines s <> [].
Proof.
  induction s as [|c s IH]; simpl; [discriminate|].
  destruct (isLF c); [discriminate|].
  destruct (isCR c).
  - destruct s as [|d s']; [discriminate|]. destruct (isLF d); discriminate.
  - destruct (splitLines s); discriminate.
Qed.

Lemma setText_run (content : str) (b : LineBuffer) :
  setText content b =
  (Ok tt, mkLineBuffer (splitLines content) (_version b + 1) (detectLineEnding content)).
Proof.
  unfold setText, detectLineEnding, set_lineEndings, set_lines, bump_version. unfold_M.
  pose proof (splitLines_nonempty content) as Hne.
  destruct (includes [CR; LF] content); [|destruct (includes [CR] content)]; simpl;
    (destruct (splitLines content) as [|l ls]; [congruence|]); reflexivity.
Qed.

Lemma LineBuffer_new_run (content lineEnding : str) :
  LineBuffer_new content lineEnding =
  (Ok tt, mkLineBuffer (splitLines content) 1 (detectLineEnding content)).
Proof.
  unfold LineBuffer_new, bind, set_lineEndings, modify. rewrite setText_run. reflexivity.
Qed.

Lemma detectLineEnding_valid (content : str) : validLineEnding (detectLineEnding content).
Proof.
  unfold detectLineEnding, validLineEnding.
  destruct (includes [CR; LF] content); [|destruct (includes [CR] content)]; auto.
Qed.

Lemma LineBuffer_new_wf (content lineEnding : str) :
  wf (snd (LineBuffer_new content lineEnding)).
Proof.
  rewrite LineBuffer_new_run. split; simpl.
  - apply splitLines_nonempty.
  - apply detectLineEnding_valid.
Qed.

(** ** Position clamping *)

(** C7. On every buffer state (the array of lines is never empty) and for
    every position, also with negative or oversized coordinates,
    [validatePosition] returns normally, leaves the buffer alone, and yields
    the line clamped into [0, lineCount - 1] and the column clamped into
    [0, length of that line]. For example, on a buffer of three lines the
    position (-5, 9999) becomes line 0 and the smaller of 9999 and the length
    of line 0, which is the length of line 0 as soon as 9999 is oversized
    for that line. *)
Theorem validatePosition_total_clamp (b : LineBuffer) (p : Position) :
  lines b <> [] ->
  (exists q l,
      validatePosition p b = (Ok q, b) /\
      line q = Z.max 0 (Z.min (line p) (lineCount b - 1)) /\
      0 <= line q <= lineCount b - 1 /\
      lines b !! Z.to_nat (line q) = Some l /\
      column q = Z.max 0 (Z.min (column p) (len l)) /\
      0 <= column q <= len l) /\
  (forall l0 l1 l2, lines b = [l0; l1; l2] ->
      validatePosition (mkPosition (-5) 9999) b
      = (Ok (mkPosition 0 (Z.min 9999 (len l0))), b) /\
      (len l0 <= 9999 ->
       validatePosition (mkPosition (-5) 9999) b = (Ok (mkPosition 0 (len l0)), b))).
Proof.
  intros Hne. split.
  - exists (clampPos (lines b) p), (lineAt (lines b) (clampLine (lines b) (line p))).
    pose proof (clampLine_inside (lines b) (line p) Hne) as Hin.
    split; [apply validatePosition_run; assumption|].
    unfold clampPos, lineCount; simpl.
    split; [reflexivity|]. split; [lia|].
    split.
    + pose proof (lines_at_inside b _ Hin) as Hl. unfold lines_at in Hl.
      destruct (Z.ltb_spec (clampLine (lines b) (line p)) 0); [lia | exact Hl].
    + unfold len. split; [reflexivity | lia].
  - intros l0 l1 l2 Hls. rewrite validatePosition_run by assumption.
    unfold clampPos, clampLine, lineAt, len. rewrite Hls. simpl.
    assert (Z.max 0 (Z.min (-5) (Z.of_nat 3 - 1)) = 0) as -> by lia.
    split; [|intros Hshort]; f_equal; f_equal; f_equal; lia.
Qed.

(** The clamping example on the buffer ["abc"; "de"; "fgh"]. *)
Lemma validatePosition_total_clamp_witness :
  (exists q l,
      validatePosition (mkPosition 7 (-2)) exampleBuffer = (Ok q, exampleBuffer) /\
      line q = Z.max 0 (Z.min 7 (lineCount exampleBuffer - 1)) /\
      0 <= line q <= lineCount exampleBuffer - 1 /\
      lines exampleBuffer !! Z.to_nat (line q) = Some l /\
      column q = Z.max 0 (Z.min (-2) (len l)) /\
      0 <= column q <= len l) /\
  validatePosition (mkPosition (-5) 9999) exampleBuffer
  = (Ok (mkPosition 0 3), exampleBuffer).
Proof.
  destruct (validatePosition_total_clamp exampleBuffer (mkPosition 7 (-2))) as [Hlaw Hex].
  - vm_compute. discriminate.
  - split; [exact Hlaw|].
    destruct (Hex (lit "abc") (lit "de") (lit "fgh") eq_refl) as [_ Hshort].
    apply Hshort. vm_compute. discriminate.
Defined.

(** ** The constructor *)

(** C10. The [lineEnding] argument of the constructor is inert: whatever it
    is, the constructed buffer is the same, and its line ending is CR LF if
    the content contains CR LF, else CR if the content contains CR, else LF. *)
Theorem constructor_lineEnding_inert (content e e' : str) :
  LineBuffer_new content e = LineBuffer_new content e' /\
  fst (LineBuffer_new content e) = Ok tt /\
  lineEndings (snd (LineBuffer_new content e)) =
    (if includes [CR; LF] content then [CR; LF]
     else if includes [CR] content then [CR]
     else [LF]).
Proof.
  rewrite !LineBuffer_new_run. repeat split.
Qed.

(** ** Command history: the stacks *)

Section HistoryFacts.

Context {W C : Type} `{UndoableCommand W C}.

Lemma CommandHistory_execute_run (c : C) (h : CommandHistory C) (w : W) :
  CommandHistory_execute c (h, w) =
  match execute c w with
  | (Ok _, w') =>
    (Ok tt,
     (mkCommandHistory
        (if Z.of_nat (length (undoStack h ++ [c])) >? maxStackSize h
         then tail (undoStack h ++ [c]) else undoStack h ++ [c])
        [] (maxStackSize h), w'))
  | (Throw e, w') => (Throw e, (h, w'))
  | (OutOfFuel, w') => (OutOfFuel, (h, w'))
  end.
Proof.
  unfold CommandHistory_execute, onWorld, onHistory. unfold_M. simpl.
  destruct (execute c w) as [[u|e|] w']; try reflexivity. simpl.
  destruct (Z.of_nat (length (undoStack h ++ [c])) >? maxStackSize h); reflexivity.
Qed.

(** C5. Whatever the two stacks held before, once
    [CommandHistory.execute(cmd)] has returned the redo stack is empty and
    [canRedo()] is false. *)
Theorem execute_clears_redo (c : C) (h h' : CommandHistory C) (w w' : W) :
  CommandHistory_execute c (h, w) = (Ok tt, (h', w')) ->
  redoStack h' = [] /\ canRedo h' = false /\ redoStackSize h' = 0.
Proof.
  rewrite CommandHistory_execute_run.
  destruct (execute c w) as [[u|e|] w1]; intros Heq; try discriminate.
  injection Heq as <- _. repeat split.
Qed.

Lemma CommandHistory_execute_stack (c : C) (h h' : CommandHistory C) (w w' : W) :
  CommandHistory_execute c (h, w) = (Ok tt, (h', w')) ->
  0 <= maxStackSize h ->
  Z.of_nat (length (undoStack h)) <= maxStackSize h ->
  maxStackSize h' = maxStackSize h /\
  Z.of_nat (length (undoStack h')) = Z.min (maxStackSize h) (Z.of_nat (length (undoStack h)) + 1) /\
  exists d, undoStack h ++ [c] = d ++ undoStack h'.
Proof.
  rewrite CommandHistory_execute_run.
  destruct (execute c w) as [[u|e|] w1]; intros Heq Hm Hlen; try discriminate.
  injection Heq as <- _. simpl.
  split; [reflexivity|].
  destruct (Z.gtb_spec (Z.of_nat (length (undoStack h ++ [c]))) (maxStackSize h)) as [Hgt|Hle];
    rewrite length_app in *; simpl in *.
  - destruct (undoStack h ++ [c]) as [|x rest] eqn:E.
    + destruct (undoStack h); discriminate.
    + assert (length (x :: rest) = (length (undoStack h) + 1)%nat) as Hl
        by (rewrite <- E, length_app; reflexivity).
      simpl in *. split; [lia|]. exists [x]. reflexivity.
  - split; [lia|]. exists []. reflexivity.
Qed.

Lemma executeAll_stack (cs : list C) :
  forall (h h' : CommandHistory C) (w w' : W),
  executeAll cs (h, w) = (Ok tt, (h', w')) ->
  0 <= maxStackSize h ->
  Z.of_nat (length (undoStack h)) <= maxStackSize h ->
  maxStackSize h' = maxStackSize h /\
  Z.of_nat (length (undoStack h')) =
    Z.min (maxStackSize h) (Z.of_nat (length (undoStack h)) + Z.of_nat (length cs)) /\
  exists d, undoStack h ++ cs = d ++ undoStack h'.
Proof.
  induction cs as [|c cs IH]; intros h h' w w' Heq Hm Hlen.
  - simpl in Heq. unfold ret in Heq. injection Heq as <- _.
    split; [reflexivity|]. split; [simpl; lia|]. exists []. rewrite app_nil_r. reflexivity.
  - simpl in Heq. unfold bind in Heq.
    destruct (CommandHistory_execute c (h, w)) as [[[]|e|] [h1 w1]] eqn:E1; try discriminate.
    destruct (CommandHistory_execute_stack _ _ _ _ _ E1 Hm Hlen) as (Hm1 & Hl1 & d1 & Hd1).
    destruct (IH _ _ _ _ Heq) as (Hm2 & Hl2 & d2 & Hd2); [lia | lia |].
    split; [congruence|]. split.
    + rewrite Hl2, Hm1, Hl1. simpl length. lia.
    + exists (d1 ++ d2). rewrite <- app_assoc, <- Hd2, app_assoc, <- Hd1, <- app_assoc.
      reflexivity.
Qed.

(** C6. On a history with maximum stack size [m >= 0] (whose undo stack
    respects the bound, as it does from the constructor on), once [m + k]
    commands have been executed the undo stack holds exactly [m] entries:
    the [m] most recent commands, in the order they were executed. What was
    dropped is everything older: the entries the stack held before and the
    [k] oldest of the commands. *)
Theorem stack_bound_oldest_evicted (h h' : CommandHistory C) (k : nat) (cs : list C)
  (w w' : W) :
  0 <= maxStackSize h ->
  Z.of_nat (length (undoStack h)) <= maxStackSize h ->
  Z.of_nat (length cs) = maxStackSize h + Z.of_nat k ->
  executeAll cs (h, w) = (Ok tt, (h', w')) ->
  undoStackSize h' = maxStackSize h /\
  undoStack h' = drop k cs /\
  undoStack h ++ cs = (undoStack h ++ take k cs) ++ undoStack h'.
Proof.
  intros Hm Hu Hlen Heq.
  destruct (executeAll_stack cs _ _ _ _ Heq Hm Hu) as (_ & Hl & d & Hd).
  assert (Z.of_nat (length (undoStack h')) = maxStackSize h) as Hsize by lia.
  assert (length d = (length (undoStack h) + k)%nat) as Hk.
  { apply (f_equal (@length C)) in Hd. rewrite !length_app in Hd. lia. }
  assert (undoStack h' = drop k cs) as Hdrop.
  { apply (f_equal (drop (length d))) in Hd. rewrite drop_app_length in Hd.
    rewrite <- Hd, Hk, drop_app_add. reflexivity. }
  split; [exact Hsize|]. split; [exact Hdrop|].
  rewrite Hdrop, <- app_assoc, take_drop. reflexivity.
Qed.

End HistoryFacts.

(** ** Strings and arrays *)

Lemma substring_0 (l : str) (c : Z) :
  0 <= c -> substring l 0 c = take (Z.to_nat c) l.
Proof.
  intros Hc. unfold substring, clampIdx.
  assert (Z.to_nat (Z.max 0 (Z.min 0 (Z.of_nat (length l)))) = 0%nat) as -> by lia.
  rewrite Nat.max_0_l, Nat.min_0_l, Nat.sub_0_r, drop_0.
  destruct (Z.le_gt_cases c (Z.of_nat (length l))).
  - f_equal. lia.
  - rewrite !take_ge by lia. reflexivity.
Qed.

Lemma substringFrom_drop (l : str) (c : Z) :
  0 <= c -> substringFrom l c = drop (Z.to_nat c) l.
Proof.
  intros Hc. unfold substringFrom, clampIdx.
  destruct (Z.le_gt_cases c (Z.of_nat (length l))).
  - f_equal. lia.
  - rewrite !drop_ge by lia. reflexivity.
Qed.

Lemma substring_take_drop (l : str) (a c : Z) :
  0 <= a <= c -> c <= len l ->
  substring l a c = take (Z.to_nat c - Z.to_nat a) (drop (Z.to_nat a) l).
Proof.
  unfold len. intros Ha Hc. unfold substring, clampIdx.
  assert (Z.to_nat (Z.max 0 (Z.min a (Z.of_nat (length l)))) = Z.to_nat a) as -> by lia.
  assert (Z.to_nat (Z.max 0 (Z.min c (Z.of_nat (length l)))) = Z.to_nat c) as -> by lia.
  rewrite Nat.max_r, Nat.min_l by lia. reflexivity.
Qed.

Lemma lineAt_lookup (ls : list str) (i : Z) (l : str) :
  0 <= i -> ls !! Z.to_nat i = Some l -> lineAt ls i = l.
Proof. intros _ Hl. unfold lineAt. rewrite nth_lookup, Hl. reflexivity. Qed.

Lemma lineAt_middle (A B : list str) (l : str) (i : Z) :
  i = Z.of_nat (length A) -> lineAt (A ++ l :: B) i = l.
Proof.
  intros ->. apply lineAt_lookup; [lia|].
  rewrite Nat2Z.id. apply list_lookup_middle. reflexivity.
Qed.

Lemma lines_split (ls : list str) (i : Z) :
  0 <= i < Z.of_nat (length ls) ->
  ls = take (Z.to_nat i) ls ++ lineAt ls i :: drop (S (Z.to_nat i)) ls.
Proof.
  intros Hi. unfold lineAt.
  rewrite <- (take_drop (Z.to_nat i) ls) at 1. f_equal.
  rewrite nth_lookup.
  destruct (lookup_lt_is_Some_2 ls (Z.to_nat i)) as [x Hx]; [lia|].
  rewrite Hx. simpl. apply drop_S. exact Hx.
Qed.

Lemma insert_split (ls : list str) (i : Z) (v : str) :
  0 <= i < Z.of_nat (length ls) ->
  <[Z.to_nat i := v]> ls = take (Z.to_nat i) ls ++ v :: drop (S (Z.to_nat i)) ls.
Proof. intros Hi. apply insert_take_drop. lia. Qed.

Lemma splice_delete (A : list str) (x : str) (D B : list str) (s d : Z) :
  s = Z.of_nat (length A) + 1 -> d = Z.of_nat (length D) ->
  splice (A ++ x :: D ++ B) s d [] = A ++ x :: B.
Proof.
  intros -> ->. unfold splice.
  assert (Hlen : length (A ++ x :: D ++ B) = (length A + 1 + length D + length B)%nat).
  { rewrite length_app; simpl; rewrite length_app; lia. }
  rewrite Hlen.
  replace (Z.to_nat (Z.min (Z.max 0 (Z.of_nat (length A) + 1))
                       (Z.of_nat (length A + 1 + length D + length B))))
    with (length A + 1)%nat by lia.
  replace (Z.to_nat (Z.max 0 (Z.of_nat (length D)))) with (length D) by lia.
  simpl.
  replace (A ++ x :: D ++ B) with ((A ++ [x]) ++ D ++ B)
    by (rewrite <- app_assoc; reflexivity).
  rewrite take_app_length' by (rewrite length_app; simpl; lia).
  replace (length A + 1 + length D)%nat with (length (A ++ [x]) + length D)%nat
    by (rewrite length_app; simpl; lia).
  rewrite drop_app_add, drop_app_length.
  rewrite <- app_assoc. reflexivity.
Qed.

Lemma splice_insert (A B items : list str) (s : Z) :
  s = Z.of_nat (length A) ->
  splice (A ++ B) s 0 items = A ++ items ++ B.
Proof.
  intros ->. unfold splice. rewrite length_app.
  replace (Z.to_nat (Z.min (Z.max 0 (Z.of_nat (length A))) (Z.of_nat (length A + length B))))
    with (length A) by lia.
  simpl. rewrite Nat.add_0_r, take_app_length, drop_app_length. reflexivity.
Qed.

(** ** Ranges *)

Lemma normRange_spec (ls : list str) (r : Range) :
  ls <> [] ->
  inBounds ls (start (normRange ls r)) /\
  inBounds ls (end_ (normRange ls r)) /\
  posLe (start (normRange ls r)) (end_ (normRange ls r)).
Proof.
  intros Hne.
  pose proof (clampPos_inBounds ls (start r) Hne) as Hs.
  pose proof (clampPos_inBounds ls (end_ r) Hne) as He.
  unfold normRange.
  set (s := clampPos ls (start r)) in *. set (e := clampPos ls (end_ r)) in *.
  clearbody s e. unfold posLe, inBounds in *.
  destruct (Z.gtb_spec (line s) (line e)); destruct (Z.eqb_spec (line s) (line e));
    destruct (Z.gtb_spec (column s) (column e)); simpl; repeat split; lia.
Qed.

Lemma normRange_id (ls : list str) (s e : Position) :
  inBounds ls s -> inBounds ls e -> posLe s e ->
  normRange ls (mkRange s e) = mkRange s e.
Proof.
  intros Hs He Hle. unfold normRange. cbn [start end_].
  rewrite (clampPos_id ls s Hs), (clampPos_id ls e He).
  destruct Hle as [Hlt|[Heq Hc]].
  - destruct (Z.gtb_spec (line s) (line e)); [lia|].
    destruct (Z.eqb_spec (line s) (line e)); [lia|]. reflexivity.
  - destruct (Z.gtb_spec (line s) (line e)); [lia|].
    destruct (Z.gtb_spec (column s) (column e)); [lia|].
    rewrite andb_false_r. reflexivity.
Qed.

Lemma middle_lines (b : LineBuffer) (a n : Z) :
  0 <= a -> 0 <= n -> a + n <= Z.of_nat (length (lines b)) ->
  map (fun i => default [] (lines_at b i)) (seqZ a n)
  = take (Z.to_nat n) (drop (Z.to_nat a) (lines b)).
Proof.
  intros Ha Hn Hlen. apply list_eq. intros i.
  change (map (fun i => default [] (lines_at b i)) (seqZ a n))
    with ((fun i => default [] (lines_at b i)) <$> seqZ a n).
  rewrite list_lookup_fmap.
  destruct (Z.lt_ge_cases (Z.of_nat i) n) as [Hi|Hi].
  - rewrite lookup_seqZ_lt by assumption. simpl.
    rewrite lookup_take_lt by lia. rewrite lookup_drop.
    rewrite lines_at_inside by lia. simpl. unfold lineAt. rewrite nth_lookup.
    replace (Z.to_nat (a + Z.of_nat i)) with (Z.to_nat a + i)%nat by lia.
    destruct (lookup_lt_is_Some_2 (lines b) (Z.to_nat a + i)) as [x Hx]; [lia|].
    rewrite Hx. reflexivity.
  - rewrite lookup_seqZ_ge by assumption. simpl.
    rewrite lookup_take_ge by lia. reflexivity.
Qed.

Lemma getTextRange_run (b : LineBuffer) (r : Range) :
  lines b <> [] ->
  getTextRange r b =
  (Ok (rangeText (_lineEndings b) (lines b)
         (start (normRange (lines b) r)) (end_ (normRange (lines b) r))), b).
Proof.
  intros Hne. unfold getTextRange, bind.
  rewrite validateRange_run by assumption.
  destruct (normRange_spec (lines b) r Hne) as ([Hsl Hsc] & [Hel Hec] & Hle).
  set (s := start (normRange (lines b) r)) in *.
  set (e := end_ (normRange (lines b) r)) in *.
  unfold get at 1. unfold rangeText.
  destruct (Z.eqb_spec (line s) (line e)) as [Heq|Hneq].
  - unfold bind. rewrite lines_at_inside by lia. reflexivity.
  - unfold bind. rewrite !lines_at_inside by lia. simpl.
    rewrite middle_lines by (destruct Hle; lia).
    reflexivity.
Qed.

(** ** Insertion and deletion *)

Lemma splitLines_single (t : str) :
  length (splitLines t) = 1%nat -> splitLines t = [t].
Proof.
  induction t as [|c t IH]; simpl; [reflexivity|].
  pose proof (splitLines_nonempty t) as Hne.
  destruct (isLF c).
  { destruct (splitLines t); [congruence | discriminate]. }
  destruct (isCR c).
  { destruct t as [|d t']; [discriminate|].
    destruct (isLF d).
    - pose proof (splitLines_nonempty t'). destruct (splitLines t'); [congruence | discriminate].
    - destruct (splitLines (d :: t')); [congruence | discriminate]. }
  destruct (splitLines t) as [|l ls]; [congruence|].
  simpl. intros Hlen. destruct ls; [|discriminate].
  specialize (IH eq_refl). injection IH as ->. reflexivity.
Qed.

Lemma slice_middle (s0 : str) (rest : list str) :
  slice (s0 :: rest) 1 (-1) = removelast rest.
Proof.
  unfold slice. simpl length.
  destruct (Z.ltb_spec 1 0); [lia|]. destruct (Z.ltb_spec (-1) 0); [|lia].
  replace (Z.to_nat (Z.min 1 (Z.of_nat (S (length rest))))) with 1%nat by lia.
  replace (Z.to_nat (Z.max (Z.of_nat (S (length rest)) + -1) 0) - 1)%nat
    with (pred (length rest)) by lia.
  simpl. rewrite removelast_firstn_len. reflexivity.
Qed.

Lemma length_removelast (rest : list str) :
  rest <> [] -> length (removelast rest) = (length rest - 1)%nat.
Proof.
  intros Hne. rewrite removelast_firstn_len, length_take. lia.
Qed.

Lemma insertText_run (b : LineBuffer) (p : Position) (t : str) :
  lines b <> [] ->
  insertText p t b =
  (Ok (mkRange (clampPos (lines b) p) (insEnd (clampPos (lines b) p) (splitLines t))),
   mkLineBuffer (insLines (lines b) (clampPos (lines b) p) (splitLines t))
     (_version b + 1) (_lineEndings b)).
Proof.
  intros Hne. unfold insertText. unfold bind at 1.
  rewrite validatePosition_run by assumption.
  destruct (clampPos_inBounds (lines b) p Hne) as [Hl Hc].
  set (q := clampPos (lines b) p) in *. clearbody q.
  destruct (Z.eqb_spec (Z.of_nat (length (splitLines t))) 1) as [H1|H1].
  - assert (splitLines t = [t]) as Hs by (apply splitLines_single; lia).
    run_M.
    unfold insEnd, insLines. rewrite Hs. cbn [length last default from_option id glue].
    rewrite substring_0, substringFrom_drop by lia.
    rewrite insert_split by lia.
    f_equal. f_equal. f_equal. f_equal; [lia|]. simpl. lia.
  - pose proof (splitLines_nonempty t) as Hsne.
    destruct (splitLines t) as [|s0 rest] eqn:Hs; [congruence|].
    assert (rest <> []) as Hrest.
    { intros ->. apply H1. reflexivity. }
    run_M.
    rewrite slice_middle.
    rewrite substring_0, substringFrom_drop by lia.
    rewrite insert_split by lia.
    set (A := take (Z.to_nat (line q)) (lines b)).
    set (B := drop (S (Z.to_nat (line q))) (lines b)).
    set (before := take (Z.to_nat (column q)) (lineAt (lines b) (line q))).
    set (after := drop (Z.to_nat (column q)) (lineAt (lines b) (line q))).
    assert (length A = Z.to_nat (line q)) as HA.
    { unfold A. rewrite length_take. lia. }
    change ((s0 :: rest) !! 0%nat) with (Some s0). cbn [default from_option id].
    assert (A ++ (before ++ s0) :: B = (A ++ [before ++ s0]) ++ B) as ->
      by (rewrite <- app_assoc; reflexivity).
    rewrite (splice_insert (A ++ [before ++ s0]) B (removelast rest))
      by (rewrite length_app; simpl; lia).
    rewrite (app_assoc (A ++ [before ++ s0]) (removelast rest) B).
    rewrite (splice_insert ((A ++ [before ++ s0]) ++ removelast rest) B)
      by (rewrite !length_app, length_removelast by assumption; simpl;
          destruct rest; [congruence | simpl; lia]).
    assert (default [] ((s0 :: rest) !! (length (s0 :: rest) - 1)%nat) = default [] (last rest))
      as Hlast.
    { destruct rest as [|s1 rest']; [congruence|]. rewrite last_lookup. simpl.
      reflexivity. }
    rewrite Hlast.
    unfold insEnd, insLines.
    assert (last (s0 :: rest) = last rest) as ->
      by (destruct rest; [congruence | apply last_cons_cons]).
    destruct (Z.eqb_spec (Z.of_nat (length (s0 :: rest))) 1) as [H2|H2]; [lia|].
    f_equal. f_equal.
    fold A B before after. unfold glue. destruct rest as [|s1 rest']; [congruence|].
    rewrite <- !app_assoc. reflexivity.
Qed.

Lemma deleteText_run (b : LineBuffer) (r : Range) :
  lines b <> [] ->
  deleteText r b =
  (Ok (rangeText (_lineEndings b) (lines b)
         (start (normRange (lines b) r)) (end_ (normRange (lines b) r))),
   mkLineBuffer (delLines (lines b) (start (normRange (lines b) r)) (end_ (normRange (lines b) r)))
     (_version b + 1) (_lineEndings b)).
Proof.
  intros Hne. unfold deleteText. unfold bind at 1.
  rewrite validateRange_run by assumption.
  destruct (normRange_spec (lines b) r Hne) as (Hs & He & Hle).
  unfold bind at 1. rewrite getTextRange_run by assumption.
  destruct (normRange (lines b) r) as [s e]. cbn [start end_] in *.
  rewrite (normRange_id _ _ _ Hs He Hle). cbn [start end_].
  destruct Hs as [Hsl Hsc]. destruct He as [Hel Hec].
  unfold delLines.
  destruct (Z.eqb_spec (line s) (line e)) as [Heq|Hneq].
  - run_M.
    rewrite substring_0, substringFrom_drop by lia.
    rewrite insert_split by lia. rewrite <- Heq. reflexivity.
  - assert (line s < line e) as Hlt by (destruct Hle; lia).
    run_M.
    rewrite substring_0, substringFrom_drop by lia.
    rewrite insert_split by lia.
    rewrite <- (take_drop (Z.to_nat (line e - line s)) (drop (S (Z.to_nat (line s))) (lines b))).
    rewrite splice_delete.
    + rewrite drop_drop.
      replace (S (Z.to_nat (line s)) + Z.to_nat (line e - line s))%nat
        with (S (Z.to_nat (line e))) by lia.
      reflexivity.
    + rewrite length_take. lia.
    + rewrite length_take, length_drop. lia.
Qed.

Lemma insLines_facts (ls : list str) (q : Position) (segs : list str) :
  inBounds ls q -> segs <> [] ->
  insLines ls q segs <> [] /\
  inBounds (insLines ls q segs) q /\
  inBounds (insLines ls q segs) (insEnd q segs) /\
  posLe q (insEnd q segs) /\
  delLines (insLines ls q segs) q (insEnd q segs) = ls.
Proof.
  intros [Hl Hc] Hne. unfold len in Hc.
  pose proof (lines_split ls (line q) Hl) as Hsplit.
  unfold insLines, delLines, inBounds, posLe.
  set (A := take (Z.to_nat (line q)) ls) in *.
  set (B := drop (S (Z.to_nat (line q))) ls) in *.
  set (l := lineAt ls (line q)) in *.
  set (before := take (Z.to_nat (column q)) l).
  set (after := drop (Z.to_nat (column q)) l).
  assert (length A = Z.to_nat (line q)) as HA by (unfold A; rewrite length_take; lia).
  assert (length before = Z.to_nat (column q)) as Hb by (unfold before; rewrite length_take; lia).
  assert (before ++ after = l) as Hba by apply take_drop.
  pose proof (f_equal (@length _) Hsplit) as HL. rewrite length_app in HL. simpl in HL.
  destruct segs as [|s0 rest]; [congruence|].
  destruct rest as [|s1 rest'].
  - (* one segment *)
    unfold glue, insEnd. cbn [length last default from_option id].
    replace (line q + Z.of_nat 1 - 1) with (line q) by lia.
    cbn [line column].
    assert (lineAt (A ++ [before ++ s0 ++ after] ++ B) (line q) = before ++ s0 ++ after) as Hline
      by (apply lineAt_middle; lia).
    rewrite Hline.
    split; [destruct A; discriminate|].
    assert (Hlen : length (A ++ [before ++ s0 ++ after] ++ B) = length ls).
    { rewrite !length_app. simpl. lia. }
    unfold len. rewrite Hlen, !length_app, Hb.
    destruct (Z.eqb_spec (Z.of_nat 1) 1) as [_|Hbad]; [|simpl in Hbad; lia].
    split; [lia|]. split; [lia|]. split; [right; lia|].
    rewrite take_app_length' by lia.
    rewrite take_app_length' by lia.
    replace (Z.to_nat (Z.of_nat (length s0) + column q)) with (length (before ++ s0))
      by (rewrite length_app; lia).
    rewrite (app_assoc before s0 after), drop_app_length.
    replace (A ++ [(before ++ s0) ++ after] ++ B) with ((A ++ [(before ++ s0) ++ after]) ++ B)
      by (rewrite <- app_assoc; reflexivity).
    rewrite drop_app_length' by (rewrite length_app; simpl; lia).
    rewrite Hba. symmetry. exact Hsplit.
  - (* several segments *)
    unfold glue, insEnd.
    set (rest := s1 :: rest') in *.
    assert (rest <> []) as Hrest by discriminate.
    destruct (last_is_Some rest) as [_ Hsome]. destruct (Hsome Hrest) as [sl Hsl].
    assert (last (s0 :: rest) = Some sl) as Hsl' by (unfold rest; rewrite last_cons_cons; exact Hsl).
    rewrite Hsl, Hsl'. cbn [default from_option id line column].
    set (mid := removelast rest).
    assert (length mid = (length rest - 1)%nat) as Hmid by (apply length_removelast; assumption).
    assert (Z.of_nat (length (s0 :: rest)) = Z.of_nat (length mid) + 2) as Hn.
    { simpl length. rewrite Hmid. unfold rest. simpl length. lia. }
    rewrite Hn.
    destruct (Z.eqb_spec (Z.of_nat (length mid) + 2) 1) as [Hbad|_]; [lia|].
    set (ls1 := A ++ ([before ++ s0] ++ mid ++ [sl ++ after]) ++ B).
    assert (ls1 = A ++ (before ++ s0) :: (mid ++ [sl ++ after]) ++ B) as E1
      by (unfold ls1; rewrite <- !app_assoc; reflexivity).
    assert (ls1 = (A ++ [before ++ s0] ++ mid) ++ (sl ++ after) :: B) as E2
      by (unfold ls1; rewrite <- !app_assoc; reflexivity).
    assert (lineAt ls1 (line q) = before ++ s0) as Hfirst
      by (rewrite E1; apply lineAt_middle; lia).
    assert (lineAt ls1 (line q + (Z.of_nat (length mid) + 2) - 1) = sl ++ after) as Hlast.
    { rewrite E2. apply lineAt_middle. rewrite !length_app. simpl. lia. }
    assert (Hlen : length ls1 = (length ls + length mid + 1)%nat).
    { rewrite E1. rewrite !length_app. simpl. rewrite !length_app. simpl. lia. }
    rewrite Hfirst, Hlast. unfold len. rewrite Hlen, !length_app, Hb.
    split; [unfold ls1; destruct A; discriminate|].
    split; [lia|]. split; [lia|]. split; [left; lia|].
    rewrite Z.add_0_r.
    rewrite E1 at 1. rewrite take_app_length' by lia.
    rewrite take_app_length' by lia.
    rewrite Nat2Z.id, drop_app_length.
    rewrite E2.
    replace (S (Z.to_nat (line q + (Z.of_nat (length mid) + 2) - 1)))
      with (length ((A ++ [before ++ s0] ++ mid) ++ [sl ++ after]))
      by (rewrite !length_app; simpl; lia).
    replace ((A ++ [before ++ s0] ++ mid) ++ (sl ++ after) :: B)
      with (((A ++ [before ++ s0] ++ mid) ++ [sl ++ after]) ++ B)
      by (rewrite <- !app_assoc; reflexivity).
    rewrite drop_app_length.
    rewrite Hba. symmetry. exact Hsplit.
Qed.

(** ** Insert then delete *)

(** C3. On every buffer state, for every position and every text,
    [insertText] followed by [deleteText] of the very range [insertText]
    returned gives back the original array of lines, hence the original
    text, and the version has grown by exactly 2. *)
Theorem insert_delete_roundtrip (b : LineBuffer) (p : Position) (t : str) :
  lines b <> [] ->
  exists (r : Range) (b1 : LineBuffer) (deleted : str) (b2 : LineBuffer),
    insertText p t b = (Ok r, b1) /\
    deleteText r b1 = (Ok deleted, b2) /\
    lines b2 = lines b /\
    fst (getText b2) = fst (getText b) /\
    version b2 = version b + 2.
Proof.
  intros Hne.
  pose proof (clampPos_inBounds (lines b) p Hne) as Hq.
  destruct (insLines_facts (lines b) (clampPos (lines b) p) (splitLines t) Hq
              (splitLines_nonempty t)) as (Hne1 & Hq1 & He1 & Hle & Hdel).
  eexists _, _, _, _.
  split; [apply insertText_run; assumption|].
  split; [apply deleteText_run; exact Hne1|].
  cbn [lines _version _lineEndings version].
  rewrite (normRange_id _ _ _ Hq1 He1 Hle). cbn [start end_].
  split; [exact Hdel|].
  split; [|unfold version; cbn [_version]; lia].
  unfold getText, bind, get, ret. cbn [lines _lineEndings fst]. rewrite Hdel. reflexivity.
Qed.

Lemma insert_delete_roundtrip_witness :
  exists (r : Range) (b1 : LineBuffer) (deleted : str) (b2 : LineBuffer),
    insertText (mkPosition 1 1) (lit "X" ++ [CR; LF] ++ lit "YZ") exampleBuffer = (Ok r, b1) /\
    deleteText r b1 = (Ok deleted, b2) /\
    lines b2 = lines exampleBuffer /\
    fst (getText b2) = fst (getText exampleBuffer) /\
    version b2 = version exampleBuffer + 2.
Proof.
  apply (insert_delete_roundtrip exampleBuffer (mkPosition 1 1) (lit "X" ++ [CR; LF] ++ lit "YZ")).
  vm_compute. discriminate.
Defined.

(** ** Offsets *)

Lemma getLineLength_run (b : LineBuffer) (i : Z) :
  0 <= i < Z.of_nat (length (lines b)) ->
  getLineLength i b = (Ok (lineLen b i), b).
Proof.
  intros Hi. unfold getLineLength, getLineContent. unfold bind at 1. unfold bind at 1.
  unfold get at 1.
  destruct (Z.ltb_spec i 0); [lia|].
  destruct (Z.geb_spec i (Z.of_nat (length (lines b)))); [lia|].
  cbn [orb]. run_M. reflexivity.
Qed.

Lemma lineLen_nonneg (b : LineBuffer) (i : Z) : 0 <= lineLen b i.
Proof.
  unfold lineLen, len. destruct (i =? Z.of_nat (length (lines b)) - 1); lia.
Qed.

Lemma sumLens_nonneg (b : LineBuffer) (n : nat) : forall i, 0 <= sumLens b n i.
Proof.
  induction n as [|n IH]; intros i; simpl; [lia|].
  pose proof (lineLen_nonneg b i). pose proof (IH (i + 1)). lia.
Qed.

Lemma positionToOffset_loop_run (b : LineBuffer) (n : nat) :
  forall i acc, 0 <= i -> i + Z.of_nat n <= Z.of_nat (length (lines b)) ->
  positionToOffset_loop n i acc b = (Ok (acc + sumLens b n i), b).
Proof.
  induction n as [|n IH]; intros i acc Hi Hn.
  - simpl. unfold ret. f_equal. f_equal. lia.
  - cbn [positionToOffset_loop sumLens]. unfold bind.
    rewrite getLineLength_run by lia. rewrite IH by lia.
    f_equal. f_equal. lia.
Qed.

Lemma positionToOffset_run (b : LineBuffer) (p : Position) :
  lines b <> [] ->
  positionToOffset p b =
  (Ok (sumLens b (Z.to_nat (line (clampPos (lines b) p))) 0 + column (clampPos (lines b) p)), b).
Proof.
  intros Hne. unfold positionToOffset. unfold bind at 1.
  rewrite validatePosition_run by assumption.
  destruct (clampPos_inBounds (lines b) p Hne) as [Hl Hc].
  unfold bind. rewrite positionToOffset_loop_run by lia. reflexivity.
Qed.

Lemma offsetToPosition_loop_run (b : LineBuffer) (L c : Z) (n : nat) :
  wf b ->
  0 <= c <= len (lineAt (lines b) L) ->
  forall i cur,
  0 <= i <= L ->
  i + Z.of_nat n = Z.of_nat (length (lines b)) ->
  L < Z.of_nat (length (lines b)) ->
  offsetToPosition_loop n i cur (cur + sumLens b (Z.to_nat (L - i)) i + c) b =
  (Ok (if c <? lineLen b L then Some (mkPosition L c) else None), b).
Proof.
  intros [Hne Hsep] Hc.
  assert (1 <= len (_lineEndings b)) as Hsl.
  { destruct Hsep as [-> | [-> | ->]]; unfold len; simpl; lia. }
  induction n as [|n IH]; intros i cur Hi Hn HL; [lia|].
  cbn [offsetToPosition_loop]. unfold bind.
  rewrite getLineLength_run by lia.
  destruct (Z.eq_dec i L) as [->|Hlt].
  - replace (Z.to_nat (L - L)) with 0%nat by lia. cbn [sumLens].
    destruct (Z.gtb_spec (cur + lineLen b L) (cur + 0 + c)) as [Hgt|Hle].
    + destruct (Z.ltb_spec c (lineLen b L)); [|lia].
      unfold ret. replace (cur + 0 + c - cur) with c by lia. reflexivity.
    + destruct (Z.ltb_spec c (lineLen b L)); [lia|].
      assert (L = Z.of_nat (length (lines b)) - 1) as Hlast.
      { unfold lineLen in *. destruct (Z.eqb_spec L (Z.of_nat (length (lines b)) - 1)); lia. }
      destruct n as [|n']; [reflexivity | lia].
  - replace (Z.to_nat (L - i)) with (S (Z.to_nat (L - (i + 1)))) by lia.
    cbn [sumLens].
    pose proof (sumLens_nonneg b (Z.to_nat (L - (i + 1))) (i + 1)).
    destruct (Z.gtb_spec (cur + lineLen b i)
                (cur + (lineLen b i + sumLens b (Z.to_nat (L - (i + 1))) (i + 1)) + c)); [lia|].
    replace (cur + (lineLen b i + sumLens b (Z.to_nat (L - (i + 1))) (i + 1)) + c)
      with ((cur + lineLen b i) + sumLens b (Z.to_nat (L - (i + 1))) (i + 1) + c) by lia.
    apply IH; lia.
Qed.

Lemma offsetToPosition_of_position (b : LineBuffer) (q : Position) :
  wf b -> inBounds (lines b) q ->
  offsetToPosition (sumLens b (Z.to_nat (line q)) 0 + column q) b = (Ok q, b).
Proof.
  intros Hwf [Hl Hc]. pose proof Hwf as [Hne Hsep]. unfold offsetToPosition.
  unfold bind at 1. unfold get at 1. unfold bind at 1.
  assert (offsetToPosition_loop (length (lines b)) 0 0
            (sumLens b (Z.to_nat (line q)) 0 + column q) b
          = (Ok (if column q <? lineLen b (line q) then Some (mkPosition (line q) (column q))
                 else None), b)) as Hloop.
  { pose proof (offsetToPosition_loop_run b (line q) (column q) (length (lines b)) Hwf Hc 0 0
                  ltac:(lia) ltac:(lia) ltac:(lia)) as Hrun.
    rewrite Z.sub_0_r in Hrun. exact Hrun. }
  rewrite Hloop.
  destruct (Z.ltb_spec (column q) (lineLen b (line q))) as [Hlt|Hge].
  - unfold ret. destruct q; reflexivity.
  - assert (line q = Z.of_nat (length (lines b)) - 1 /\ column q = len (lineAt (lines b) (line q)))
      as [Hlast Hcol].
    { unfold lineLen in Hge.
      assert (1 <= len (_lineEndings b))
        by (destruct Hsep as [-> | [-> | ->]]; unfold len; simpl; lia).
      destruct (Z.eqb_spec (line q) (Z.of_nat (length (lines b)) - 1)); lia. }
    run_M. rewrite <- Hlast, <- Hcol. destruct q; reflexivity.
Qed.

Lemma len_app (x y : str) : len (x ++ y) = len x + len y.
Proof. unfold len. rewrite length_app. lia. Qed.

Lemma len_join_snoc (sep : str) (xs : list str) (y : str) :
  len (join sep (xs ++ [y])) = lensWithSep sep xs + len y.
Proof.
  induction xs as [|x xs IH]; [simpl; lia|].
  change ((x :: xs) ++ [y]) with (x :: (xs ++ [y])).
  cbn [join lensWithSep fold_right].
  destruct (xs ++ [y]) as [|z zs] eqn:E; [destruct xs; discriminate|].
  rewrite !len_app, IH. unfold lensWithSep. lia.
Qed.

Lemma sumLens_take (b : LineBuffer) (n : nat) :
  forall i, 0 <= i -> i + Z.of_nat n <= Z.of_nat (length (lines b)) - 1 ->
  sumLens b n i = lensWithSep (_lineEndings b) (take n (drop (Z.to_nat i) (lines b))).
Proof.
  induction n as [|n IH]; intros i Hi Hn; [reflexivity|].
  cbn [sumLens]. rewrite IH by lia.
  destruct (lookup_lt_is_Some_2 (lines b) (Z.to_nat i)) as [x Hx]; [lia|].
  rewrite (drop_S _ _ _ Hx). cbn [take lensWithSep fold_right].
  unfold lineLen. rewrite (lineAt_lookup _ _ _ Hi Hx).
  destruct (Z.eqb_spec i (Z.of_nat (length (lines b)) - 1)); [lia|].
  replace (Z.to_nat (i + 1)) with (S (Z.to_nat i)) by lia.
  unfold lensWithSep. lia.
Qed.

Lemma len_text_before (b : LineBuffer) (q : Position) :
  lines b <> [] -> inBounds (lines b) q ->
  len (rangeText (_lineEndings b) (lines b) (mkPosition 0 0) q)
  = sumLens b (Z.to_nat (line q)) 0 + column q.
Proof.
  intros Hne [Hl Hc]. unfold rangeText. cbn [line column].
  destruct (Z.eqb_spec 0 (line q)) as [H0|H0].
  - rewrite <- H0. simpl sumLens. rewrite <- H0 in Hc.
    rewrite substring_0 by lia. unfold len in *. rewrite length_take. lia.
  - rewrite substringFrom_drop, substring_0 by lia. rewrite drop_0.
    rewrite sumLens_take by lia. rewrite drop_0.
    assert ([lineAt (lines b) 0] ++ take (Z.to_nat (line q - 0 - 1)) (drop (Z.to_nat (0 + 1)) (lines b))
            = take (Z.to_nat (line q)) (lines b)) as Htake.
    { destruct (lines b) as [|l0 ls] eqn:E; [congruence|].
      replace (Z.to_nat (line q)) with (S (Z.to_nat (line q - 0 - 1))) by lia.
      reflexivity. }
    rewrite app_assoc, Htake, len_join_snoc.
    unfold len in *. rewrite length_take. lia.
Qed.

(** C4. On every buffer state and for every position [p],
    [offsetToPosition (positionToOffset p)] is [validatePosition p]; an
    in-bounds position therefore comes back unchanged. The offset is the
    number of characters of the text that precedes the position, line
    endings included: the length of the text from the start of the document
    to the position. *)
Theorem offset_roundtrip (b : LineBuffer) (p : Position) :
  wf b ->
  exists (off : Z) (q : Position) (text : str),
    positionToOffset p b = (Ok off, b) /\
    validatePosition p b = (Ok q, b) /\
    offsetToPosition off b = (Ok q, b) /\
    (inBounds (lines b) p -> q = p) /\
    getTextRange (mkRange (mkPosition 0 0) p) b = (Ok text, b) /\
    off = len text.
Proof.
  intros Hwf. pose proof Hwf as [Hne Hsep].
  pose proof (clampPos_inBounds (lines b) p Hne) as Hq.
  eexists _, (clampPos (lines b) p), _.
  split; [apply positionToOffset_run; assumption|].
  split; [apply validatePosition_run; assumption|].
  split; [apply offsetToPosition_of_position; assumption|].
  split; [intros Hin; apply clampPos_id; assumption|].
  split; [apply getTextRange_run; assumption|].
  assert (inBounds (lines b) (mkPosition 0 0)) as H0.
  { unfold inBounds, len. simpl. destruct (lines b); [congruence | simpl; lia]. }
  assert (normRange (lines b) (mkRange (mkPosition 0 0) p)
          = mkRange (mkPosition 0 0) (clampPos (lines b) p)) as ->.
  { unfold normRange. cbn [start end_]. rewrite (clampPos_id _ _ H0).
    destruct Hq as [Hl Hc]. cbn [line column].
    destruct (Z.gtb_spec 0 (line (clampPos (lines b) p))); [lia|].
    destruct (Z.gtb_spec 0 (column (clampPos (lines b) p))); [lia|].
    rewrite andb_false_r. reflexivity. }
  cbn [start end_]. symmetry. apply len_text_before; assumption.
Qed.

Lemma offset_roundtrip_witness :
  exists (off : Z) (q : Position) (text : str),
    positionToOffset (mkPosition 2 1) exampleBuffer = (Ok off, exampleBuffer) /\
    validatePosition (mkPosition 2 1) exampleBuffer = (Ok q, exampleBuffer) /\
    offsetToPosition off exampleBuffer = (Ok q, exampleBuffer) /\
    (inBounds (lines exampleBuffer) (mkPosition 2 1) -> q = mkPosition 2 1) /\
    getTextRange (mkRange (mkPosition 0 0) (mkPosition 2 1)) exampleBuffer
    = (Ok text, exampleBuffer) /\
    off = len text.
Proof.
  apply (offset_roundtrip exampleBuffer (mkPosition 2 1)).
  split; [vm_compute; discriminate | right; right; reflexivity].
Defined.

(** ** Searching *)

Section FindFacts.

Variable RegExp_new : str -> str -> option RegExp.

(** C9. With [regex: true] and a pattern text the [RegExp] constructor
    rejects, [findNext] returns [null] from any start position and [findAll]
    returns the empty list; neither raises an error and the buffer (lines,
    version, line ending) is the one before the call. *)
Theorem invalid_regex_is_no_match (searchText : str) (startPosition : Position)
  (options : FindOptions) (b : LineBuffer) (fuel : nat) :
  regex options = Some true ->
  RegExp_new searchText (if default false (caseSensitive options) then lit "g" else lit "gi")
  = None ->
  findNext RegExp_new searchText startPosition options b = (Ok None, b) /\
  findAll RegExp_new (S fuel) searchText options b = (Ok [], b).
Proof.
  intros Hregex Hbad.
  assert (compilePattern RegExp_new searchText options = None) as Hc.
  { unfold compilePattern. rewrite Hregex. simpl. exact Hbad. }
  assert (forall q, findNext RegExp_new searchText q options b = (Ok None, b)) as Hnext.
  { intros q. unfold findNext. rewrite Hc. reflexivity. }
  split; [apply Hnext|].
  unfold findAll. cbn [findAll_loop]. unfold bind. rewrite Hnext. reflexivity.
Qed.

Lemma findNext_zero_length (searchText : str) (options : FindOptions) (r : RegExp)
  (b : LineBuffer) (q : Position) (off : Z) (text : str) :
  wf b -> inBounds (lines b) q ->
  compilePattern RegExp_new searchText options = Some r ->
  positionToOffset q b = (Ok off, b) ->
  getText b = (Ok text, b) ->
  snd (exec (set_lastIndex off r) text) = Some (off, 0) ->
  findNext RegExp_new searchText q options b = (Ok (Some (mkRange q q)), b).
Proof.
  intros Hwf Hq Hc Hoff Htext Hexec. pose proof Hwf as [Hne _].
  unfold findNext. rewrite Hc. unfold bind at 1. rewrite Hoff.
  unfold bind at 1. rewrite Htext. rewrite Hexec.
  rewrite positionToOffset_run in Hoff by assumption.
  rewrite (clampPos_id _ _ Hq) in Hoff. injection Hoff as <-.
  unfold bind. rewrite Z.add_0_r.
  rewrite !offsetToPosition_of_position by assumption. reflexivity.
Qed.

Lemma findAll_loop_stuck (searchText : str) (options : FindOptions) (b : LineBuffer)
  (q : Position) :
  findNext RegExp_new searchText q options b = (Ok (Some (mkRange q q)), b) ->
  forall fuel ranges,
  findAll_loop RegExp_new fuel searchText options ranges q b = (OutOfFuel, b).
Proof.
  intros Hnext fuel. induction fuel as [|fuel IH]; intros ranges; [reflexivity|].
  cbn [findAll_loop]. unfold bind. rewrite Hnext. cbn [end_]. apply IH.
Qed.

(** C2, as the code has it. When the pattern built from the search text
    matches the empty string at the start of the text, the first [findNext]
    of [findAll] returns a range that ends where the search started, the
    next iteration starts from the same position, and [findAll] does not
    return: whatever the fuel, the loop is still running when it is spent. *)
Theorem findAll_empty_match_never_returns (searchText : str) (options : FindOptions)
  (r : RegExp) (b : LineBuffer) (text : str) :
  wf b ->
  compilePattern RegExp_new searchText options = Some r ->
  getText b = (Ok text, b) ->
  snd (exec (set_lastIndex 0 r) text) = Some (0, 0) ->
  findNext RegExp_new searchText (mkPosition 0 0) options b
  = (Ok (Some (mkRange (mkPosition 0 0) (mkPosition 0 0))), b) /\
  forall fuel, findAll RegExp_new fuel searchText options b = (OutOfFuel, b).
Proof.
  intros Hwf Hc Htext Hexec. pose proof Hwf as [Hne _].
  assert (inBounds (lines b) (mkPosition 0 0)) as H0.
  { unfold inBounds, len. simpl. destruct (lines b); [congruence | simpl; lia]. }
  assert (findNext RegExp_new searchText (mkPosition 0 0) options b
          = (Ok (Some (mkRange (mkPosition 0 0) (mkPosition 0 0))), b)) as Hnext.
  { apply (findNext_zero_length searchText options r b (mkPosition 0 0) 0 text); try assumption.
    rewrite positionToOffset_run by assumption. rewrite (clampPos_id _ _ H0). reflexivity. }
  split; [exact Hnext|].
  intros fuel. unfold findAll. apply findAll_loop_stuck. exact Hnext.
Qed.

End FindFacts.

Lemma invalid_regex_is_no_match_witness :
  findNext literal_RegExp_new (lit "(") (mkPosition 1 1)
    (mkFindOptions None None (Some true)) exampleBuffer = (Ok None, exampleBuffer) /\
  findAll literal_RegExp_new 1 (lit "(")
    (mkFindOptions None None (Some true)) exampleBuffer = (Ok [], exampleBuffer).
Proof.
  apply (invalid_regex_is_no_match literal_RegExp_new (lit "(") (mkPosition 1 1)
           (mkFindOptions None None (Some true)) exampleBuffer 0); reflexivity.
Defined.

(** [new LineBuffer("abc").findAll("")]. *)
Lemma findAll_empty_match_never_returns_witness :
  findNext literal_RegExp_new [] (mkPosition 0 0) noOptions (bufferOf (lit "abc"))
  = (Ok (Some (mkRange (mkPosition 0 0) (mkPosition 0 0))), bufferOf (lit "abc")) /\
  forall fuel, findAll literal_RegExp_new fuel [] noOptions (bufferOf (lit "abc"))
               = (OutOfFuel, bufferOf (lit "abc")).
Proof.
  apply (findAll_empty_match_never_returns literal_RegExp_new [] noOptions
           (mkRegExp (literalMatcher true []) true 0) (bufferOf (lit "abc")) (lit "abc")).
  - split; [vm_compute; discriminate | right; right; reflexivity].
  - reflexivity.
  - reflexivity.
  - reflexivity.
Defined.

(** A match that is not empty can stall the loop as well: in a buffer with
    CR LF line endings a match that ends between the CR and the LF gets an
    end column past the end of its line, which the next [findNext] clamps
    back to the start of the same match. [new LineBuffer("a\r\nb").findAll("\r")]. *)
Lemma findAll_inside_line_ending_never_returns :
  forall fuel,
    findAll literal_RegExp_new fuel [CR] noOptions (bufferOf (lit "a" ++ [CR; LF] ++ lit "b"))
    = (OutOfFuel, bufferOf (lit "a" ++ [CR; LF] ++ lit "b")).
Proof.
  assert (forall fuel ranges,
            findAll_loop literal_RegExp_new fuel [CR] noOptions ranges (mkPosition 0 2)
              (bufferOf (lit "a" ++ [CR; LF] ++ lit "b"))
            = (OutOfFuel, bufferOf (lit "a" ++ [CR; LF] ++ lit "b"))) as Hstuck.
  { induction fuel as [|fuel IH]; intros ranges; [reflexivity|].
    cbn [findAll_loop]. unfold bind.
    replace (findNext literal_RegExp_new [CR] (mkPosition 0 2) noOptions
               (bufferOf (lit "a" ++ [CR; LF] ++ lit "b")))
      with (Ok (Some (mkRange (mkPosition 0 1) (mkPosition 0 2))),
            bufferOf (lit "a" ++ [CR; LF] ++ lit "b"))
      by (vm_compute; reflexivity).
    apply IH. }
  intros [|fuel]; [reflexivity|].
  unfold findAll. cbn [findAll_loop]. unfold bind.
  replace (findNext literal_RegExp_new [CR] (mkPosition 0 0) noOptions
             (bufferOf (lit "a" ++ [CR; LF] ++ lit "b")))
    with (Ok (Some (mkRange (mkPosition 0 1) (mkPosition 0 2))),
          bufferOf (lit "a" ++ [CR; LF] ++ lit "b"))
    by (vm_compute; reflexivity).
  apply Hstuck.
Qed.

(** ** The word at a position *)

Lemma wordRun_spec (s : str) :
  (wordRun s <= length s)%nat /\
  (forall i c, (i < wordRun s)%nat -> s !! i = Some c -> isWordChar c = true) /\
  (forall c, s !! wordRun s = Some c -> isWordChar c = false).
Proof.
  induction s as [|c s (IH1 & IH2 & IH3)]; simpl.
  - split; [lia|]. split; [intros; lia | intros c; discriminate].
  - destruct (isWordChar c) eqn:Ec.
    + split; [lia|]. split.
      * intros [|i] d Hi Hd; simpl in Hd; [congruence|]. apply (IH2 i); [lia | assumption].
      * intros d Hd. simpl in Hd. apply IH3. assumption.
    + split; [lia|]. split; [intros; lia|].
      intros d Hd. simpl in Hd. congruence.
Qed.

Lemma findWord_spec (s : str) :
  forall k,
  match findWord s k with
  | Some (a, n) =>
    exists j, a = (k + j)%nat /\ (j < length s)%nat /\
      (forall i c, (i < j)%nat -> s !! i = Some c -> isWordChar c = false) /\
      n = wordRun (drop j s) /\ (1 <= n)%nat
  | None => forall i c, s !! i = Some c -> isWordChar c = false
  end.
Proof.
  induction s as [|c s IH]; intros k; simpl.
  - intros i d; discriminate.
  - destruct (isWordChar c) eqn:Ec.
    + exists 0%nat. split; [lia|]. split; [simpl; lia|]. split; [intros; lia|].
      simpl. rewrite Ec. split; [reflexivity | lia].
    + specialize (IH (S k)). destruct (findWord s (S k)) as [[a n]|].
      * destruct IH as (j & -> & Hj & Hskip & Hn & H1).
        exists (S j). split; [lia|]. split; [simpl; lia|]. split; [|split; assumption].
        intros [|i] d Hi Hd; simpl in Hd; [congruence|]. apply (Hskip i); [lia | assumption].
      * intros [|i] d Hd; simpl in Hd; [congruence|]. apply (IH i). assumption.
Qed.

Lemma isWordAt_false_outside (l : str) (k : Z) : len l <= k -> isWordAt l k = false.
Proof.
  unfold isWordAt, len. intros Hk. destruct (k <? 0); [reflexivity|].
  rewrite lookup_ge_None_2 by lia. reflexivity.
Qed.

Lemma word_matcher_Some (l : str) (i a n : Z) :
  0 <= i -> word_matcher l i = Some (a, n) ->
  i <= a /\ 1 <= n /\ a + n <= len l /\
  (forall k, i <= k < a -> isWordAt l k = false) /\
  (forall k, a <= k < a + n -> isWordAt l k = true) /\
  isWordAt l (a + n) = false.
Proof.
  intros Hi. unfold word_matcher.
  pose proof (findWord_spec (drop (Z.to_nat i) l) 0) as Hspec.
  destruct (findWord (drop (Z.to_nat i) l) 0) as [[a0 n0]|]; [|discriminate].
  intros Heq. injection Heq as <- <-.
  destruct Hspec as (j & -> & Hj & Hskip & -> & H1). simpl.
  rewrite length_drop in Hj.
  destruct (wordRun_spec (drop j (drop (Z.to_nat i) l))) as (Hlen & Hword & Hstop).
  rewrite !length_drop in Hlen.
  set (n := wordRun (drop j (drop (Z.to_nat i) l))) in *.
  split; [lia|]. split; [lia|]. split; [unfold len; lia|].
  split; [|split].
  - intros k Hk. unfold isWordAt. destruct (Z.ltb_spec k 0); [reflexivity|].
    destruct (l !! Z.to_nat k) as [c|] eqn:Ec; [|reflexivity].
    apply (Hskip (Z.to_nat k - Z.to_nat i)%nat); [lia|].
    rewrite lookup_drop. rewrite <- Ec. f_equal. lia.
  - intros k Hk. unfold isWordAt. destruct (Z.ltb_spec k 0); [lia|].
    destruct (lookup_lt_is_Some_2 l (Z.to_nat k)) as [c Hc]; [lia|]. rewrite Hc.
    apply (Hword (Z.to_nat k - Z.to_nat i - j)%nat); [lia|].
    rewrite !lookup_drop. rewrite <- Hc. f_equal. lia.
  - unfold isWordAt. destruct (Z.ltb_spec (i + Z.of_nat j + Z.of_nat n) 0); [reflexivity|].
    destruct (l !! Z.to_nat (i + Z.of_nat j + Z.of_nat n)) as [c|] eqn:Ec; [|reflexivity].
    apply Hstop. rewrite !lookup_drop. rewrite <- Ec. f_equal. lia.
Qed.

Lemma word_matcher_None (l : str) (i : Z) :
  0 <= i -> word_matcher l i = None -> forall k, i <= k -> isWordAt l k = false.
Proof.
  intros Hi. unfold word_matcher.
  pose proof (findWord_spec (drop (Z.to_nat i) l) 0) as Hspec.
  destruct (findWord (drop (Z.to_nat i) l) 0) as [[a0 n0]|]; [discriminate|].
  intros _ k Hk. unfold isWordAt. destruct (Z.ltb_spec k 0); [reflexivity|].
  destruct (l !! Z.to_nat k) as [c|] eqn:Ec; [|reflexivity].
  apply (Hspec (Z.to_nat k - Z.to_nat i)%nat).
  rewrite lookup_drop. rewrite <- Ec. f_equal. lia.
Qed.

(** Two matches that both touch a column are the same match. *)
Lemma wordSpan_unique (l : str) (col a e a' e' : Z) :
  wordSpan l a e -> wordSpan l a' e' ->
  a <= col <= e -> a' <= col <= e' -> a = a' /\ e = e'.
Proof.
  intros (Ha & He & Hw & Hl & Hr) (Ha' & He' & Hw' & Hl' & Hr') Hc Hc'.
  assert (a = a') as <-.
  { destruct (Z.lt_trichotomy a a') as [Hlt | [Heq | Hgt]]; [|assumption|].
    - destruct Hl' as [H0 | Hnw]; [lia|].
      destruct (Z.lt_ge_cases (a' - 1) e) as [Hin | Hout]; [|lia].
      rewrite Hw in Hnw by lia. discriminate.
    - destruct Hl as [H0 | Hnw]; [lia|].
      destruct (Z.lt_ge_cases (a - 1) e') as [Hin | Hout]; [|lia].
      rewrite Hw' in Hnw by lia. discriminate. }
  split; [reflexivity|].
  destruct (Z.lt_trichotomy e e') as [Hlt | [Heq | Hgt]]; [|assumption|].
  - rewrite Hw' in Hr by lia. discriminate.
  - rewrite Hw in Hr' by lia. discriminate.
Qed.

Lemma exec_defaultWordPattern (l : str) (i : Z) :
  0 <= i <= len l ->
  exec (set_lastIndex i defaultWordPattern) l =
  match word_matcher l i with
  | None => (set_lastIndex 0 defaultWordPattern, None)
  | Some (a, n) => (set_lastIndex (a + n) defaultWordPattern, Some (a, n))
  end.
Proof.
  intros Hi. unfold exec. cbn [global lastIndex matcher set_lastIndex defaultWordPattern].
  rewrite Z.max_r by lia.
  destruct (Z.gtb_spec i (len l)); [lia|].
  destruct (word_matcher l i) as [[a n]|]; reflexivity.
Qed.

Lemma wordRange_loop_default (l : str) (q : Position) :
  forall (fuel : nat) (i : Z),
  0 <= i <= len l ->
  i = 0 \/ isWordAt l i = false ->
  len l - i < Z.of_nat fuel ->
  exists res,
    wordRange_loop fuel (set_lastIndex i defaultWordPattern) l q = Ok res /\
    match res with
    | Some r => exists a e, r = rangeOnLine (line q) a e /\ wordSpan l a e /\ a <= column q <= e
    | None => forall a e, wordSpan l a e -> i <= a -> ~ (a <= column q <= e)
    end.
Proof.
  induction fuel as [|fuel IH]; intros i Hi Hinv Hfuel; [lia|].
  cbn [wordRange_loop]. rewrite exec_defaultWordPattern by assumption.
  destruct (word_matcher l i) as [[a n]|] eqn:Hm.
  - destruct (word_matcher_Some l i a n ltac:(lia) Hm) as (Hia & Hn & Hlen & Hskip & Hword & Hstop).
    assert (wordSpan l a (a + n)) as Hspan.
    { unfold wordSpan. repeat split; try lia; try assumption.
      destruct (Z.eq_dec a i) as [->|Hne].
      - destruct Hinv as [-> | Hnw]; [left; reflexivity|].
        rewrite Hword in Hnw by lia. discriminate.
      - right. apply Hskip. lia. }
    destruct ((column q >=? a) && (column q <=? a + n)) eqn:Hin.
    + eexists. split; [reflexivity|]. exists a, (a + n).
      apply andb_true_iff in Hin. destruct Hin as [H1 H2].
      split; [reflexivity|]. split; [assumption|]. lia.
    + destruct (IH (a + n)) as (res & Hres & Hprop); [lia | right; assumption | lia |].
      exists res. split; [exact Hres|].
      destruct res as [r|]; [exact Hprop|].
      intros a' e' Hspan' Hia' Hc'.
      pose proof Hspan' as (Ha' & He' & Hw' & Hl' & Hr').
      assert (a <= a') as Haa'.
      { destruct (Z.lt_ge_cases a' a) as [Hlt|]; [|assumption].
        pose proof (Hw' a' ltac:(lia)) as Hwa. rewrite Hskip in Hwa by lia. discriminate. }
      destruct (Z.lt_ge_cases a' (a + n)) as [Hlt | Hge].
      * destruct (Z.eq_dec a' a) as [->|Hne].
        -- destruct (wordSpan_unique l a a (a + n) a e' Hspan Hspan' ltac:(lia) ltac:(lia))
             as [_ <-].
           apply andb_false_iff in Hin. destruct Hin as [Hin|Hin]; lia.
        -- destruct Hl' as [H0 | Hnw]; [lia|].
           rewrite Hword in Hnw by lia. discriminate.
      * apply (Hprop a' e'); assumption.
  - eexists. split; [reflexivity|].
    intros a e (Ha & He & Hw & _) Hia _.
    pose proof (Hw a ltac:(lia)) as Hwa.
    rewrite (word_matcher_None l i ltac:(lia) Hm a Hia) in Hwa. discriminate.
Qed.

(** C8, amended. With the default word pattern, [getWordRangeAtPosition(p)]
    works on the clamped position [q]. When the column of [q] is below the
    length of its line, it returns the match of the word pattern on that
    line whose span contains the column, both ends included (a match that
    ends at the column qualifies as long as the column is below the line
    length); that match is the first one and in fact the only one. It
    returns [null] exactly when no match contains the column or the column
    is at or past the end of the line content, that is, not below the line
    length: the guard [validPosition.column >= line.length] also turns away
    the column just after a word that ends the line. *)
Theorem wordRange_containment (b : LineBuffer) (p : Position) (fuel : nat) :
  lines b <> [] ->
  (length (lineAt (lines b) (line (clampPos (lines b) p))) < fuel)%nat ->
  exists res,
    getWordRangeAtPosition fuel p None b = (Ok res, b) /\
    (forall a e,
        res = Some (rangeOnLine (line (clampPos (lines b) p)) a e) <->
        column (clampPos (lines b) p) < len (lineAt (lines b) (line (clampPos (lines b) p))) /\
        wordSpan (lineAt (lines b) (line (clampPos (lines b) p))) a e /\
        a <= column (clampPos (lines b) p) <= e) /\
    (forall r, res = Some r ->
        exists a e, r = rangeOnLine (line (clampPos (lines b) p)) a e /\
          forall a' e',
            wordSpan (lineAt (lines b) (line (clampPos (lines b) p))) a' e' ->
            a' <= column (clampPos (lines b) p) <= e' -> a <= a') /\
    (res = None <->
       len (lineAt (lines b) (line (clampPos (lines b) p))) <= column (clampPos (lines b) p) \/
       forall a e, wordSpan (lineAt (lines b) (line (clampPos (lines b) p))) a e ->
                   ~ (a <= column (clampPos (lines b) p) <= e)).
Proof.
  intros Hne Hfuel.
  destruct (clampPos_inBounds (lines b) p Hne) as [Hl Hc].
  set (q := clampPos (lines b) p) in *.
  set (l := lineAt (lines b) (line q)) in *.
  unfold getWordRangeAtPosition. unfold bind at 1.
  rewrite validatePosition_run by assumption. fold q.
  unfold bind, get. rewrite lines_at_inside by lia. fold l.
  destruct ((len l =? 0) || (column q >=? len l)) eqn:Hguard.
  - assert (len l <= column q) as Hpast.
    { apply orb_true_iff in Hguard. destruct Hguard as [H0 | Hge]; lia. }
    exists None. split; [reflexivity|]. split; [|split].
    + intros a e. split; [discriminate | intros (Hlt & _); lia].
    + intros r; discriminate.
    + split; [intros _; left; assumption | reflexivity].
  - apply orb_false_iff in Hguard. destruct Hguard as [Hn0 Hlt].
    assert (column q < len l) as Hinside by lia.
    cbn [default from_option id].
    destruct (wordRange_loop_default l q fuel 0) as (res & Hres & Hprop);
      [unfold len; lia | left; reflexivity | unfold len; lia |].
    change (set_lastIndex 0 defaultWordPattern) with defaultWordPattern in Hres.
    rewrite Hres. exists res. split; [reflexivity|].
    destruct res as [r|].
    + destruct Hprop as (a0 & e0 & -> & Hspan0 & Hc0).
      split; [|split].
      * intros a e. split.
        -- intros Heq. injection Heq as <- <-. auto.
        -- intros (_ & Hspan & Hce).
           destruct (wordSpan_unique l (column q) a0 e0 a e Hspan0 Hspan Hc0 Hce) as [-> ->].
           reflexivity.
      * intros r Heq. injection Heq as <-. exists a0, e0. split; [reflexivity|].
        intros a' e' Hspan' Hc'.
        destruct (wordSpan_unique l (column q) a0 e0 a' e' Hspan0 Hspan' Hc0 Hc') as [-> _].
        lia.
      * split; [discriminate|].
        intros [Hpast | Hnone]; [lia|]. exfalso. apply (Hnone a0 e0); assumption.
    + split; [|split].
      * intros a e. split; [discriminate|].
        intros (_ & Hspan & Hce). exfalso.
        apply (Hprop a e Hspan); [destruct Hspan; lia | assumption].
      * intros r; discriminate.
      * split; [|reflexivity]. intros _. right. intros a e Hspan.
        apply Hprop; [assumption | destruct Hspan; lia].
Qed.

Lemma wordRange_containment_witness :
  exists res,
    getWordRangeAtPosition 6 (mkPosition 0 2) None (bufferOf (lit "ab cd")) =
    (Ok res, bufferOf (lit "ab cd")) /\
    (forall a e,
        res = Some (rangeOnLine 0 a e) <->
        2 < 5 /\ wordSpan (lit "ab cd") a e /\ a <= 2 <= e) /\
    (forall r, res = Some r ->
        exists a e, r = rangeOnLine 0 a e /\
          forall a' e', wordSpan (lit "ab cd") a' e' -> a' <= 2 <= e' -> a <= a') /\
    (res = None <->
       5 <= 2 \/ forall a e, wordSpan (lit "ab cd") a e -> ~ (a <= 2 <= e)).
Proof.
  apply (wordRange_containment (bufferOf (lit "ab cd")) (mkPosition 0 2) 6).
  - vm_compute. discriminate.
  - vm_compute. lia.
Defined.

(** C8 as the specification words it fails at the end of a line. On the
    line [ab cd] the match [cd] spans the columns 3 to 5 and so contains
    column 5, both ends included, and column 5 is the end of the line
    content, not past it; yet [getWordRangeAtPosition] returns [null] at
    (0,5). *)
Lemma wordRange_containment_counterexample :
  clampPos (lines (bufferOf (lit "ab cd"))) (mkPosition 0 5) = mkPosition 0 5 /\
  wordSpan (lit "ab cd") 3 5 /\
  3 <= 5 <= 5 /\
  ~ (len (lit "ab cd") < 5) /\
  getWordRangeAtPosition 6 (mkPosition 0 5) None (bufferOf (lit "ab cd")) =
  (Ok None, bufferOf (lit "ab cd")).
Proof.
  split; [reflexivity|]. split.
  - unfold wordSpan. split; [lia|]. split; [vm_compute; discriminate|].
    split; [|split; [right|]; reflexivity].
    intros i Hi. assert (i = 3 \/ i = 4) as [-> | ->] by lia; reflexivity.
  - split; [lia|]. split; [vm_compute; discriminate | reflexivity].
Qed.

(** ** Command history on examples *)

Lemma execute_clears_redo_witness :
  redoStack (fst (snd (CommandHistory_execute 0%nat (historyWithRedo, reversedWorld)))) = [] /\
  canRedo (fst (snd (CommandHistory_execute 0%nat (historyWithRedo, reversedWorld)))) = false /\
  redoStackSize (fst (snd (CommandHistory_execute 0%nat (historyWithRedo, reversedWorld)))) = 0.
Proof.
  apply (execute_clears_redo 0%nat historyWithRedo
           (fst (snd (CommandHistory_execute 0%nat (historyWithRedo, reversedWorld))))
           reversedWorld
           (snd (snd (CommandHistory_execute 0%nat (historyWithRedo, reversedWorld))))).
  vm_compute. reflexivity.
Defined.

Lemma stack_bound_oldest_evicted_witness :
  undoStackSize (fst (snd (executeAll [0%nat; 1%nat; 2%nat]
                             (CommandHistory_new 2, threeCommandsWorld)))) = 2 /\
  undoStack (fst (snd (executeAll [0%nat; 1%nat; 2%nat]
                         (CommandHistory_new 2, threeCommandsWorld)))) = [1%nat; 2%nat] /\
  [] ++ [0%nat; 1%nat; 2%nat] =
  ([] ++ [0%nat]) ++ undoStack (fst (snd (executeAll [0%nat; 1%nat; 2%nat]
                                            (CommandHistory_new 2, threeCommandsWorld)))).
Proof.
  apply (stack_bound_oldest_evicted (CommandHistory_new 2)
           (fst (snd (executeAll [0%nat; 1%nat; 2%nat]
                        (CommandHistory_new 2, threeCommandsWorld))))
           1 [0%nat; 1%nat; 2%nat] threeCommandsWorld
           (snd (snd (executeAll [0%nat; 1%nat; 2%nat]
                        (CommandHistory_new 2, threeCommandsWorld))))).
  - simpl. lia.
  - simpl. lia.
  - reflexivity.
  - vm_compute. reflexivity.
Defined.

(** C1, as the code has it. One command whose range is written backwards
    (start after end) on the buffer ["abcdef"]: [execute] leaves ["aefX"],
    [undo] leaves ["aefbcd"] instead of the original text, and [redo] leaves
    ["acdX"], which is not the text the execution had produced. *)
Theorem undo_redo_reversed_range_differs :
  let s0 := (CommandHistory_new 1000, reversedWorld) in
  let s1 := snd (CommandHistory_execute 0%nat s0) in
  let s2 := snd (CommandHistory_undo s1) in
  let s3 := snd (CommandHistory_redo s2) in
  fst (CommandHistory_execute 0%nat s0) = Ok tt /\
  fst (CommandHistory_undo s1) = Ok true /\
  fst (CommandHistory_redo s2) = Ok true /\
  textOf s0 = Ok (lit "abcdef") /\
  textOf s1 = Ok (lit "aefX") /\
  textOf s2 = Ok (lit "aefbcd") /\
  textOf s3 = Ok (lit "acdX") /\
  textOf s3 <> textOf s1.
Proof.
  vm_compute. repeat split. discriminate.
Qed.

(** ** The invariant is kept by the mutators *)

Lemma delLines_nonempty (ls : list str) (s e : Position) : delLines ls s e <> [].
Proof. unfold delLines. destruct (take (Z.to_nat (line s)) ls); discriminate. Qed.

Lemma replaceText_run (b : LineBuffer) (r : Range) (t : str) :
  lines b <> [] ->
  replaceText r t b =
  (Ok (replaceRange (lines b) r t),
   mkLineBuffer (replaceLines (lines b) r t) (_version b + 2) (_lineEndings b)).
Proof.
  intros Hne. unfold replaceText, bind. rewrite deleteText_run by assumption.
  rewrite insertText_run by (cbn [lines]; apply delLines_nonempty).
  cbn [lines _version _lineEndings]. unfold replaceRange, replaceLines.
  do 2 f_equal. lia.
Qed.

Lemma replaceLines_nonempty (ls : list str) (r : Range) (t : str) :
  replaceLines ls r t <> [].
Proof.
  unfold replaceLines.
  destruct (insLines_facts (delLines ls (start (normRange ls r)) (end_ (normRange ls r)))
              (clampPos (delLines ls (start (normRange ls r)) (end_ (normRange ls r))) (start r))
              (splitLines t)) as [H _].
  - apply clampPos_inBounds, delLines_nonempty.
  - apply splitLines_nonempty.
  - exact H.
Qed.

Lemma insertText_wf (b : LineBuffer) (p : Position) (t : str) :
  wf b -> wf (snd (insertText p t b)).
Proof.
  intros [Hne Hsep]. rewrite insertText_run by assumption. split; cbn [snd lines _lineEndings].
  - destruct (insLines_facts (lines b) (clampPos (lines b) p) (splitLines t)) as [H _];
      [apply clampPos_inBounds; assumption | apply splitLines_nonempty | exact H].
  - assumption.
Qed.

Lemma deleteText_wf (b : LineBuffer) (r : Range) :
  wf b -> wf (snd (deleteText r b)).
Proof.
  intros [Hne Hsep]. rewrite deleteText_run by assumption. split; cbn [snd lines _lineEndings].
  - apply delLines_nonempty.
  - assumption.
Qed.

Lemma replaceText_wf (b : LineBuffer) (r : Range) (t : str) :
  wf b -> wf (snd (replaceText r t b)).
Proof.
  intros [Hne Hsep]. rewrite replaceText_run by assumption. split; cbn [snd lines _lineEndings].
  - apply replaceLines_nonempty.
  - assumption.
Qed.

Lemma setText_wf (content : str) (b : LineBuffer) : wf (snd (setText content b)).
Proof.
  rewrite setText_run. split; cbn [snd lines _lineEndings].
  - apply splitLines_nonempty.
  - apply detectLineEnding_valid.
Qed.

(** ** Splitting what was joined *)

Lemma clean_app (x y : str) : clean x -> clean y -> clean (x ++ y).
Proof. unfold clean. intros Hx Hy. apply Forall_app. split; assumption. Qed.

Lemma clean_take (n : nat) (x : str) : clean x -> clean (take n x).
Proof. unfold clean. apply Forall_take. Qed.

Lemma clean_drop (n : nat) (x : str) : clean x -> clean (drop n x).
Proof. unfold clean. apply Forall_drop. Qed.

Lemma clean_lineAt (ls : list str) (i : Z) : Forall clean ls -> clean (lineAt ls i).
Proof.
  intros Hls. unfold lineAt. rewrite nth_lookup.
  destruct (ls !! Z.to_nat i) as [x|] eqn:Hx; simpl.
  - apply (Forall_lookup_1 _ _ _ _ Hls Hx).
  - constructor.
Qed.

Lemma clean_substring (x : str) (a c : Z) : clean x -> clean (substring x a c).
Proof. intros Hx. unfold substring. apply clean_take, clean_drop, Hx. Qed.

Lemma clean_substringFrom (x : str) (a : Z) : clean x -> clean (substringFrom x a).
Proof. intros Hx. unfold substringFrom. apply clean_drop, Hx. Qed.

Lemma splitLines_clean_app (x rest : str) :
  clean x ->
  splitLines (x ++ rest) =
  match splitLines rest with
  | l :: ls => (x ++ l) :: ls
  | [] => [x]
  end.
Proof.
  intros Hx. induction Hx as [|c x [Hcr Hlf] Hx IH]; simpl.
  - pose proof (splitLines_nonempty rest) as Hne.
    destruct (splitLines rest); [congruence | reflexivity].
  - rewrite Hlf, Hcr, IH.
    pose proof (splitLines_nonempty rest) as Hne.
    destruct (splitLines rest); [congruence | reflexivity].
Qed.

Lemma splitLines_clean (x : str) : clean x -> splitLines x = [x].
Proof.
  intros Hx. rewrite <- (app_nil_r x) at 1. rewrite splitLines_clean_app by assumption.
  simpl. rewrite app_nil_r. reflexivity.
Qed.

Lemma splitLines_sep (sep rest : str) :
  validLineEnding sep -> (sep = [CR] -> noLeadingLF rest) ->
  splitLines (sep ++ rest) = [] :: splitLines rest.
Proof.
  intros [-> | [-> | ->]] Hlead.
  - reflexivity.
  - specialize (Hlead eq_refl). destruct rest as [|d rest']; [reflexivity|].
    simpl in Hlead. cbn [app splitLines].
    change (isLF CR) with false. change (isCR CR) with true. cbn iota.
    rewrite Hlead. reflexivity.
  - reflexivity.
Qed.

Lemma join_noLeadingLF (pieces : list str) :
  Forall clean pieces -> noLeadingLF (join [CR] pieces).
Proof.
  intros Hp. destruct Hp as [|x rest Hx Hrest]; [exact I|].
  cbn [join]. destruct Hx as [|c x' [_ Hlf] _].
  - destruct rest; [exact I | reflexivity].
  - destruct rest; exact Hlf.
Qed.

Lemma splitLines_join (sep : str) (pieces : list str) :
  validLineEnding sep -> Forall clean pieces -> pieces <> [] ->
  splitLines (join sep pieces) = pieces.
Proof.
  intros Hsep Hp. induction Hp as [|x rest Hx Hrest IH]; intros Hne; [congruence|].
  cbn [join]. destruct rest as [|y ys].
  - apply splitLines_clean. assumption.
  - rewrite splitLines_clean_app by assumption.
    rewrite splitLines_sep;
      [| assumption | intros ->; apply join_noLeadingLF; assumption].
    rewrite IH by discriminate. rewrite app_nil_r. reflexivity.
Qed.

Lemma Forall_clean_splitLines (t : str) : Forall clean (splitLines t).
Proof.
  induction t as [|c t IH]; simpl.
  - repeat constructor.
  - destruct (isLF c) eqn:Hlf; [constructor; [constructor | assumption]|].
    destruct (isCR c) eqn:Hcr.
    + destruct t as [|d t']; [constructor; [constructor | assumption]|].
      destruct (isLF d) eqn:Hd.
      * constructor; [constructor|].
        simpl in IH. rewrite Hd in IH. inversion IH; assumption.
      * constructor; [constructor | assumption].
    + destruct (splitLines t) as [|l ls]; [repeat constructor; auto|].
      inversion IH; subst. constructor; [|assumption].
      constructor; [split; assumption | assumption].
Qed.

(** ** Putting back what was cut out *)

Lemma glue_several (before after s0 : str) (rest : list str) :
  rest <> [] ->
  glue before (s0 :: rest) after =
  [before ++ s0] ++ removelast rest ++ [default [] (last rest) ++ after].
Proof. intros Hne. destruct rest; [congruence | reflexivity]. Qed.

Lemma delLines_facts (ls : list str) (s e : Position) :
  inBounds ls s -> inBounds ls e -> posLe s e ->
  inBounds (delLines ls s e) s /\
  take (Z.to_nat (line s)) (delLines ls s e) = take (Z.to_nat (line s)) ls /\
  drop (S (Z.to_nat (line s))) (delLines ls s e) = drop (S (Z.to_nat (line e))) ls /\
  take (Z.to_nat (column s)) (lineAt (delLines ls s e) (line s))
    = take (Z.to_nat (column s)) (lineAt ls (line s)) /\
  drop (Z.to_nat (column s)) (lineAt (delLines ls s e) (line s))
    = drop (Z.to_nat (column e)) (lineAt ls (line e)).
Proof.
  intros [Hsl Hsc] [Hel Hec] Hle. unfold len in *. unfold delLines.
  set (A := take (Z.to_nat (line s)) ls).
  set (B := drop (S (Z.to_nat (line e))) ls).
  set (before := take (Z.to_nat (column s)) (lineAt ls (line s))).
  set (after := drop (Z.to_nat (column e)) (lineAt ls (line e))).
  assert (length A = Z.to_nat (line s)) as HA by (unfold A; rewrite length_take; lia).
  assert (length before = Z.to_nat (column s)) as Hb
    by (unfold before; rewrite length_take; lia).
  assert (lineAt (A ++ [before ++ after] ++ B) (line s) = before ++ after) as Hline
    by (apply lineAt_middle; lia).
  unfold inBounds, len. rewrite !Hline.
  rewrite !length_app, Hb. cbn [length].
  split; [lia|].
  split; [apply take_app_length'; lia|].
  split.
  - replace (A ++ [before ++ after] ++ B) with ((A ++ [before ++ after]) ++ B)
      by (rewrite <- app_assoc; reflexivity).
    apply drop_app_length'. rewrite length_app. simpl. lia.
  - split; [apply take_app_length'; lia | apply drop_app_length'; lia].
Qed.

Lemma take_mid_drop (l : str) (a c : nat) :
  (a <= c)%nat -> take a l ++ take (c - a) (drop a l) ++ drop c l = l.
Proof.
  intros Hac. rewrite app_assoc, take_take_drop.
  replace (a + (c - a))%nat with c by lia. apply take_drop.
Qed.

Lemma lines_split2 (ls : list str) (i j : Z) :
  0 <= i < j -> j < Z.of_nat (length ls) ->
  take (Z.to_nat i) ls ++
  [lineAt ls i] ++ take (Z.to_nat (j - i - 1)) (drop (Z.to_nat (i + 1)) ls) ++
  [lineAt ls j] ++ drop (S (Z.to_nat j)) ls = ls.
Proof.
  intros Hi Hj.
  assert (drop (Z.to_nat j) ls = lineAt ls j :: drop (S (Z.to_nat j)) ls) as Ej.
  { destruct (lookup_lt_is_Some_2 ls (Z.to_nat j)) as [x Hx]; [lia|].
    rewrite (drop_S _ _ _ Hx). f_equal. symmetry. apply lineAt_lookup; [lia | assumption]. }
  assert (drop (Z.to_nat i) ls = lineAt ls i :: drop (Z.to_nat (i + 1)) ls) as Ei.
  { destruct (lookup_lt_is_Some_2 ls (Z.to_nat i)) as [x Hx]; [lia|].
    rewrite (drop_S _ _ _ Hx). replace (S (Z.to_nat i)) with (Z.to_nat (i + 1)) by lia.
    f_equal. symmetry. apply lineAt_lookup; [lia | assumption]. }
  assert (drop (Z.to_nat (j - i - 1)) (drop (Z.to_nat (i + 1)) ls) = drop (Z.to_nat j) ls) as Ed.
  { rewrite drop_drop. f_equal. lia. }
  cbn [app]. rewrite <- Ej, <- Ed, take_drop, <- Ei. apply take_drop.
Qed.

Lemma insLines_delLines (sep : str) (ls : list str) (s e : Position) :
  validLineEnding sep -> Forall clean ls ->
  inBounds ls s -> inBounds ls e -> posLe s e ->
  insLines (delLines ls s e) s (splitLines (rangeText sep ls s e)) = ls.
Proof.
  intros Hsep Hclean Hs He Hle.
  destruct (delLines_facts ls s e Hs He Hle) as (_ & HA & HB & Hbefore & Hafter).
  unfold insLines. rewrite HA, HB, Hbefore, Hafter.
  destruct Hs as [Hsl Hsc]. destruct He as [Hel Hec]. unfold len in *.
  pose proof (clean_lineAt ls (line s) Hclean) as Hcs.
  pose proof (clean_lineAt ls (line e) Hclean) as Hce.
  unfold rangeText.
  destruct (Z.eqb_spec (line s) (line e)) as [Heq|Hneq].
  - assert (column s <= column e) as Hcol by (destruct Hle; lia).
    rewrite <- Heq in *.
    rewrite splitLines_clean by (apply clean_substring; assumption).
    rewrite substring_take_drop by (unfold len; lia).
    cbn [glue].
    rewrite take_mid_drop by lia.
    symmetry. apply lines_split. assumption.
  - assert (line s < line e) as Hlt by (destruct Hle; lia).
    rewrite substringFrom_drop, substring_0 by lia.
    set (M := take (Z.to_nat (line e - line s - 1)) (drop (Z.to_nat (line s + 1)) ls)).
    assert (Forall clean M) as HM by (apply Forall_take, Forall_drop; assumption).
    rewrite splitLines_join;
      [| assumption
       | apply Forall_app; split; [repeat constructor; apply clean_drop; assumption|];
         apply Forall_app; split; [assumption | repeat constructor; apply clean_take; assumption]
       | discriminate].
    cbn [app]. rewrite glue_several by (destruct M; discriminate).
    rewrite removelast_last, last_snoc. cbn [default from_option id].
    rewrite !take_drop. unfold M.
    etransitivity; [|apply (lines_split2 ls (line s) (line e)); lia].
    rewrite <- !app_assoc. reflexivity.
Qed.

Lemma normRange_ok (ls : list str) (r : Range) :
  rangeOk ls r -> normRange ls r = mkRange (start r) (clampPos ls (end_ r)).
Proof.
  intros [Hs Hle]. unfold normRange. rewrite (clampPos_id _ _ Hs).
  destruct Hle as [Hlt | [Heq Hc]].
  - destruct (Z.gtb_spec (line (start r)) (line (clampPos ls (end_ r)))); [lia|].
    destruct (Z.eqb_spec (line (start r)) (line (clampPos ls (end_ r)))); [lia|]. reflexivity.
  - destruct (Z.gtb_spec (line (start r)) (line (clampPos ls (end_ r)))); [lia|].
    destruct (Z.gtb_spec (column (start r)) (column (clampPos ls (end_ r)))); [lia|].
    rewrite andb_false_r. reflexivity.
Qed.

(** Replacing a well-formed range and then replacing the range that came
    back by the text that was there gives the original lines. *)
Lemma replaceLines_undo (sep : str) (ls : list str) (r : Range) (t : str) :
  validLineEnding sep -> ls <> [] -> Forall clean ls -> rangeOk ls r ->
  replaceLines (replaceLines ls r t) (replaceRange ls r t)
    (rangeText sep ls (start (normRange ls r)) (end_ (normRange ls r))) = ls.
Proof.
  intros Hsep Hne Hclean Hok. pose proof Hok as [Hs Hle].
  pose proof (clampPos_inBounds ls (end_ r) Hne) as He.
  unfold replaceLines at 2. unfold replaceRange.
  rewrite (normRange_ok ls r Hok). cbn [start end_].
  set (s := start r) in *. set (e := clampPos ls (end_ r)) in *.
  destruct (delLines_facts ls s e Hs He Hle) as (Hs1 & _).
  rewrite (clampPos_id _ _ Hs1).
  set (ls1 := delLines ls s e) in *.
  destruct (insLines_facts ls1 s (splitLines t) Hs1 (splitLines_nonempty t))
    as (Hne2 & Hs2 & He2 & Hle2 & Hdel2).
  unfold replaceLines.
  rewrite (normRange_id _ _ _ Hs2 He2 Hle2). cbn [start end_].
  rewrite Hdel2. rewrite (clampPos_id _ _ Hs1).
  apply insLines_delLines; assumption.
Qed.

Lemma Forall_clean_glue (before after : str) (segs : list str) :
  clean before -> clean after -> Forall clean segs ->
  Forall clean (glue before segs after).
Proof.
  intros Hb Ha Hsegs. unfold glue.
  destruct segs as [|s0 rest]; [repeat constructor; apply clean_app; assumption|].
  inversion Hsegs as [|? ? Hs0 Hrest]; subst.
  destruct rest as [|s1 rest'].
  - repeat constructor. apply clean_app; [|apply clean_app]; assumption.
  - set (rest := s1 :: rest') in *.
    apply Forall_app. split; [repeat constructor; apply clean_app; assumption|].
    apply Forall_app. split.
    + rewrite removelast_firstn_len. apply Forall_take. assumption.
    + repeat constructor. apply clean_app; [|assumption].
      destruct (last rest) as [x|] eqn:Hx; cbn [default from_option id]; [|constructor].
      apply last_Some_elem_of in Hx.
      rewrite Forall_forall in Hrest. apply Hrest. assumption.
Qed.

Lemma Forall_clean_replaceLines (ls : list str) (r : Range) (t : str) :
  Forall clean ls -> Forall clean (replaceLines ls r t).
Proof.
  intros Hclean. unfold replaceLines.
  set (n := normRange ls r).
  assert (Forall clean (delLines ls (start n) (end_ n))) as H1.
  { unfold delLines. apply Forall_app. split; [apply Forall_take; assumption|].
    apply Forall_app. split; [|apply Forall_drop; assumption].
    repeat constructor.
    apply clean_app; [apply clean_take | apply clean_drop]; apply clean_lineAt; assumption. }
  set (ls1 := delLines ls (start n) (end_ n)) in *.
  unfold insLines. apply Forall_app. split; [apply Forall_take; assumption|].
  apply Forall_app. split; [|apply Forall_drop; assumption].
  apply Forall_clean_glue.
  - apply clean_take, clean_lineAt; assumption.
  - apply clean_drop, clean_lineAt; assumption.
  - apply Forall_clean_splitLines.
Qed.

(** ** Commands on the heap *)

Lemma alter_at (f : TextEditCommand -> TextEditCommand) (c : nat)
  (objs : gmap nat TextEditCommand) (o : TextEditCommand) :
  objs !! c = Some o -> alter f c objs = <[c := f o]> objs.
Proof.
  intros Ho. apply map_eq. intros i.
  destruct (decide (c = i)) as [->|Hne].
  - rewrite lookup_alter_eq, lookup_insert_eq, Ho. reflexivity.
  - rewrite lookup_alter_ne, lookup_insert_ne by assumption. reflexivity.
Qed.

Lemma TextEditCommand_execute_run (c : nat) (b : LineBuffer)
  (objs : gmap nat TextEditCommand) (o : TextEditCommand) :
  lines b <> [] -> objs !! c = Some o ->
  TextEditCommand_execute c (mkWorld b objs) =
  (Ok tt,
   mkWorld
     (mkLineBuffer (replaceLines (lines b) (range o) (newText o))
        (_version b + 2) (_lineEndings b))
     (<[c := executedCmd (_lineEndings b) (lines b) (range o, newText o)]> objs)).
Proof.
  intros Hne Ho. unfold TextEditCommand_execute, this_, update, onBuffer.
  unfold bind at 1. cbn [objects]. rewrite Ho.
  unfold bind at 1. cbn [buffer]. rewrite getTextRange_run by assumption.
  unfold bind, modify. cbn [buffer objects].
  rewrite replaceText_run by assumption.
  f_equal. f_equal.
  rewrite (alter_at _ c objs o Ho). cbn [objects buffer].
  rewrite (alter_at _ c _ _ (lookup_insert_eq _ _ _)), insert_insert_eq.
  rewrite (alter_at _ c _ _ (lookup_insert_eq _ _ _)), insert_insert_eq.
  reflexivity.
Qed.

Lemma TextEditCommand_undo_run (c : nat) (b : LineBuffer)
  (objs : gmap nat TextEditCommand) (o : TextEditCommand) :
  lines b <> [] -> objs !! c = Some o -> executed o = true ->
  TextEditCommand_undo c (mkWorld b objs) =
  (Ok tt,
   mkWorld
     (mkLineBuffer (replaceLines (lines b) (actualRange o) (previousText o))
        (_version b + 2) (_lineEndings b))
     (<[c := markUndone o]> objs)).
Proof.
  intros Hne Ho Hex. unfold TextEditCommand_undo, this_, update, onBuffer.
  unfold bind at 1. cbn [objects]. rewrite Ho, Hex. cbn [negb].
  unfold bind, modify. cbn [buffer objects].
  rewrite replaceText_run by assumption.
  rewrite (alter_at _ c objs o Ho). reflexivity.
Qed.

Lemma TextEditCommand_redo_run (c : nat) (b : LineBuffer)
  (objs : gmap nat TextEditCommand) (o : TextEditCommand) :
  lines b <> [] -> objs !! c = Some o -> undone o = true ->
  TextEditCommand_redo c (mkWorld b objs) =
  (Ok tt,
   mkWorld
     (mkLineBuffer (replaceLines (lines b) (range o) (newText o))
        (_version b + 2) (_lineEndings b))
     (<[c := executedCmd (_lineEndings b) (lines b) (range o, newText o)]> objs)).
Proof.
  intros Hne Ho Hun. unfold TextEditCommand_redo, this_, update.
  unfold bind at 1. cbn [objects]. rewrite Ho, Hun.
  unfold bind, modify. cbn [buffer objects].
  rewrite (alter_at _ c objs o Ho).
  rewrite (TextEditCommand_execute_run c b _ _ Hne (lookup_insert_eq _ _ _)).
  cbn [range newText]. rewrite insert_insert_eq. reflexivity.
Qed.

(** ** Undo and redo through the history *)

Section HistoryRuns.

Context {W C : Type} `{UndoableCommand W C}.

Lemma CommandHistory_undo_run (c : C) (u r : list C) (m : Z) (w : W) :
  CommandHistory_undo (mkCommandHistory (u ++ [c]) r m, w) =
  match undo c w with
  | (Ok _, w') => (Ok true, (mkCommandHistory u (r ++ [c]) m, w'))
  | (Throw e, w') => (Throw e, (mkCommandHistory u r m, w'))
  | (OutOfFuel, w') => (OutOfFuel, (mkCommandHistory u r m, w'))
  end.
Proof.
  unfold CommandHistory_undo, canUndo, onWorld, onHistory.
  unfold bind at 1. unfold get at 1. cbn [fst snd undoStack].
  rewrite length_app. cbn [length].
  destruct (Z.gtb_spec (Z.of_nat (length u + 1)) 0); [|lia].
  cbn [negb]. rewrite last_snoc.
  unfold bind, modify, ret. cbn [fst snd undoStack redoStack maxStackSize].
  rewrite removelast_last.
  destruct (undo c w) as [[x|e|] w']; reflexivity.
Qed.

Lemma CommandHistory_redo_run (c : C) (u r : list C) (m : Z) (w : W) :
  CommandHistory_redo (mkCommandHistory u (r ++ [c]) m, w) =
  match redo c w with
  | (Ok _, w') => (Ok true, (mkCommandHistory (u ++ [c]) r m, w'))
  | (Throw e, w') => (Throw e, (mkCommandHistory u r m, w'))
  | (OutOfFuel, w') => (OutOfFuel, (mkCommandHistory u r m, w'))
  end.
Proof.
  unfold CommandHistory_redo, canRedo, onWorld, onHistory.
  unfold bind at 1. unfold get at 1. cbn [fst snd redoStack].
  rewrite length_app. cbn [length].
  destruct (Z.gtb_spec (Z.of_nat (length r + 1)) 0); [|lia].
  cbn [negb]. rewrite last_snoc.
  unfold bind, modify, ret. cbn [fst snd undoStack redoStack maxStackSize].
  rewrite removelast_last.
  destruct (redo c w) as [[x|e|] w']; reflexivity.
Qed.

Lemma executeAll_keeps_recent (cs : list C) (h h' : CommandHistory C) (w w' : W) :
  executeAll cs (h, w) = (Ok tt, (h', w')) ->
  0 <= maxStackSize h ->
  Z.of_nat (length (undoStack h)) <= maxStackSize h ->
  Z.of_nat (length cs) <= maxStackSize h ->
  maxStackSize h' = maxStackSize h /\ exists pre, undoStack h' = pre ++ cs.
Proof.
  intros Heq Hm Hu Hcs.
  destruct (executeAll_stack cs h h' w w' Heq Hm Hu) as (Hm' & Hlen & d & Hd).
  split; [assumption|].
  assert (length d <= length (undoStack h))%nat as Hdl.
  { apply (f_equal (@length C)) in Hd. rewrite !length_app in Hd. lia. }
  exists (drop (length d) (undoStack h)).
  apply (f_equal (drop (length d))) in Hd.
  rewrite drop_app_length in Hd. rewrite <- Hd.
  rewrite drop_app_le by assumption. reflexivity.
Qed.

End HistoryRuns.

Lemma linesAfter_snoc (es : list (Range * str)) :
  forall ls e, linesAfter ls (es ++ [e]) = replaceLines (linesAfter ls es) (fst e) (snd e).
Proof.
  induction es as [|[r t] es IH]; intros ls [r' t']; [reflexivity|].
  cbn [app linesAfter]. apply IH.
Qed.

Lemma rangesOk_snoc (es : list (Range * str)) :
  forall ls e, rangesOk ls (es ++ [e]) <-> rangesOk ls es /\ rangeOk (linesAfter ls es) (fst e).
Proof.
  induction es as [|[r t] es IH]; intros ls [r' t']; cbn [app rangesOk linesAfter fst].
  - tauto.
  - rewrite IH. cbn [fst]. tauto.
Qed.

Lemma linesAfter_good (es : list (Range * str)) :
  forall ls, ls <> [] -> Forall clean ls ->
  linesAfter ls es <> [] /\ Forall clean (linesAfter ls es).
Proof.
  induction es as [|[r t] es IH]; intros ls Hne Hclean; [split; assumption|].
  cbn [linesAfter]. apply IH; [apply replaceLines_nonempty | apply Forall_clean_replaceLines, Hclean].
Qed.

Lemma execObjs_snoc (sep : str) (ed : nat -> Range * str) (cs : list nat) :
  forall ls objs c,
  execObjs sep ed ls objs (cs ++ [c]) =
  <[c := executedCmd sep (linesAfter ls (map ed cs)) (ed c)]> (execObjs sep ed ls objs cs).
Proof.
  induction cs as [|c0 cs IH]; intros ls objs c; [reflexivity|].
  cbn [app execObjs map linesAfter]. rewrite IH.
  destruct (ed c0) as [r0 t0]. reflexivity.
Qed.

Section UndoRedo.

Variable sep : str.
Variable ed : nat -> Range * str.

Let world (ls : list str) (v : Z) (objs : gmap nat TextEditCommand) : World :=
  mkWorld (mkLineBuffer ls v sep) objs.

Lemma executeAll_run (cs : list nat) :
  forall ls v objs (h : CommandHistory nat),
  ls <> [] -> NoDup cs -> (forall c, c ∈ cs -> hasEdit ed objs c) ->
  exists h' v',
    executeAll cs (h, world ls v objs) =
    (Ok tt, (h', world (linesAfter ls (map ed cs)) v' (execObjs sep ed ls objs cs))).
Proof.
  induction cs as [|c cs IH]; intros ls v objs h Hne Hnd Hed.
  - exists h, v. reflexivity.
  - apply NoDup_cons in Hnd. destruct Hnd as [Hc Hnd].
    destruct (Hed c ltac:(left)) as (o & Ho & Hoe).
    cbn [executeAll]. unfold bind. rewrite CommandHistory_execute_run.
    cbn [execute TextEditCommand_UndoableCommand]. unfold world at 1.
    rewrite (TextEditCommand_execute_run c (mkLineBuffer ls v sep) objs o Hne Ho).
    cbn [lines _version _lineEndings].
    assert (range o = fst (ed c)) as Hr by (rewrite <- Hoe; reflexivity).
    assert (newText o = snd (ed c)) as Ht by (rewrite <- Hoe; reflexivity).
    rewrite Hoe, Hr, Ht.
    edestruct (IH (replaceLines ls (fst (ed c)) (snd (ed c))) (v + 2)
                 (<[c := executedCmd sep ls (ed c)]> objs)) as (h' & v' & Hrun).
    + apply replaceLines_nonempty.
    + exact Hnd.
    + intros c' Hc'. destruct (Hed c' ltac:(right; exact Hc')) as (o' & Ho' & Hoe').
      exists o'. split; [|exact Hoe'].
      rewrite lookup_insert_ne; [exact Ho' | intros ->; contradiction].
    + exists h', v'. cbn [map linesAfter execObjs].
      destruct (ed c) as [r t] eqn:Hedc. cbn [fst snd] in *. exact Hrun.
Qed.

Lemma undoAll_run (objs0 : gmap nat TextEditCommand) (cs : list nat) :
  forall ls v objsX (pre r0 : list nat) (m : Z),
  validLineEnding sep -> ls <> [] -> Forall clean ls ->
  NoDup cs -> rangesOk ls (map ed cs) ->
  (forall c, c ∈ cs -> objsX !! c = execObjs sep ed ls objs0 cs !! c) ->
  exists v' objsU,
    times (length cs) CommandHistory_undo
      (mkCommandHistory (pre ++ cs) r0 m, world (linesAfter ls (map ed cs)) v objsX) =
    (Ok tt, (mkCommandHistory pre (r0 ++ rev cs) m, world ls v' objsU)) /\
    (forall c, c ∈ cs -> undoneEdit ed objsU c) /\
    (forall c, c ∉ cs -> objsU !! c = objsX !! c).
Proof.
  induction cs as [|c cs IH] using rev_ind; intros ls v objsX pre r0 m Hsep Hne Hclean Hnd Hok Hagree.
  - exists v, objsX. cbn [length times map linesAfter rev]. rewrite !app_nil_r.
    split; [reflexivity|]. split; [|reflexivity].
    intros c Hc. apply elem_of_nil in Hc. contradiction.
  - apply NoDup_app in Hnd. destruct Hnd as (Hnd & Hdisj & _).
    assert (c ∉ cs) as Hc.
    { intros Hin. apply (Hdisj c Hin). left. }
    rewrite map_app in Hok. cbn [map] in Hok. apply rangesOk_snoc in Hok.
    destruct Hok as [Hok Hokc].
    destruct (linesAfter_good (map ed cs) ls Hne Hclean) as [Hne' Hclean'].
    set (L' := linesAfter ls (map ed cs)) in *.
    assert (objsX !! c = Some (executedCmd sep L' (ed c))) as HXc.
    { rewrite Hagree by (apply elem_of_app; right; left).
      rewrite execObjs_snoc. apply lookup_insert_eq. }
    rewrite length_app. cbn [length]. rewrite Nat.add_1_r. cbn [times]. unfold bind.
    rewrite (app_assoc pre cs [c]), CommandHistory_undo_run.
    cbn [undo TextEditCommand_UndoableCommand]. unfold world at 1.
    rewrite (TextEditCommand_undo_run c
               (mkLineBuffer (linesAfter ls (map ed (cs ++ [c]))) v sep) objsX _
               ltac:(cbn [lines]; rewrite map_app; cbn [map]; rewrite linesAfter_snoc;
                     apply replaceLines_nonempty)
               HXc eq_refl).
    cbn [lines _version _lineEndings executedCmd actualRange previousText].
    rewrite map_app. cbn [map]. rewrite linesAfter_snoc. fold L'.
    rewrite (replaceLines_undo sep L' (fst (ed c)) (snd (ed c)) Hsep Hne' Hclean' Hokc).
    edestruct (IH ls (v + 2) (<[c := markUndone (executedCmd sep L' (ed c))]> objsX)
                 pre (r0 ++ [c]) m Hsep Hne Hclean Hnd Hok)
      as (v' & objsU & Hrun & Hund & Hframe).
    + intros c' Hc'. rewrite lookup_insert_ne by (intros ->; contradiction).
      rewrite Hagree by (apply elem_of_app; left; exact Hc').
      rewrite execObjs_snoc. apply lookup_insert_ne. intros ->; contradiction.
    + exists v', objsU. split; [|split].
      * unfold world in Hrun. unfold world.
        etransitivity; [exact Hrun|].
        rewrite rev_unit, <- app_assoc. reflexivity.
      * intros c' Hc'. apply elem_of_app in Hc'. destruct Hc' as [Hc' | Hc'].
        -- apply Hund. exact Hc'.
        -- apply list_elem_of_singleton in Hc'. subst c'.
           exists (markUndone (executedCmd sep L' (ed c))).
           rewrite (Hframe c Hc), lookup_insert_eq.
           split; [reflexivity|]. split; [reflexivity|].
           cbn [markUndone executedCmd range newText]. destruct (ed c); reflexivity.
      * intros c' Hc'. rewrite Hframe by (intros Hin; apply Hc', elem_of_app; left; exact Hin).
        apply lookup_insert_ne. intros ->. apply Hc', elem_of_app. right. left.
Qed.

Lemma redoAll_run (cs : list nat) :
  forall ls v objsU (pre r0 : list nat) (m : Z),
  ls <> [] -> NoDup cs -> (forall c, c ∈ cs -> undoneEdit ed objsU c) ->
  exists v' objsR,
    times (length cs) CommandHistory_redo
      (mkCommandHistory pre (r0 ++ rev cs) m, world ls v objsU) =
    (Ok tt, (mkCommandHistory (pre ++ cs) r0 m, world (linesAfter ls (map ed cs)) v' objsR)).
Proof.
  induction cs as [|c cs IH]; intros ls v objsU pre r0 m Hne Hnd Hund.
  - exists v, objsU. cbn [length times map linesAfter rev]. rewrite !app_nil_r. reflexivity.
  - apply NoDup_cons in Hnd. destruct Hnd as [Hc Hnd].
    destruct (Hund c ltac:(left)) as (o & Ho & Hun & Hoe).
    cbn [length times rev]. unfold bind.
    rewrite (app_assoc r0 (rev cs) [c]), CommandHistory_redo_run.
    cbn [redo TextEditCommand_UndoableCommand]. unfold world at 1.
    rewrite (TextEditCommand_redo_run c (mkLineBuffer ls v sep) objsU o Hne Ho Hun).
    cbn [lines _version _lineEndings].
    assert (range o = fst (ed c)) as Hr by (rewrite <- Hoe; reflexivity).
    assert (newText o = snd (ed c)) as Ht by (rewrite <- Hoe; reflexivity).
    rewrite Hoe, Hr, Ht.
    edestruct (IH (replaceLines ls (fst (ed c)) (snd (ed c))) (v + 2)
                 (<[c := executedCmd sep ls (ed c)]> objsU) (pre ++ [c]) r0 m)
      as (v' & objsR & Hrun).
    + apply replaceLines_nonempty.
    + exact Hnd.
    + intros c' Hc'. destruct (Hund c' ltac:(right; exact Hc')) as (o' & Ho' & Hrest).
      exists o'. split; [|exact Hrest].
      rewrite lookup_insert_ne; [exact Ho' | intros ->; contradiction].
    + exists v', objsR. unfold world in Hrun. unfold world.
      destruct (ed c) as [r t] eqn:Hedc. cbn [fst snd map linesAfter] in *.
      rewrite Hedc. etransitivity; [exact Hrun|].
      rewrite <- app_assoc. reflexivity.
Qed.

End UndoRedo.

(** X30. Undo exactness where it holds. For distinct commands whose ranges are
    well-formed in the buffer each one is executed on (the start is a
    position of the buffer and does not come after the clamped end), not
    more of them than the history keeps: undoing all of them gives back the
    text from before the executions, and redoing all of them gives back the
    text from after. *)
Theorem undo_redo_exact_wellformed (h : CommandHistory nat) (w : World) (cs : list nat) :
  wfc (buffer w) ->
  NoDup cs ->
  (forall c, c ∈ cs -> is_Some (objects w !! c)) ->
  rangesOk (lines (buffer w)) (map (editOf w) cs) ->
  Z.of_nat (length (undoStack h)) <= maxStackSize h ->
  Z.of_nat (length cs) <= maxStackSize h ->
  exists s1 s2 s3,
    executeAll cs (h, w) = (Ok tt, s1) /\
    times (length cs) CommandHistory_undo s1 = (Ok tt, s2) /\
    times (length cs) CommandHistory_redo s2 = (Ok tt, s3) /\
    textOf s2 = textOf (h, w) /\
    textOf s3 = textOf s1.
Proof.
  intros [[Hne Hsep] Hclean] Hnd Hsome Hok Hu Hcs.
  destruct w as [[ls v sep] objs]. cbn [buffer lines _lineEndings objects] in *.
  set (w := mkWorld (mkLineBuffer ls v sep) objs) in *.
  assert (forall c, c ∈ cs -> hasEdit (editOf w) objs c) as Hed.
  { intros c Hc. destruct (Hsome c Hc) as [o Ho]. exists o. split; [exact Ho|].
    unfold editOf, w. cbn [objects]. rewrite Ho. reflexivity. }
  destruct (executeAll_run sep (editOf w) cs ls v objs h Hne Hnd Hed) as (h1 & v1 & Hexec).
  destruct (executeAll_keeps_recent cs h h1 _ _ Hexec ltac:(lia) Hu Hcs) as (Hm & pre & Hpre).
  destruct h1 as [u1 r1 m1]. cbn [undoStack maxStackSize] in Hm, Hpre. subst u1.
  destruct (undoAll_run sep (editOf w) objs cs ls v1
              (execObjs sep (editOf w) ls objs cs) pre r1 m1 Hsep Hne Hclean Hnd Hok
              ltac:(reflexivity))
    as (v2 & objsU & Hundo & Hund & _).
  destruct (redoAll_run sep (editOf w) cs ls v2 objsU pre r1 m1 Hne Hnd Hund)
    as (v3 & objsR & Hredo).
  eexists _, _, _.
  split; [exact Hexec|]. split; [exact Hundo|]. split; [exact Hredo|].
  split; reflexivity.
Qed.

Lemma undo_redo_exact_wellformed_witness :
  exists s1 s2 s3,
    executeAll [0%nat; 1%nat; 2%nat] (historyWithRedo, threeCommandsWorld) = (Ok tt, s1) /\
    times 3 CommandHistory_undo s1 = (Ok tt, s2) /\
    times 3 CommandHistory_redo s2 = (Ok tt, s3) /\
    textOf s2 = textOf (historyWithRedo, threeCommandsWorld) /\
    textOf s3 = textOf s1.
Proof.
  apply (undo_redo_exact_wellformed historyWithRedo threeCommandsWorld [0%nat; 1%nat; 2%nat]).
  - split; [split; [vm_compute; discriminate | right; right; reflexivity]|].
    vm_compute. repeat constructor.
  - refine (bool_decide_unpack _ _). vm_compute. exact I.
  - intros c Hc.
    repeat (apply elem_of_cons in Hc; destruct Hc as [-> | Hc]);
      [vm_compute; eexists; reflexivity .. | apply elem_of_nil in Hc; contradiction].
  - vm_compute. intuition discriminate.
  - vm_compute. discriminate.
  - vm_compute. discriminate.
Defined.

(** ** The scenarios of the specification, run on the model *)

Example scenario_insert_single :
  insertText (mkPosition 0 0) (lit "X") (bufferOf (lit "abc")) =
  (Ok (mkRange (mkPosition 0 0) (mkPosition 0 1)), mkLineBuffer [lit "Xabc"] 2 [LF]).
Proof. vm_compute. reflexivity. Qed.

Example scenario_insert_newline :
  lines (snd (insertText (mkPosition 0 1) [LF] (bufferOf (lit "ab")))) = [lit "a"; lit "b"] /\
  version (snd (insertText (mkPosition 0 1) [LF] (bufferOf (lit "ab"))))
  = version (bufferOf (lit "ab")) + 1.
Proof. vm_compute. split; reflexivity. Qed.

Example scenario_delete_two_lines :
  deleteText (mkRange (mkPosition 0 1) (mkPosition 1 2)) (bufferOf (lit "abc" ++ [LF] ++ lit "def")) =
  (Ok (lit "bc" ++ [LF] ++ lit "de"), mkLineBuffer [lit "af"] 2 [LF]).
Proof. vm_compute. reflexivity. Qed.

Example scenario_history_of_two :
  let s3 := snd (executeAll [0%nat; 1%nat; 2%nat] (CommandHistory_new 2, threeCommandsWorld)) in
  let s5 := snd (times 2 CommandHistory_undo s3) in
  undoStack (fst s3) = [1%nat; 2%nat] /\
  textOf s5 = Ok (lit "aXbc" ++ [LF] ++ lit "de" ++ [LF] ++ lit "fgh") /\
  canUndo (fst s5) = false /\
  fst (CommandHistory_undo s5) = Ok false.
Proof. vm_compute. repeat split. Qed.

Example scenario_find_all :
  fst (findAll literal_RegExp_new 4 (lit "hello") (mkFindOptions (Some false) None None)
         (bufferOf (lit "Hello hello HELLO")))
  = Ok [rangeOnLine 0 0 5; rangeOnLine 0 6 11; rangeOnLine 0 12 17] /\
  fst (findAll literal_RegExp_new 4 (lit "hello") (mkFindOptions (Some true) None None)
         (bufferOf (lit "Hello hello HELLO")))
  = Ok [rangeOnLine 0 6 11].
Proof. vm_compute. split; reflexivity. Qed.

(** [CommandHistory.execute] of a text edit command always returns: the
    command reads and writes lines that exist. *)
Lemma CommandHistory_execute_TextEdit_returns (c : nat) (h : CommandHistory nat) (w : World) :
  lines (buffer w) <> [] -> is_Some (objects w !! c) ->
  exists h' w', CommandHistory_execute c (h, w) = (Ok tt, (h', w')).
Proof.
  intros Hne [o Ho]. destruct w as [b objs]. cbn [buffer objects] in *.
  rewrite CommandHistory_execute_run. cbn [execute TextEditCommand_UndoableCommand].
  rewrite (TextEditCommand_execute_run c b objs o Hne Ho).
  eexists _, _. reflexivity.
Qed.

Lemma normRange_sym (ls : list str) (s e : Position) :
  normRange ls (mkRange e s) = normRange ls (mkRange s e).
Proof.
  unfold normRange. cbn [start end_].
  destruct (clampPos ls s) as [l1 c1], (clampPos ls e) as [l2 c2]. cbn [line column].
  destruct (Z.gtb_spec l2 l1), (Z.gtb_spec l1 l2), (Z.eqb_spec l2 l1), (Z.eqb_spec l1 l2),
    (Z.gtb_spec c2 c1), (Z.gtb_spec c1 c2); cbn [orb andb]; try reflexivity; try lia.
  f_equal; f_equal; lia.
Qed.

(** X1. [validateRange] returns, on every buffer and for every range, a
    range whose two ends are positions of the buffer with the start not
    after the end; it leaves the buffer alone, validating its result again
    changes nothing, and the range written backwards gives the same result. *)
Theorem validateRange_normalises (b : LineBuffer) (r : Range) :
  lines b <> [] ->
  exists r',
    validateRange r b = (Ok r', b) /\
    inBounds (lines b) (start r') /\ inBounds (lines b) (end_ r') /\
    posLe (start r') (end_ r') /\
    validateRange r' b = (Ok r', b) /\
    validateRange (mkRange (end_ r) (start r)) b = (Ok r', b).
Proof.
  intros Hne. exists (normRange (lines b) r).
  destruct (normRange_spec (lines b) r Hne) as (Hs & He & Hle).
  rewrite !validateRange_run by assumption.
  repeat split; try assumption; try (destruct Hs, He; lia).
  - f_equal. f_equal.
    destruct (normRange (lines b) r) as [s e] eqn:E. cbn [start end_] in *.
    apply normRange_id; assumption.
  - f_equal. f_equal. destruct r as [s e]. cbn [start end_]. apply normRange_sym.
Qed.

Lemma validateRange_normalises_witness :
  exists r',
    validateRange (mkRange (mkPosition 2 9) (mkPosition 0 1)) exampleBuffer = (Ok r', exampleBuffer) /\
    inBounds (lines exampleBuffer) (start r') /\ inBounds (lines exampleBuffer) (end_ r') /\
    posLe (start r') (end_ r') /\
    validateRange r' exampleBuffer = (Ok r', exampleBuffer) /\
    validateRange (mkRange (end_ (mkRange (mkPosition 2 9) (mkPosition 0 1)))
                     (start (mkRange (mkPosition 2 9) (mkPosition 0 1)))) exampleBuffer
    = (Ok r', exampleBuffer).
Proof.
  apply (validateRange_normalises exampleBuffer (mkRange (mkPosition 2 9) (mkPosition 0 1))).
  vm_compute. discriminate.
Defined.

Lemma rangeText_whole (sep : str) (ls : list str) :
  ls <> [] ->
  rangeText sep ls (mkPosition 0 0)
    (mkPosition (Z.of_nat (length ls) - 1) (len (lineAt ls (Z.of_nat (length ls) - 1))))
  = join sep ls.
Proof.
  intros Hne. unfold rangeText. cbn [line column].
  destruct (Z.eqb_spec 0 (Z.of_nat (length ls) - 1)) as [E|E].
  - destruct ls as [|l [|l' ls']]; [congruence| |cbn [length] in E; lia].
    cbn [length]. change (Z.of_nat 1 - 1) with 0.
    unfold lineAt. simpl nth. rewrite substring_0 by (unfold len; lia).
    unfold len. rewrite Nat2Z.id, firstn_all. reflexivity.
  - assert (1 < Z.of_nat (length ls)) as Hlen
      by (destruct ls as [|? [|? ?]]; [congruence | cbn [length] in E; lia | cbn [length]; lia]).
    rewrite substringFrom_drop, substring_0 by (unfold len; lia).
    unfold len. rewrite Nat2Z.id, firstn_all. rewrite drop_0.
    f_equal.
    etransitivity; [|apply (lines_split2 ls 0 (Z.of_nat (length ls) - 1)); lia].
    change (Z.to_nat 0) with 0%nat. rewrite take_0. cbn [app].
    rewrite (drop_ge ls (S _)) by lia. reflexivity.
Qed.

(** X2. A range with one end whose line and column are both at or below 0
    and the other end on or after the last line, at a column at or past
    that line's length, reads the whole document: [getTextRange] returns
    what [getText] returns, whichever of the two ends is written first. *)
Theorem getTextRange_whole_document (b : LineBuffer) (p q : Position) :
  lines b <> [] ->
  line p <= 0 -> column p <= 0 ->
  lineCount b - 1 <= line q ->
  len (lineAt (lines b) (lineCount b - 1)) <= column q ->
  getTextRange (mkRange p q) b = getText b /\
  getTextRange (mkRange q p) b = getText b.
Proof.
  intros Hne Hpl Hpc Hql Hqc. unfold lineCount in *.
  assert (0 < Z.of_nat (length (lines b))) as Hlen by (destruct (lines b); simpl length; [congruence|lia]).
  assert (clampPos (lines b) p = mkPosition 0 0) as Ep.
  { unfold clampPos, clampLine. f_equal; lia. }
  assert (clampPos (lines b) q =
          mkPosition (Z.of_nat (length (lines b)) - 1)
            (len (lineAt (lines b) (Z.of_nat (length (lines b)) - 1)))) as Eq.
  { unfold clampPos, clampLine.
    replace (Z.max 0 (Z.min (line q) (Z.of_nat (length (lines b)) - 1)))
      with (Z.of_nat (length (lines b)) - 1) by lia.
    f_equal. unfold len in *. lia. }
  assert (normRange (lines b) (mkRange p q) = mkRange (clampPos (lines b) p) (clampPos (lines b) q)) as En.
  { unfold normRange. cbn [start end_]. rewrite Ep, Eq. cbn [line column].
    destruct (Z.gtb_spec 0 (Z.of_nat (length (lines b)) - 1)); [lia|].
    destruct (Z.gtb_spec 0 (len (lineAt (lines b) (Z.of_nat (length (lines b)) - 1))));
      [unfold len in *; lia|].
    rewrite andb_false_r. reflexivity. }
  rewrite !getTextRange_run by assumption.
  rewrite (normRange_sym (lines b) p q), En, Ep, Eq. cbn [start end_].
  rewrite rangeText_whole by assumption.
  split; reflexivity.
Qed.

Lemma getTextRange_whole_document_witness :
  getTextRange (mkRange (mkPosition (-1) 0) (mkPosition 7 7)) exampleBuffer = getText exampleBuffer /\
  getTextRange (mkRange (mkPosition 7 7) (mkPosition (-1) 0)) exampleBuffer = getText exampleBuffer.
Proof.
  apply (getTextRange_whole_document exampleBuffer (mkPosition (-1) 0) (mkPosition 7 7));
    vm_compute; discriminate.
Defined.

Lemma segments_cases (segs : list str) :
  segs <> [] ->
  (exists s0, segs = [s0]) \/ (exists s0 mid sl, segs = s0 :: mid ++ [sl]).
Proof.
  intros Hne. destruct segs as [|s0 rest]; [congruence|].
  destruct rest as [|s1 rest']; [left; eauto|]. right.
  destruct (proj2 (last_is_Some (s1 :: rest')) ltac:(discriminate)) as [sl Hsl].
  apply last_Some in Hsl as [mid Hmid]. exists s0, mid, sl. rewrite Hmid. reflexivity.
Qed.

Lemma glue_snoc (before after s0 sl : str) (mid : list str) :
  glue before (s0 :: mid ++ [sl]) after = [before ++ s0] ++ mid ++ [sl ++ after].
Proof.
  rewrite glue_several by (destruct mid; discriminate).
  rewrite removelast_last, last_snoc. reflexivity.
Qed.

Lemma insEnd_snoc (q : Position) (s0 sl : str) (mid : list str) :
  insEnd q (s0 :: mid ++ [sl]) = mkPosition (line q + Z.of_nat (length mid) + 1) (len sl).
Proof.
  unfold insEnd.
  replace (s0 :: mid ++ [sl]) with ((s0 :: mid) ++ [sl]) by reflexivity.
  rewrite last_snoc. cbn [default from_option id].
  rewrite length_app. cbn [length].
  destruct (Z.eqb_spec (Z.of_nat (S (length mid) + 1)) 1) as [Hbad|_]; [lia|].
  f_equal; lia.
Qed.

Lemma rangeText_insLines (sep : str) (ls : list str) (q : Position) (segs : list str) :
  inBounds ls q -> segs <> [] ->
  rangeText sep (insLines ls q segs) q (insEnd q segs) = join sep segs.
Proof.
  intros [Hl Hc] Hne. unfold len in Hc.
  unfold insLines, rangeText.
  set (A := take (Z.to_nat (line q)) ls) in *.
  set (B := drop (S (Z.to_nat (line q))) ls) in *.
  set (l := lineAt ls (line q)) in *.
  set (before := take (Z.to_nat (column q)) l).
  set (after := drop (Z.to_nat (column q)) l).
  assert (length A = Z.to_nat (line q)) as HA by (unfold A; rewrite length_take; lia).
  assert (length before = Z.to_nat (column q)) as Hb by (unfold before; rewrite length_take; lia).
  destruct (segments_cases segs Hne) as [[s0 ->] | (s0 & mid & sl & ->)].
  - unfold glue, insEnd. cbn [length last default from_option id line column].
    replace (line q + Z.of_nat 1 - 1) with (line q) by lia.
    rewrite Z.eqb_refl.
    assert (lineAt (A ++ [before ++ s0 ++ after] ++ B) (line q) = before ++ s0 ++ after) as Hline
      by (apply lineAt_middle; lia).
    rewrite Hline.
    destruct (Z.eqb_spec (Z.of_nat 1) 1) as [_|Hbad]; [|simpl in Hbad; lia].
    rewrite substring_take_drop by (unfold len; rewrite ?length_app; lia).
    replace (Z.to_nat (column q)) with (length before) by lia.
    rewrite drop_app_length.
    replace (Z.to_nat (len s0 + column q) - length before)%nat with (length s0)
      by (unfold len; lia).
    rewrite take_app_length. reflexivity.
  - rewrite glue_snoc, insEnd_snoc. cbn [line column].
    destruct (Z.eqb_spec (line q) (line q + Z.of_nat (length mid) + 1)) as [Hbad|_]; [lia|].
    set (ls1 := A ++ ([before ++ s0] ++ mid ++ [sl ++ after]) ++ B).
    assert (ls1 = A ++ (before ++ s0) :: (mid ++ [sl ++ after]) ++ B) as E1
      by (unfold ls1; rewrite <- !app_assoc; reflexivity).
    assert (ls1 = (A ++ [before ++ s0] ++ mid) ++ (sl ++ after) :: B) as E2
      by (unfold ls1; rewrite <- !app_assoc; reflexivity).
    assert (lineAt ls1 (line q) = before ++ s0) as Hfirst
      by (rewrite E1; apply lineAt_middle; lia).
    assert (lineAt ls1 (line q + Z.of_nat (length mid) + 1) = sl ++ after) as Hlast.
    { rewrite E2. apply lineAt_middle. rewrite !length_app. simpl. lia. }
    rewrite Hfirst, Hlast.
    rewrite substringFrom_drop, substring_0 by (unfold len; lia).
    replace (Z.to_nat (column q)) with (length before) by lia.
    rewrite drop_app_length. unfold len. rewrite Nat2Z.id, take_app_length.
    f_equal. cbn [app]. f_equal.
    rewrite E1.
    replace (Z.to_nat (line q + 1)) with (length (A ++ [before ++ s0]))
      by (rewrite length_app; simpl; lia).
    replace (A ++ (before ++ s0) :: (mid ++ [sl ++ after]) ++ B)
      with ((A ++ [before ++ s0]) ++ mid ++ ([sl ++ after] ++ B))
      by (rewrite <- !app_assoc; reflexivity).
    rewrite drop_app_length.
    replace (Z.to_nat (line q + Z.of_nat (length mid) + 1 - line q - 1)) with (length mid) by lia.
    rewrite take_app_length. reflexivity.
Qed.

(** X3. What [insertText] returns is the range of the inserted text: reading
    that range back with [getTextRange] gives the text, its line breaks
    replaced by the line ending of the buffer, and the text itself when it
    holds no line break. *)
Theorem insertText_range_holds_text (b : LineBuffer) (p : Position) (t : str) :
  lines b <> [] ->
  exists r b1,
    insertText p t b = (Ok r, b1) /\
    validatePosition p b = (Ok (start r), b) /\
    getTextRange r b1 = (Ok (join (lineEndings b) (splitLines t)), b1) /\
    (length (splitLines t) = 1%nat -> getTextRange r b1 = (Ok t, b1)).
Proof.
  intros Hne.
  pose proof (clampPos_inBounds (lines b) p Hne) as Hq.
  destruct (insLines_facts (lines b) (clampPos (lines b) p) (splitLines t) Hq
              (splitLines_nonempty t)) as (Hne1 & Hq1 & He1 & Hle1 & _).
  eexists _, _. split; [apply insertText_run; assumption|].
  cbn [start end_].
  split; [apply validatePosition_run; assumption|].
  assert (getTextRange
            (mkRange (clampPos (lines b) p) (insEnd (clampPos (lines b) p) (splitLines t)))
            (mkLineBuffer (insLines (lines b) (clampPos (lines b) p) (splitLines t))
               (_version b + 1) (_lineEndings b))
          = (Ok (join (lineEndings b) (splitLines t)),
             mkLineBuffer (insLines (lines b) (clampPos (lines b) p) (splitLines t))
               (_version b + 1) (_lineEndings b))) as Hget.
  { rewrite getTextRange_run by (cbn [lines]; assumption).
    cbn [lines _lineEndings].
    rewrite normRange_id by assumption. cbn [start end_].
    rewrite rangeText_insLines by (assumption || apply splitLines_nonempty).
    reflexivity. }
  split; [exact Hget|].
  intros Hone. rewrite Hget. rewrite (splitLines_single t Hone). reflexivity.
Qed.

Lemma insertText_range_holds_text_witness :
  exists r b1,
    insertText (mkPosition 1 1) (lit "X" ++ [CR; LF] ++ lit "YZ") exampleBuffer = (Ok r, b1) /\
    validatePosition (mkPosition 1 1) exampleBuffer = (Ok (start r), exampleBuffer) /\
    getTextRange r b1
    = (Ok (join (lineEndings exampleBuffer) (splitLines (lit "X" ++ [CR; LF] ++ lit "YZ"))), b1) /\
    (length (splitLines (lit "X" ++ [CR; LF] ++ lit "YZ")) = 1%nat ->
     getTextRange r b1 = (Ok (lit "X" ++ [CR; LF] ++ lit "YZ"), b1)).
Proof.
  apply (insertText_range_holds_text exampleBuffer (mkPosition 1 1)
           (lit "X" ++ [CR; LF] ++ lit "YZ")).
  vm_compute. discriminate.
Defined.

Lemma insEnd_rangeText (sep : str) (ls : list str) (s e : Position) :
  validLineEnding sep -> Forall clean ls ->
  inBounds ls s -> inBounds ls e -> posLe s e ->
  insEnd s (splitLines (rangeText sep ls s e)) = e.
Proof.
  intros Hsep Hclean [Hsl Hsc] [Hel Hec] Hle. unfold len in *.
  pose proof (clean_lineAt ls (line s) Hclean) as Hcs.
  pose proof (clean_lineAt ls (line e) Hclean) as Hce.
  unfold rangeText.
  destruct (Z.eqb_spec (line s) (line e)) as [Heq|Hneq].
  - assert (column s <= column e) as Hcol by (destruct Hle; lia).
    rewrite <- Heq in *.
    rewrite splitLines_clean by (apply clean_substring; assumption).
    rewrite substring_take_drop by (unfold len; lia).
    unfold insEnd. cbn [length last default from_option id].
    destruct (Z.eqb_spec (Z.of_nat 1) 1) as [_|Hbad]; [|simpl in Hbad; lia].
    unfold len. rewrite length_take, length_drop.
    destruct e as [le ce]. cbn [line column] in *. f_equal; lia.
  - assert (line s < line e) as Hlt by (destruct Hle; lia).
    rewrite substringFrom_drop, substring_0 by lia.
    set (M := take (Z.to_nat (line e - line s - 1)) (drop (Z.to_nat (line s + 1)) ls)).
    assert (Forall clean M) as HM by (apply Forall_take, Forall_drop; assumption).
    rewrite splitLines_join;
      [| assumption
       | apply Forall_app; split; [repeat constructor; apply clean_drop; assumption|];
         apply Forall_app; split; [assumption | repeat constructor; apply clean_take; assumption]
       | discriminate].
    cbn [app]. rewrite insEnd_snoc.
    assert (length M = Z.to_nat (line e - line s - 1)) as HlM
      by (unfold M; rewrite length_take, length_drop; lia).
    unfold len. rewrite length_take, HlM.
    destruct e as [le ce]. cbn [line column] in *. f_equal; lia.
Qed.

(** X4. Deleting a range and inserting the deleted text again at the start
    of the validated range restores the buffer: [deleteText] returns the
    text [getTextRange] reads in the range, the insertion returns the
    validated range itself, the lines and the text are the original ones and
    the version has grown by 2. *)
Theorem deleteText_undone_by_insertText (b : LineBuffer) (r : Range) :
  wfc b ->
  exists (v : Range) (deleted : str) (b1 b2 : LineBuffer),
    validateRange r b = (Ok v, b) /\
    getTextRange r b = (Ok deleted, b) /\
    deleteText r b = (Ok deleted, b1) /\
    insertText (start v) deleted b1 = (Ok v, b2) /\
    lines b2 = lines b /\
    fst (getText b2) = fst (getText b) /\
    version b2 = version b + 2.
Proof.
  intros [[Hne Hsep] Hclean].
  destruct (normRange_spec (lines b) r Hne) as (Hs & He & Hle).
  destruct (delLines_facts _ _ _ Hs He Hle) as (Hs1 & _).
  eexists _, _, _, _.
  split; [apply validateRange_run; assumption|].
  split; [apply getTextRange_run; assumption|].
  split; [apply deleteText_run; assumption|].
  rewrite insertText_run by (cbn [lines]; apply delLines_nonempty).
  cbn [lines _version _lineEndings].
  rewrite (clampPos_id _ _ Hs1).
  rewrite insEnd_rangeText, insLines_delLines by assumption.
  split; [destruct (normRange (lines b) r); reflexivity|].
  split; [reflexivity|].
  split; [reflexivity|].
  unfold version. cbn [_version]. lia.
Qed.

Lemma deleteText_undone_by_insertText_witness :
  exists (v : Range) (deleted : str) (b1 b2 : LineBuffer),
    validateRange (mkRange (mkPosition 2 1) (mkPosition 0 2)) exampleBuffer = (Ok v, exampleBuffer) /\
    getTextRange (mkRange (mkPosition 2 1) (mkPosition 0 2)) exampleBuffer
    = (Ok deleted, exampleBuffer) /\
    deleteText (mkRange (mkPosition 2 1) (mkPosition 0 2)) exampleBuffer = (Ok deleted, b1) /\
    insertText (start v) deleted b1 = (Ok v, b2) /\
    lines b2 = lines exampleBuffer /\
    fst (getText b2) = fst (getText exampleBuffer) /\
    version b2 = version exampleBuffer + 2.
Proof.
  apply (deleteText_undone_by_insertText exampleBuffer (mkRange (mkPosition 2 1) (mkPosition 0 2))).
  split; [split; [vm_compute; discriminate | right; right; reflexivity]|].
  repeat constructor.
Defined.

Lemma Forall_clean_delLines (ls : list str) (s e : Position) :
  Forall clean ls -> Forall clean (delLines ls s e).
Proof.
  intros Hclean. unfold delLines.
  apply Forall_app. split; [apply Forall_take; assumption|].
  apply Forall_app. split; [|apply Forall_drop; assumption].
  repeat constructor.
  apply clean_app; [apply clean_take | apply clean_drop]; apply clean_lineAt; assumption.
Qed.

Lemma Forall_clean_insLines (ls : list str) (q : Position) (segs : list str) :
  Forall clean ls -> Forall clean segs -> Forall clean (insLines ls q segs).
Proof.
  intros Hclean Hsegs. unfold insLines.
  apply Forall_app. split; [apply Forall_take; assumption|].
  apply Forall_app. split; [|apply Forall_drop; assumption].
  apply Forall_clean_glue; [apply clean_take | apply clean_drop | assumption];
    apply clean_lineAt; assumption.
Qed.

Lemma LineBuffer_new_wfc (content e : str) : wfc (snd (LineBuffer_new content e)).
Proof.
  rewrite LineBuffer_new_run. cbn [snd].
  split; [split|]; cbn [lines _lineEndings].
  - apply splitLines_nonempty.
  - apply detectLineEnding_valid.
  - apply Forall_clean_splitLines.
Qed.

Lemma applyEdit_run (e : Edit) (b : LineBuffer) :
  wfc b ->
  exists b', applyEdit e b = (Ok tt, b') /\ wfc b' /\ version b' = version b + versionSteps e.
Proof.
  intros [[Hne Hsep] Hclean]. destruct e as [content | p t | r | r t]; cbn [applyEdit versionSteps].
  - rewrite setText_run. eexists. split; [reflexivity|].
    split; [|reflexivity].
    split; [split|]; cbn [lines _lineEndings].
    + apply splitLines_nonempty.
    + apply detectLineEnding_valid.
    + apply Forall_clean_splitLines.
  - unfold bind. rewrite insertText_run by assumption. eexists. split; [reflexivity|].
    split; [|reflexivity].
    split; [split|]; cbn [lines _lineEndings]; [| assumption |].
    + apply (insLines_facts _ _ _ (clampPos_inBounds _ p Hne) (splitLines_nonempty t)).
    + apply Forall_clean_insLines; [assumption | apply Forall_clean_splitLines].
  - unfold bind. rewrite deleteText_run by assumption. eexists. split; [reflexivity|].
    split; [|reflexivity].
    split; [split|]; cbn [lines _lineEndings]; [| assumption |].
    + apply delLines_nonempty.
    + apply Forall_clean_delLines; assumption.
  - unfold bind. rewrite replaceText_run by assumption. eexists. split; [reflexivity|].
    split; [|reflexivity].
    split; [split|]; cbn [lines _lineEndings]; [| assumption |].
    + apply replaceLines_nonempty.
    + apply Forall_clean_replaceLines; assumption.
Qed.

Lemma applyEdits_run (es : list Edit) :
  forall b, wfc b ->
  exists b',
    applyEdits es b = (Ok tt, b') /\ wfc b' /\
    version b' = version b + fold_right (fun e acc => versionSteps e + acc) 0 es.
Proof.
  induction es as [|e es IH]; intros b Hb.
  - exists b. cbn [applyEdits fold_right]. repeat split; try apply Hb. lia.
  - destruct (applyEdit_run e b Hb) as (b1 & E1 & Hb1 & Hv1).
    destruct (IH b1 Hb1) as (b2 & E2 & Hb2 & Hv2).
    exists b2. cbn [applyEdits fold_right]. unfold bind. rewrite E1, E2.
    repeat split; try apply Hb2. lia.
Qed.

(** X5. On a buffer made by the constructor, no sequence of calls of
    [setText], [insertText], [deleteText] and [replaceText], with whatever
    arguments, ever throws. After it the buffer still has at least one line,
    one of the three line endings and no line break inside a line, and the
    version is 1 plus one for every call, two for a [replaceText]. *)
Theorem edits_never_throw (content lineEnding : str) (es : list Edit) :
  exists b',
    applyEdits es (snd (LineBuffer_new content lineEnding)) = (Ok tt, b') /\
    wfc b' /\
    version b' = 1 + fold_right (fun e acc => versionSteps e + acc) 0 es.
Proof.
  destruct (applyEdits_run es _ (LineBuffer_new_wfc content lineEnding)) as (b' & E & Hb & Hv).
  exists b'. repeat split; try assumption; try apply Hb.
  rewrite Hv, LineBuffer_new_run. reflexivity.
Qed.

(** *** The constructor on the text of a buffer *)

Lemma startsWith_app (n post : str) : startsWith n (n ++ post) = true.
Proof.
  induction n as [|a n IH]; [destruct post; reflexivity|].
  cbn [app startsWith]. rewrite Ascii.eqb_refl. exact IH.
Qed.

Lemma includes_app (n pre post : str) : includes n (pre ++ n ++ post) = true.
Proof.
  induction pre as [|c pre IH].
  - cbn [app]. destruct (n ++ post) eqn:E; cbn [includes]; rewrite <- ?E, startsWith_app; reflexivity.
  - cbn [app includes]. rewrite IH. apply orb_true_r.
Qed.

Lemma includes_no_head (c : ascii) (n s : str) :
  Forall (fun d => Ascii.eqb d c = false) s -> includes (c :: n) s = false.
Proof.
  induction 1 as [|d s Hd Hs IH]; [reflexivity|].
  cbn [includes startsWith]. rewrite Ascii.eqb_sym, Hd, IH. reflexivity.
Qed.

Lemma includes_CRLF_no_LF (s : str) :
  Forall (fun d => isLF d = false) s -> includes [CR; LF] s = false.
Proof.
  induction 1 as [|d s Hd Hs IH]; [reflexivity|].
  cbn [includes startsWith]. rewrite IH, orb_false_r.
  destruct s as [|d' s']; [apply andb_false_r|].
  inversion Hs as [|? ? Hd' _]; subst. unfold isLF in Hd'.
  rewrite (Ascii.eqb_sym LF d'), Hd'. cbn [andb]. apply andb_false_r.
Qed.

Lemma join_no_char (P : ascii -> Prop) (sep : str) (ls : list str) :
  Forall P sep -> Forall (Forall P) ls -> Forall P (join sep ls).
Proof.
  intros Hsep. induction 1 as [|l ls Hl Hls IH]; [constructor|].
  cbn [join]. destruct ls as [|l' ls']; [assumption|].
  apply Forall_app. split; [assumption|]. apply Forall_app. split; assumption.
Qed.

Lemma clean_no_CR (ls : list str) :
  Forall clean ls -> Forall (Forall (fun d => isCR d = false)) ls.
Proof.
  intros H. eapply Forall_impl; [exact H|]. intros l Hl. unfold clean in Hl.
  eapply Forall_impl; [exact Hl|]. intros d [Hd _]. exact Hd.
Qed.

Lemma clean_no_LF (ls : list str) :
  Forall clean ls -> Forall (Forall (fun d => isLF d = false)) ls.
Proof.
  intros H. eapply Forall_impl; [exact H|]. intros l Hl. unfold clean in Hl.
  eapply Forall_impl; [exact Hl|]. intros d [_ Hd]. exact Hd.
Qed.

Lemma detectLineEnding_join (sep : str) (ls : list str) :
  validLineEnding sep -> Forall clean ls ->
  detectLineEnding (join sep ls) = if (1 <? length ls)%nat then sep else [LF].
Proof.
  intros Hsep Hclean. unfold detectLineEnding.
  destruct ls as [|l [|l' ls']].
  - reflexivity.
  - cbn [join length]. change (1 <? 1)%nat with false. cbn iota.
    inversion Hclean as [|? ? Hl _]; subst.
    rewrite includes_CRLF_no_LF, includes_no_head; [reflexivity | |].
    + eapply Forall_impl; [exact Hl|]. intros d [Hd _]. exact Hd.
    + eapply Forall_impl; [exact Hl|]. intros d [_ Hd]. exact Hd.
  - change (1 <? length (l :: l' :: ls'))%nat with true. cbn iota.
    destruct Hsep as [-> | [-> | ->]].
    + cbn [join]. rewrite includes_app. reflexivity.
    + rewrite includes_CRLF_no_LF.
      * cbn [join]. rewrite (includes_app [CR]). reflexivity.
      * apply join_no_char; [repeat constructor | apply clean_no_LF; assumption].
    + rewrite (includes_no_head CR [LF]), (includes_no_head CR []); [reflexivity | |];
        (apply join_no_char; [repeat constructor | apply clean_no_CR; assumption]).
Qed.

Lemma LineBuffer_new_of_text (b : LineBuffer) (e : str) :
  wfc b ->
  LineBuffer_new (join (_lineEndings b) (lines b)) e =
  (Ok tt, mkLineBuffer (lines b) 1
            (if (1 <? length (lines b))%nat then _lineEndings b else [LF])).
Proof.
  intros [[Hne Hsep] Hclean].
  rewrite LineBuffer_new_run, splitLines_join, detectLineEnding_join by assumption.
  reflexivity.
Qed.

Lemma join_detected (sep : str) (ls : list str) :
  join (if (1 <? length ls)%nat then sep else [LF]) ls = join sep ls.
Proof. destruct ls as [|l [|l' ls']]; reflexivity. Qed.

(** X6. The constructor applied to the text of a buffer gives a buffer with
    the same lines and the same text at version 1; its line ending is the
    one of the original when there are several lines and LF when there is
    one line, whatever line ending is passed. *)
Theorem LineBuffer_rebuilt_from_text (b : LineBuffer) (e : str) :
  wfc b ->
  exists (text : str) (b' : LineBuffer),
    getText b = (Ok text, b) /\
    LineBuffer_new text e = (Ok tt, b') /\
    lines b' = lines b /\
    getText b' = (Ok text, b') /\
    version b' = 1 /\
    lineEndings b' = (if (1 <? lineCount b) then lineEndings b else [LF]).
Proof.
  intros Hb.
  eexists _, _. split; [reflexivity|].
  split; [apply LineBuffer_new_of_text; exact Hb|].
  split; [reflexivity|].
  assert ((1 <? lineCount b) = (1 <? length (lines b))%nat) as Eb.
  { unfold lineCount. destruct (Z.ltb_spec 1 (Z.of_nat (length (lines b)))),
      (Nat.ltb_spec 1 (length (lines b))); try reflexivity; lia. }
  split; [|split; [reflexivity|]].
  - unfold getText, bind, get, ret. cbn [lines _lineEndings]. rewrite join_detected. reflexivity.
  - unfold lineEndings. cbn [_lineEndings]. rewrite Eb. reflexivity.
Qed.

Lemma LineBuffer_rebuilt_from_text_witness :
  exists (text : str) (b' : LineBuffer),
    getText exampleBuffer = (Ok text, exampleBuffer) /\
    LineBuffer_new text [CR] = (Ok tt, b') /\
    lines b' = lines exampleBuffer /\
    getText b' = (Ok text, b') /\
    version b' = 1 /\
    lineEndings b' = (if (1 <? lineCount exampleBuffer) then lineEndings exampleBuffer else [LF]).
Proof.
  apply (LineBuffer_rebuilt_from_text exampleBuffer [CR]).
  split; [split; [vm_compute; discriminate | right; right; reflexivity]|].
  repeat constructor.
Defined.

(** *** Offsets *)

Lemma sumLens_add (b : LineBuffer) (n m : nat) :
  forall i, sumLens b (n + m) i = sumLens b n i + sumLens b m (i + Z.of_nat n).
Proof.
  induction n as [|n IH]; intros i.
  - cbn [Nat.add sumLens]. rewrite Z.add_0_r. reflexivity.
  - cbn [Nat.add sumLens]. rewrite IH.
    replace (i + 1 + Z.of_nat n) with (i + Z.of_nat (S n)) by lia. lia.
Qed.

Lemma sumLens_all (b : LineBuffer) :
  lines b <> [] ->
  sumLens b (length (lines b)) 0 =
  sumLens b (Z.to_nat (Z.of_nat (length (lines b)) - 1)) 0 +
  len (lineAt (lines b) (Z.of_nat (length (lines b)) - 1)).
Proof.
  intros Hne.
  assert (0 < Z.of_nat (length (lines b))) as Hlen
    by (destruct (lines b); [congruence | cbn [length]; lia]).
  pose proof (sumLens_add b (Z.to_nat (Z.of_nat (length (lines b)) - 1)) 1 0) as H.
  replace (Z.to_nat (Z.of_nat (length (lines b)) - 1) + 1)%nat with (length (lines b)) in H by lia.
  rewrite H. cbn [sumLens]. unfold lineLen.
  rewrite Z2Nat.id by lia. rewrite Z.add_0_l, Z.eqb_refl. lia.
Qed.

(** The length of the text is the sum of the line lengths. *)
Lemma len_text (b : LineBuffer) :
  lines b <> [] ->
  len (join (_lineEndings b) (lines b)) = sumLens b (length (lines b)) 0.
Proof.
  intros Hne.
  assert (0 < Z.of_nat (length (lines b))) as Hlen
    by (destruct (lines b); [congruence | cbn [length]; lia]).
  rewrite <- (rangeText_whole (_lineEndings b) (lines b) Hne).
  rewrite len_text_before by (assumption || (unfold inBounds; cbn [line column]; unfold len; lia)).
  cbn [line column]. symmetry. apply sumLens_all. assumption.
Qed.

Lemma offsetToPosition_loop_any (b : LineBuffer) (o : Z) (n : nat) :
  forall i cur,
  0 <= i -> i + Z.of_nat n = Z.of_nat (length (lines b)) -> cur <= o ->
  exists res,
    offsetToPosition_loop n i cur o b = (Ok res, b) /\
    match res with
    | Some q =>
      i <= line q < Z.of_nat (length (lines b)) /\
      cur + sumLens b (Z.to_nat (line q - i)) i + column q = o /\
      0 <= column q < lineLen b (line q)
    | None => cur + sumLens b n i <= o
    end.
Proof.
  induction n as [|n IH]; intros i cur Hi Hn Hcur.
  - exists None. cbn [offsetToPosition_loop sumLens]. split; [reflexivity | lia].
  - cbn [offsetToPosition_loop]. unfold bind.
    rewrite getLineLength_run by lia.
    destruct (Z.gtb_spec (cur + lineLen b i) o) as [Hgt|Hle].
    + exists (Some (mkPosition i (o - cur))). split; [reflexivity|].
      cbn [line column]. replace (Z.to_nat (i - i)) with 0%nat by lia. cbn [sumLens]. lia.
    + destruct (IH (i + 1) (cur + lineLen b i) ltac:(lia) ltac:(lia) Hle) as (res & E & Hres).
      exists res. split; [exact E|].
      destruct res as [q|].
      * destruct Hres as (Hl & Hsum & Hc). split; [lia|]. split; [|exact Hc].
        replace (Z.to_nat (line q - i)) with (S (Z.to_nat (line q - (i + 1)))) by lia.
        cbn [sumLens]. lia.
      * cbn [sumLens]. lia.
Qed.

Lemma lineLen_le (b : LineBuffer) (i : Z) :
  lineLen b i <= len (lineAt (lines b) i) + len (_lineEndings b).
Proof. unfold lineLen, len. destruct (i =? Z.of_nat (length (lines b)) - 1); lia. Qed.

Lemma sumLens_prefix (b : LineBuffer) (L : Z) :
  0 <= L < Z.of_nat (length (lines b)) ->
  sumLens b (Z.to_nat L) 0 + len (lineAt (lines b) L) <= sumLens b (length (lines b)) 0.
Proof.
  intros HL.
  pose proof (sumLens_add b (Z.to_nat L) (S (length (lines b) - S (Z.to_nat L))) 0) as H.
  replace (Z.to_nat L + S (length (lines b) - S (Z.to_nat L)))%nat with (length (lines b)) in H by lia.
  rewrite H. cbn [sumLens].
  pose proof (sumLens_nonneg b (length (lines b) - S (Z.to_nat L)) (0 + Z.of_nat (Z.to_nat L) + 1)).
  rewrite Z2Nat.id in * by lia. rewrite Z.add_0_l in *.
  assert (len (lineAt (lines b) L) <= lineLen b L)
    by (unfold lineLen, len; destruct (L =? Z.of_nat (length (lines b)) - 1); lia).
  lia.
Qed.

(** With a line ending of one character, the position of an offset that is
    not negative lies in the buffer, and its line and column add up to the
    offset or, past the end, to the length of the text. *)
Lemma offsetToPosition_back (b : LineBuffer) (o : Z) :
  wf b -> len (_lineEndings b) = 1 -> 0 <= o ->
  exists q : Position,
    offsetToPosition o b = (Ok q, b) /\
    inBounds (lines b) q /\
    sumLens b (Z.to_nat (line q)) 0 + column q = Z.min o (sumLens b (length (lines b)) 0).
Proof.
  intros Hwf Hone Ho. pose proof Hwf as [Hne Hsep].
  assert (0 < Z.of_nat (length (lines b))) as Hlen
    by (destruct (lines b); [congruence | cbn [length]; lia]).
  destruct (offsetToPosition_loop_any b o (length (lines b)) 0 0 ltac:(lia) ltac:(lia) Ho)
    as (res & E & Hres).
  destruct res as [q|].
  - destruct Hres as (Hl & Hsum & Hc).
    rewrite Z.sub_0_r, Z.add_0_l in Hsum.
    pose proof (lineLen_le b (line q)) as Hle.
    assert (inBounds (lines b) q) as Hq by (split; lia).
    exists q.
    split; [unfold offsetToPosition, bind, get; rewrite E; reflexivity|].
    split; [exact Hq|].
    pose proof (sumLens_prefix b (line q) ltac:(lia)) as Hp.
    destruct Hq as [_ Hqc]. lia.
  - exists (mkPosition (Z.of_nat (length (lines b)) - 1)
              (len (lineAt (lines b) (Z.of_nat (length (lines b)) - 1)))).
    assert (inBounds (lines b)
              (mkPosition (Z.of_nat (length (lines b)) - 1)
                 (len (lineAt (lines b) (Z.of_nat (length (lines b)) - 1))))) as Hq
      by (split; cbn [line column]; unfold len; lia).
    split.
    { unfold offsetToPosition, bind, get. rewrite E. run_M. reflexivity. }
    split; [exact Hq|].
    cbn [line column]. pose proof (sumLens_all b Hne). lia.
Qed.

(** X7. In a buffer whose line ending is a single character, every offset
    that is not negative has a position: [offsetToPosition] returns a
    position of the buffer and [positionToOffset] maps it back to the
    offset, or to the length of the text when the offset is larger. *)
Theorem position_of_offset_roundtrip (b : LineBuffer) (o : Z) :
  wf b -> len (lineEndings b) = 1 -> 0 <= o ->
  exists (q : Position) (text : str),
    getText b = (Ok text, b) /\
    offsetToPosition o b = (Ok q, b) /\
    inBounds (lines b) q /\
    positionToOffset q b = (Ok (Z.min o (len text)), b).
Proof.
  intros Hwf Hone Ho. pose proof Hwf as [Hne Hsep].
  destruct (offsetToPosition_back b o Hwf Hone Ho) as (q & E & Hq & Hsum).
  exists q, (join (_lineEndings b) (lines b)).
  split; [reflexivity|]. split; [exact E|]. split; [exact Hq|].
  rewrite positionToOffset_run, (clampPos_id _ _ Hq), len_text by assumption.
  rewrite Hsum. reflexivity.
Qed.

Lemma position_of_offset_roundtrip_witness :
  exists (q : Position) (text : str),
    getText exampleBuffer = (Ok text, exampleBuffer) /\
    offsetToPosition 5 exampleBuffer = (Ok q, exampleBuffer) /\
    inBounds (lines exampleBuffer) q /\
    positionToOffset q exampleBuffer = (Ok (Z.min 5 (len text)), exampleBuffer).
Proof.
  apply (position_of_offset_roundtrip exampleBuffer 5).
  - split; [vm_compute; discriminate | right; right; reflexivity].
  - reflexivity.
  - lia.
Defined.

(** X8. Outside the text [offsetToPosition] behaves in two ways: an offset
    at or past the end of the text gives the end of the last line, and a
    negative offset is not clamped: the result is line 0 with the offset
    itself as column. *)
Theorem offsetToPosition_outside_text (b : LineBuffer) (o : Z) :
  wf b ->
  (o < 0 -> offsetToPosition o b = (Ok (mkPosition 0 o), b)) /\
  (forall text, getText b = (Ok text, b) -> len text <= o ->
   offsetToPosition o b =
   (Ok (mkPosition (lineCount b - 1) (len (lineAt (lines b) (lineCount b - 1)))), b)).
Proof.
  intros Hwf. pose proof Hwf as [Hne Hsep]. unfold lineCount.
  assert (0 < Z.of_nat (length (lines b))) as Hlen
    by (destruct (lines b); [congruence | cbn [length]; lia]).
  split.
  - intros Ho. unfold offsetToPosition, bind, get.
    destruct (length (lines b)) as [|n] eqn:En; [lia|].
    cbn [offsetToPosition_loop]. unfold bind.
    rewrite getLineLength_run by lia.
    pose proof (lineLen_nonneg b 0).
    destruct (Z.gtb_spec (0 + lineLen b 0) o); [|lia].
    unfold ret. rewrite Z.sub_0_r. reflexivity.
  - intros text Etext Ho. injection Etext as <-.
    rewrite len_text in Ho by assumption.
    assert (0 <= o) as Ho0 by (pose proof (sumLens_nonneg b (length (lines b)) 0); lia).
    destruct (offsetToPosition_loop_any b o (length (lines b)) 0 0 ltac:(lia) ltac:(lia) Ho0)
      as (res & E & Hres).
    unfold offsetToPosition, bind, get. rewrite E.
    destruct res as [q|]; [|run_M; reflexivity].
    exfalso. destruct Hres as (Hl & Hsum & Hc).
    rewrite Z.sub_0_r, Z.add_0_l in Hsum.
    pose proof (sumLens_add b (Z.to_nat (line q)) (S (length (lines b) - S (Z.to_nat (line q)))) 0) as H.
    replace (Z.to_nat (line q) + S (length (lines b) - S (Z.to_nat (line q))))%nat
      with (length (lines b)) in H by lia.
    cbn [sumLens] in H.
    pose proof (sumLens_nonneg b (length (lines b) - S (Z.to_nat (line q)))
                  (0 + Z.of_nat (Z.to_nat (line q)) + 1)).
    rewrite Z2Nat.id in * by lia. rewrite Z.add_0_l in *. lia.
Qed.

Lemma offsetToPosition_outside_text_witness :
  (-3 < 0 -> offsetToPosition (-3) exampleBuffer = (Ok (mkPosition 0 (-3)), exampleBuffer)) /\
  (forall text, getText exampleBuffer = (Ok text, exampleBuffer) -> len text <= -3 ->
   offsetToPosition (-3) exampleBuffer =
   (Ok (mkPosition (lineCount exampleBuffer - 1)
          (len (lineAt (lines exampleBuffer) (lineCount exampleBuffer - 1)))), exampleBuffer)).
Proof.
  apply (offsetToPosition_outside_text exampleBuffer (-3)).
  split; [vm_compute; discriminate | right; right; reflexivity].
Defined.

Lemma sumLens_step (b : LineBuffer) (L L' : Z) :
  0 <= L < L' -> L' < Z.of_nat (length (lines b)) ->
  sumLens b (Z.to_nat L) 0 + lineLen b L <= sumLens b (Z.to_nat L') 0.
Proof.
  intros HL HL'.
  pose proof (sumLens_add b (Z.to_nat L) (S (Z.to_nat L' - S (Z.to_nat L))) 0) as H.
  replace (Z.to_nat L + S (Z.to_nat L' - S (Z.to_nat L)))%nat with (Z.to_nat L') in H by lia.
  cbn [sumLens] in H.
  pose proof (sumLens_nonneg b (Z.to_nat L' - S (Z.to_nat L)) (0 + Z.of_nat (Z.to_nat L) + 1)).
  rewrite Z2Nat.id in * by lia. rewrite Z.add_0_l in *. lia.
Qed.

(** X9. [positionToOffset] never leaves the text: for every position, also
    one outside the buffer, the offset lies between 0 and the length of the
    text; a position whose line and column are both at or below 0 gives 0,
    and a position on or after the last line, at a column at or past that
    line's length, gives the length of the text. *)
Theorem positionToOffset_within_text (b : LineBuffer) (p : Position) :
  lines b <> [] ->
  exists (off : Z) (text : str),
    positionToOffset p b = (Ok off, b) /\
    getText b = (Ok text, b) /\
    0 <= off <= len text /\
    (line p <= 0 -> column p <= 0 -> off = 0) /\
    (lineCount b - 1 <= line p -> len (lineAt (lines b) (lineCount b - 1)) <= column p ->
     off = len text).
Proof.
  intros Hne. unfold lineCount.
  assert (0 < Z.of_nat (length (lines b))) as Hlen
    by (destruct (lines b); [congruence | cbn [length]; lia]).
  eexists _, _. split; [apply positionToOffset_run; assumption|].
  split; [reflexivity|].
  rewrite len_text by assumption.
  destruct (clampPos_inBounds (lines b) p Hne) as [Hl Hc].
  pose proof (sumLens_prefix b _ Hl) as Hp.
  pose proof (sumLens_nonneg b (Z.to_nat (line (clampPos (lines b) p))) 0).
  split; [lia|]. split.
  - intros Hpl Hpc.
    assert (clampPos (lines b) p = mkPosition 0 0) as ->
      by (unfold clampPos, clampLine; f_equal; lia).
    reflexivity.
  - intros Hpl Hpc.
    assert (clampPos (lines b) p =
            mkPosition (Z.of_nat (length (lines b)) - 1)
              (len (lineAt (lines b) (Z.of_nat (length (lines b)) - 1)))) as ->.
    { unfold clampPos, clampLine.
      replace (Z.max 0 (Z.min (line p) (Z.of_nat (length (lines b)) - 1)))
        with (Z.of_nat (length (lines b)) - 1) by lia.
      f_equal. unfold len in *. lia. }
    cbn [line column]. symmetry. apply sumLens_all. assumption.
Qed.

Lemma positionToOffset_within_text_witness :
  exists (off : Z) (text : str),
    positionToOffset (mkPosition 9 9) exampleBuffer = (Ok off, exampleBuffer) /\
    getText exampleBuffer = (Ok text, exampleBuffer) /\
    0 <= off <= len text /\
    (9 <= 0 -> 9 <= 0 -> off = 0) /\
    (lineCount exampleBuffer - 1 <= 9 ->
     len (lineAt (lines exampleBuffer) (lineCount exampleBuffer - 1)) <= 9 ->
     off = len text).
Proof.
  apply (positionToOffset_within_text exampleBuffer (mkPosition 9 9)).
  vm_compute. discriminate.
Defined.

(** X10. [positionToOffset] keeps the order of the positions of a buffer:
    of two positions of the buffer, the one on an earlier line, or on the
    same line at a smaller column, has the strictly smaller offset; two
    positions with the same offset are the same position. *)
Theorem positionToOffset_strictly_increasing (b : LineBuffer) (p q : Position) :
  wf b -> inBounds (lines b) p -> inBounds (lines b) q ->
  exists (op oq : Z),
    positionToOffset p b = (Ok op, b) /\
    positionToOffset q b = (Ok oq, b) /\
    (line p < line q \/ (line p = line q /\ column p < column q) -> op < oq) /\
    (op = oq -> p = q).
Proof.
  intros [Hne Hsep] Hp Hq.
  assert (1 <= len (_lineEndings b)) as Hsl
    by (destruct Hsep as [-> | [-> | ->]]; unfold len; simpl; lia).
  eexists _, _. rewrite !positionToOffset_run by assumption.
  rewrite (clampPos_id _ _ Hp), (clampPos_id _ _ Hq).
  split; [reflexivity|]. split; [reflexivity|].
  assert (forall x y : Position, inBounds (lines b) x -> inBounds (lines b) y ->
            line x < line y ->
            sumLens b (Z.to_nat (line x)) 0 + column x < sumLens b (Z.to_nat (line y)) 0 + column y)
    as Hlt.
  { intros x y [Hxl Hxc] [Hyl Hyc] Hxy.
    pose proof (sumLens_step b (line x) (line y) ltac:(lia) ltac:(lia)) as Hs.
    unfold lineLen in Hs.
    destruct (Z.eqb_spec (line x) (Z.of_nat (length (lines b)) - 1)); lia. }
  split.
  - intros [Hl | [Hl Hc]]; [apply Hlt; assumption|]. rewrite Hl. lia.
  - intros Heq.
    destruct (Z.lt_trichotomy (line p) (line q)) as [Hl | [Hl | Hl]].
    + pose proof (Hlt p q Hp Hq Hl). lia.
    + rewrite Hl in Heq. destruct p as [pl pc], q as [ql qc]. cbn [line column] in *. f_equal; lia.
    + pose proof (Hlt q p Hq Hp Hl). lia.
Qed.

Lemma positionToOffset_strictly_increasing_witness :
  exists (op oq : Z),
    positionToOffset (mkPosition 0 3) exampleBuffer = (Ok op, exampleBuffer) /\
    positionToOffset (mkPosition 1 0) exampleBuffer = (Ok oq, exampleBuffer) /\
    (0 < 1 \/ (0 = 1 /\ 3 < 0) -> op < oq) /\
    (op = oq -> mkPosition 0 3 = mkPosition 1 0).
Proof.
  apply (positionToOffset_strictly_increasing exampleBuffer (mkPosition 0 3) (mkPosition 1 0)).
  - split; [vm_compute; discriminate | right; right; reflexivity].
  - vm_compute. intuition discriminate.
  - vm_compute. intuition discriminate.
Defined.

(** *** Queries *)

Lemma readOnly_ret {S A : Type} (a : A) : readOnly (ret a : M S A).
Proof. intros s. reflexivity. Qed.

Lemma readOnly_throw {S A : Type} (e : JsError) : readOnly (throw e : M S A).
Proof. intros s. reflexivity. Qed.

Lemma readOnly_get {S : Type} : readOnly (get : M S S).
Proof. intros s. reflexivity. Qed.

Lemma readOnly_deref {S A : Type} (o : option A) : readOnly (deref o : M S A).
Proof. destruct o; intros s; reflexivity. Qed.

Lemma readOnly_bind {S A B : Type} (m : M S A) (k : A -> M S B) :
  readOnly m -> (forall a, readOnly (k a)) -> readOnly (bind m k).
Proof.
  intros Hm Hk s. unfold bind. pose proof (Hm s) as Hs.
  destruct (m s) as [[a | e |] s']; cbn [snd] in Hs; subst s'; [apply Hk | reflexivity | reflexivity].
Qed.

Ltac readOnly_step :=
  first [ apply readOnly_bind; [| intros ?]
        | apply readOnly_ret | apply readOnly_throw | apply readOnly_get | apply readOnly_deref ].

Lemma readOnly_validatePosition (p : Position) : readOnly (validatePosition p).
Proof. unfold validatePosition. repeat readOnly_step. Qed.

Lemma readOnly_validateRange (r : Range) : readOnly (validateRange r).
Proof.
  unfold validateRange.
  apply readOnly_bind; [apply readOnly_validatePosition | intros s].
  apply readOnly_bind; [apply readOnly_validatePosition | intros e].
  destruct (_ || _); apply readOnly_ret.
Qed.

Lemma readOnly_getTextRange (r : Range) : readOnly (getTextRange r).
Proof.
  unfold getTextRange.
  apply readOnly_bind; [apply readOnly_validateRange | intros v].
  apply readOnly_bind; [apply readOnly_get | intros b].
  destruct (_ =? _); repeat readOnly_step.
Qed.

Lemma readOnly_getText : readOnly getText.
Proof. unfold getText. repeat readOnly_step. Qed.

Lemma readOnly_getLineContent (i : Z) : readOnly (getLineContent i).
Proof.
  unfold getLineContent. apply readOnly_bind; [apply readOnly_get | intros b].
  destruct (_ || _); [apply readOnly_throw | apply readOnly_deref].
Qed.

Lemma readOnly_getLineLength (i : Z) : readOnly (getLineLength i).
Proof.
  unfold getLineLength. apply readOnly_bind; [apply readOnly_getLineContent | intros c].
  repeat readOnly_step.
Qed.

Lemma readOnly_positionToOffset_loop (n : nat) :
  forall i acc, readOnly (positionToOffset_loop n i acc).
Proof.
  induction n as [|n IH]; intros i acc; cbn [positionToOffset_loop]; [apply readOnly_ret|].
  apply readOnly_bind; [apply readOnly_getLineLength | intros l; apply IH].
Qed.

Lemma readOnly_positionToOffset (p : Position) : readOnly (positionToOffset p).
Proof.
  unfold positionToOffset.
  apply readOnly_bind; [apply readOnly_validatePosition | intros v].
  apply readOnly_bind; [apply readOnly_positionToOffset_loop | intros o; apply readOnly_ret].
Qed.

Lemma readOnly_offsetToPosition_loop (n : nat) (o : Z) :
  forall i cur, readOnly (offsetToPosition_loop n i cur o).
Proof.
  induction n as [|n IH]; intros i cur; cbn [offsetToPosition_loop]; [apply readOnly_ret|].
  apply readOnly_bind; [apply readOnly_getLineLength | intros l].
  destruct (_ >? _); [apply readOnly_ret | apply IH].
Qed.

Lemma readOnly_offsetToPosition (o : Z) : readOnly (offsetToPosition o).
Proof.
  unfold offsetToPosition.
  apply readOnly_bind; [apply readOnly_get | intros b].
  apply readOnly_bind; [apply readOnly_offsetToPosition_loop | intros [q|]];
    repeat readOnly_step.
Qed.

Lemma readOnly_getWordRangeAtPosition (fuel : nat) (p : Position) (w : option RegExp) :
  readOnly (getWordRangeAtPosition fuel p w).
Proof.
  unfold getWordRangeAtPosition.
  apply readOnly_bind; [apply readOnly_validatePosition | intros v].
  apply readOnly_bind; [apply readOnly_get | intros b].
  destruct (lines_at b (line v)); [|apply readOnly_ret].
  destruct (_ || _); [apply readOnly_ret|]. intros s. reflexivity.
Qed.

Section Queries.

Variable RegExp_new : str -> str -> option RegExp.

Lemma readOnly_findNext (t : str) (p : Position) (o : FindOptions) :
  readOnly (findNext RegExp_new t p o).
Proof.
  unfold findNext. destruct (compilePattern RegExp_new t o) as [r|]; [|apply readOnly_ret].
  apply readOnly_bind; [apply readOnly_positionToOffset | intros off].
  apply readOnly_bind; [apply readOnly_getText | intros text].
  destruct (snd _) as [[a n]|]; [|apply readOnly_ret].
  apply readOnly_bind; [apply readOnly_offsetToPosition | intros s].
  apply readOnly_bind; [apply readOnly_offsetToPosition | intros e].
  apply readOnly_ret.
Qed.

Lemma readOnly_findAll_loop (t : str) (o : FindOptions) (fuel : nat) :
  forall ranges p, readOnly (findAll_loop RegExp_new fuel t o ranges p).
Proof.
  induction fuel as [|fuel IH]; intros ranges p; cbn [findAll_loop]; [intros s; reflexivity|].
  apply readOnly_bind; [apply readOnly_findNext | intros [r|]]; [apply IH | apply readOnly_ret].
Qed.

(** X11. The querying methods never change the buffer: whatever the state
    of the buffer, the arguments and the outcome (a result, a thrown error
    or a search that does not end), the lines, the version and the line
    ending after the call are those before it. *)
Theorem queries_leave_buffer_alone :
  readOnly getText /\
  (forall i, readOnly (getLineContent i)) /\
  (forall i, readOnly (getLineLength i)) /\
  (forall p, readOnly (validatePosition p)) /\
  (forall r, readOnly (validateRange r)) /\
  (forall r, readOnly (getTextRange r)) /\
  (forall p, readOnly (positionToOffset p)) /\
  (forall o, readOnly (offsetToPosition o)) /\
  (forall fuel p w, readOnly (getWordRangeAtPosition fuel p w)) /\
  (forall t p o, readOnly (findNext RegExp_new t p o)) /\
  (forall fuel t o, readOnly (findAll RegExp_new fuel t o)).
Proof.
  split; [apply readOnly_getText|].
  split; [apply readOnly_getLineContent|].
  split; [apply readOnly_getLineLength|].
  split; [apply readOnly_validatePosition|].
  split; [apply readOnly_validateRange|].
  split; [apply readOnly_getTextRange|].
  split; [apply readOnly_positionToOffset|].
  split; [apply readOnly_offsetToPosition|].
  split; [apply readOnly_getWordRangeAtPosition|].
  split; [apply readOnly_findNext|].
  intros fuel t o. apply readOnly_findAll_loop.
Qed.

(** *** Searches that end *)

End Queries.

Section SearchesEnd.

Variable RegExp_new : str -> str -> option RegExp.

Lemma positionToOffset_bounds (b : LineBuffer) (p : Position) :
  lines b <> [] ->
  exists off, positionToOffset p b = (Ok off, b) /\
              0 <= off <= len (join (_lineEndings b) (lines b)).
Proof.
  intros Hne. eexists. split; [apply positionToOffset_run; assumption|].
  rewrite len_text by assumption.
  destruct (clampPos_inBounds (lines b) p Hne) as [Hl Hc].
  pose proof (sumLens_prefix b _ Hl).
  pose proof (sumLens_nonneg b (Z.to_nat (line (clampPos (lines b) p))) 0).
  lia.
Qed.

(** One call of [findNext] with a global pattern whose matches lie inside
    the text, in a buffer with a line ending of one character. *)
Lemma findNext_step (searchText : str) (options : FindOptions) (r : RegExp)
  (b : LineBuffer) (p : Position) (off : Z) :
  wf b -> len (_lineEndings b) = 1 ->
  compilePattern RegExp_new searchText options = Some r ->
  global r = true ->
  matchesInside r (join (_lineEndings b) (lines b)) ->
  positionToOffset p b = (Ok off, b) ->
  findNext RegExp_new searchText p options b = (Ok None, b) \/
  exists (s e : Position) (os oe : Z),
    findNext RegExp_new searchText p options b = (Ok (Some (mkRange s e)), b) /\
    inBounds (lines b) s /\ inBounds (lines b) e /\
    positionToOffset s b = (Ok os, b) /\
    positionToOffset e b = (Ok oe, b) /\
    off <= os /\ os < oe.
Proof.
  intros Hwf Hone Hcomp Hglobal Hinside Hoff. pose proof Hwf as [Hne Hsep].
  destruct (positionToOffset_bounds b p Hne) as (off' & Eoff & Hb).
  rewrite Hoff in Eoff. injection Eoff as <-.
  set (text := join (_lineEndings b) (lines b)) in *.
  assert (findNext RegExp_new searchText p options b =
          match matcher r text off with
          | None => (Ok None, b)
          | Some (a, n) =>
            (let* matchStart := offsetToPosition a in
             let* matchEnd := offsetToPosition (a + n) in
             ret (Some (mkRange matchStart matchEnd))) b
          end) as Hfn.
  { unfold findNext. rewrite Hcomp. unfold bind at 1. rewrite Hoff.
    unfold bind at 1. unfold getText at 1. unfold bind at 1, get at 1, ret at 1.
    fold text.
    unfold exec. cbn [global lastIndex set_lastIndex matcher]. rewrite Hglobal.
    replace (Z.max 0 off) with off by lia.
    destruct (Z.gtb_spec off (len text)); [lia|].
    destruct (matcher r text off) as [[a n]|]; reflexivity. }
  rewrite Hfn.
  destruct (matcher r text off) as [[a n]|] eqn:Em; [|left; reflexivity].
  right.
  destruct (Hinside off a n Hb Em) as (Ha & Hn & Han).
  destruct (offsetToPosition_back b a Hwf Hone ltac:(lia)) as (s & Es & Hs & Hsum_s).
  destruct (offsetToPosition_back b (a + n) Hwf Hone ltac:(lia)) as (e & Ee & He & Hsum_e).
  unfold text in Han. rewrite len_text in Han by assumption.
  exists s, e, a, (a + n).
  unfold bind. rewrite Es, Ee.
  split; [reflexivity|]. split; [assumption|]. split; [assumption|].
  rewrite !positionToOffset_run by assumption.
  rewrite (clampPos_id _ _ Hs), (clampPos_id _ _ He), Hsum_s, Hsum_e.
  split; [f_equal; f_equal; lia|]. split; [f_equal; f_equal; lia|]. lia.
Qed.

Lemma findAll_loop_ends (searchText : str) (options : FindOptions) (r : RegExp)
  (b : LineBuffer) :
  wf b -> len (_lineEndings b) = 1 ->
  compilePattern RegExp_new searchText options = Some r ->
  global r = true ->
  matchesInside r (join (_lineEndings b) (lines b)) ->
  forall (fuel : nat) (ranges : list Range) (p : Position) (off : Z),
  positionToOffset p b = (Ok off, b) ->
  len (join (_lineEndings b) (lines b)) - off < Z.of_nat fuel ->
  exists found,
    findAll_loop RegExp_new fuel searchText options ranges p b = (Ok (ranges ++ found), b) /\
    Forall (fun x => inBounds (lines b) (start x) /\ inBounds (lines b) (end_ x) /\
                     start x <> end_ x) found /\
    Z.of_nat (length found) <= len (join (_lineEndings b) (lines b)) - off.
Proof.
  intros Hwf Hone Hcomp Hglobal Hinside.
  induction fuel as [|fuel IH]; intros ranges p off Hoff Hfuel.
  - destruct (positionToOffset_bounds b p (wf_lines b Hwf)) as (off' & Eoff & Hb).
    rewrite Hoff in Eoff. injection Eoff as <-. lia.
  - cbn [findAll_loop]. unfold bind.
    destruct (positionToOffset_bounds b p (wf_lines b Hwf)) as (off' & Eoff & Hb).
    rewrite Hoff in Eoff. injection Eoff as <-.
    destruct (findNext_step searchText options r b p off Hwf Hone Hcomp Hglobal Hinside Hoff)
      as [E | (s & e & os & oe & E & Hs & He & Eos & Eoe & Hle & Hlt)]; rewrite E.
    + exists []. rewrite app_nil_r. split; [reflexivity|]. split; [constructor | cbn [length]; lia].
    + cbn [end_].
      destruct (positionToOffset_bounds b e (wf_lines b Hwf)) as (oe' & Eoe' & Hbe).
      rewrite Eoe in Eoe'. injection Eoe' as <-.
      destruct (IH (ranges ++ [mkRange s e]) e oe Eoe ltac:(lia)) as (found & Ef & Hf & Hn).
      exists (mkRange s e :: found).
      split; [rewrite Ef, <- app_assoc; reflexivity|].
      split; [|cbn [length]; lia].
      constructor; [|exact Hf]. cbn [start end_].
      split; [assumption|]. split; [assumption|].
      intros ->. rewrite Eos in Eoe. injection Eoe as ->. lia.
Qed.

(** X12. [findAll] ends when matches cannot be empty: in a buffer whose
    line ending is one character, with a global pattern whose matches on the
    text are not empty and lie inside the text, [findAll] returns once its
    loop may run one more time than the text has characters. It leaves the
    buffer alone, and every range it returns has its two ends in the buffer
    and is not empty; there are at most as many as the text has characters. *)
Theorem findAll_ends_on_nonempty_matches (searchText : str) (options : FindOptions)
  (r : RegExp) (b : LineBuffer) (text : str) (fuel : nat) :
  wf b -> len (lineEndings b) = 1 ->
  compilePattern RegExp_new searchText options = Some r ->
  global r = true ->
  getText b = (Ok text, b) ->
  matchesInside r text ->
  len text < Z.of_nat fuel ->
  exists found,
    findAll RegExp_new fuel searchText options b = (Ok found, b) /\
    Forall (fun x => inBounds (lines b) (start x) /\ inBounds (lines b) (end_ x) /\
                     start x <> end_ x) found /\
    Z.of_nat (length found) <= len text.
Proof.
  intros Hwf Hone Hcomp Hglobal Etext Hinside Hfuel.
  injection Etext as <-.
  assert (positionToOffset (mkPosition 0 0) b = (Ok 0, b)) as E0.
  { rewrite positionToOffset_run by apply Hwf.
    assert (clampPos (lines b) (mkPosition 0 0) = mkPosition 0 0) as ->; [|reflexivity].
    unfold clampPos, clampLine. cbn [line column].
    assert (0 < Z.of_nat (length (lines b)))
      by (destruct Hwf as [Hne _]; destruct (lines b); [congruence | cbn [length]; lia]).
    unfold len. f_equal; lia. }
  destruct (findAll_loop_ends searchText options r b Hwf Hone Hcomp Hglobal Hinside
              fuel [] (mkPosition 0 0) 0 E0 ltac:(lia)) as (found & Ef & Hf & Hn).
  exists found. split; [exact Ef|]. split; [exact Hf | lia].
Qed.

End SearchesEnd.

Lemma startsWithBy_length (eqc : ascii -> ascii -> bool) (p : str) :
  forall s, startsWithBy eqc p s = true -> (length p <= length s)%nat.
Proof.
  induction p as [|a p IH]; intros s H; [cbn [length]; lia|].
  destruct s as [|c s]; [discriminate|]. cbn [startsWithBy] in H.
  apply andb_true_iff in H as [_ H]. apply IH in H. cbn [length]. lia.
Qed.

Lemma searchFrom_inside (eqc : ascii -> ascii -> bool) (p : str) :
  forall s i k, searchFrom eqc p s i = Some k ->
  (i <= k)%nat /\ (k - i + length p <= length s)%nat.
Proof.
  induction s as [|c s IH]; intros i k H.
  - cbn [searchFrom] in H. destruct (startsWithBy eqc p []) eqn:E; [|discriminate].
    injection H as <-. apply startsWithBy_length in E. lia.
  - cbn [searchFrom] in H. destruct (startsWithBy eqc p (c :: s)) eqn:E.
    + injection H as <-. apply startsWithBy_length in E. lia.
    + apply IH in H. cbn [length]. lia.
Qed.

(** The stand-in engine reports matches inside the text; they are not empty
    when the pattern is not. *)
Lemma literalMatcher_inside (ignoreCase glob : bool) (p : str) (li : Z) (text : str) :
  p <> [] -> matchesInside (mkRegExp (literalMatcher ignoreCase p) glob li) text.
Proof.
  intros Hp i a n Hi H. cbn [matcher] in H. unfold literalMatcher in H.
  destruct (searchFrom _ p _ _) as [k|] eqn:E; [|discriminate].
  injection H as <- <-. apply searchFrom_inside in E as [H1 H2].
  rewrite length_drop in H2. unfold len in *.
  assert (0 < length p)%nat by (destruct p; [congruence | cbn [length]; lia]).
  lia.
Qed.

Lemma findAll_ends_on_nonempty_matches_witness :
  exists found,
    findAll literal_RegExp_new 18 (lit "hello") noOptions (bufferOf (lit "Hello hello HELLO"))
    = (Ok found, bufferOf (lit "Hello hello HELLO")) /\
    Forall (fun x => inBounds (lines (bufferOf (lit "Hello hello HELLO"))) (start x) /\
                     inBounds (lines (bufferOf (lit "Hello hello HELLO"))) (end_ x) /\
                     start x <> end_ x) found /\
    Z.of_nat (length found) <= len (lit "Hello hello HELLO").
Proof.
  apply (findAll_ends_on_nonempty_matches literal_RegExp_new (lit "hello") noOptions
           (mkRegExp (literalMatcher true (lit "hello")) true 0)
           (bufferOf (lit "Hello hello HELLO")) (lit "Hello hello HELLO") 18).
  - split; [vm_compute; discriminate | right; right; reflexivity].
  - reflexivity.
  - reflexivity.
  - reflexivity.
  - reflexivity.
  - apply literalMatcher_inside. discriminate.
  - vm_compute. reflexivity.
Defined.

(** *** The two stacks of the history *)

Lemma snoc_cases {A : Type} (l : list A) : l = [] \/ exists u c, l = u ++ [c].
Proof.
  destruct l as [|x l'] using rev_ind; [left; reflexivity | right; eauto].
Qed.

Section HistoryStacks.

Context {W C : Type} `{UndoableCommand W C}.

Lemma CommandHistory_undo_empty (h : CommandHistory C) (w : W) :
  undoStack h = [] -> CommandHistory_undo (h, w) = (Ok false, (h, w)).
Proof.
  intros E. unfold CommandHistory_undo, canUndo, bind, get. cbn [fst]. rewrite E. reflexivity.
Qed.

Lemma CommandHistory_redo_empty (h : CommandHistory C) (w : W) :
  redoStack h = [] -> CommandHistory_redo (h, w) = (Ok false, (h, w)).
Proof.
  intros E. unfold CommandHistory_redo, canRedo, bind, get. cbn [fst]. rewrite E. reflexivity.
Qed.

(** X13. The history never holds more commands than [maxStackSize]: when
    the two stacks together hold at most that many, they still do after
    [execute], [undo], [redo] and [clear], whatever the outcome of the call,
    and the bound itself is never changed. *)
Theorem history_size_bounded (h : CommandHistory C) (w : W) (c : C) :
  0 <= maxStackSize h ->
  undoStackSize h + redoStackSize h <= maxStackSize h ->
  let bounded (s : CommandHistory C * W) :=
    maxStackSize (fst s) = maxStackSize h /\
    undoStackSize (fst s) + redoStackSize (fst s) <= maxStackSize h in
  bounded (snd (CommandHistory_execute c (h, w))) /\
  bounded (snd (CommandHistory_undo (h, w))) /\
  bounded (snd (CommandHistory_redo (h, w))) /\
  bounded (snd (CommandHistory_clear (h, w))).
Proof.
  intros Hm Hb bounded. unfold bounded, undoStackSize, redoStackSize in *. clear bounded.
  destruct h as [u r m]. cbn [undoStack redoStack maxStackSize] in *.
  split; [|split; [|split]].
  - rewrite CommandHistory_execute_run. cbn [undoStack redoStack maxStackSize].
    destruct (execute c w) as [[x|e|] w']; cbn [snd fst undoStack redoStack maxStackSize];
      try (split; [reflexivity | lia]).
    rewrite length_app. cbn [length].
    destruct (Z.gtb_spec (Z.of_nat (length u + 1)) m).
    + split; [reflexivity|].
      destruct u as [|x0 u']; cbn [app tail length]; [lia|].
      rewrite length_app. cbn [length] in *. lia.
    + rewrite length_app. cbn [length]. lia.
  - destruct (snoc_cases u) as [-> | (u' & c' & ->)].
    + rewrite CommandHistory_undo_empty by reflexivity. cbn [snd fst undoStack redoStack maxStackSize].
      split; [reflexivity | lia].
    + rewrite CommandHistory_undo_run. rewrite length_app in Hb. cbn [length] in Hb.
      destruct (undo c' w) as [[x|e|] w']; cbn [snd fst undoStack redoStack maxStackSize];
        rewrite ?length_app; cbn [length]; (split; [reflexivity | lia]).
  - destruct (snoc_cases r) as [-> | (r' & c' & ->)].
    + rewrite CommandHistory_redo_empty by reflexivity. cbn [snd fst undoStack redoStack maxStackSize].
      split; [reflexivity | lia].
    + rewrite CommandHistory_redo_run. rewrite length_app in Hb. cbn [length] in Hb.
      destruct (redo c' w) as [[x|e|] w']; cbn [snd fst undoStack redoStack maxStackSize];
        rewrite ?length_app; cbn [length]; (split; [reflexivity | lia]).
  - cbn. split; [reflexivity | lia].
Qed.

(** X14. [undo] moves the newest command of the undo stack to the top of
    the redo stack, and a [redo] right after it moves it back: when both
    calls return, both return [true] and the two stacks are as they were
    before the [undo]. *)
Theorem undo_then_redo_restores_stacks (h h1 h2 : CommandHistory C) (w w1 w2 : W)
  (res res' : bool) :
  undoStack h <> [] ->
  CommandHistory_undo (h, w) = (Ok res, (h1, w1)) ->
  CommandHistory_redo (h1, w1) = (Ok res', (h2, w2)) ->
  res = true /\ res' = true /\ h2 = h /\
  exists c, undoStack h = undoStack h1 ++ [c] /\ redoStack h1 = redoStack h ++ [c].
Proof.
  intros Hne E E2.
  destruct h as [u r m]. cbn [undoStack redoStack] in *.
  destruct (snoc_cases u) as [-> | (u' & c & ->)]; [congruence|].
  rewrite CommandHistory_undo_run in E.
  destruct (undo c w) as [[x|e|] w'] eqn:Eu; try discriminate.
  injection E as <- <- <-. cbn [undoStack redoStack].
  rewrite CommandHistory_redo_run in E2.
  destruct (redo c w') as [[x'|e'|] w''] eqn:Er; try discriminate.
  injection E2 as <- <- <-.
  split; [reflexivity|]. split; [reflexivity|]. split; [reflexivity|].
  exists c. split; reflexivity.
Qed.

(** X15. With nothing to undo, [undo] returns [false], calls no command and
    leaves the stacks and the document as they are; likewise [redo] with
    nothing to redo. *)
Theorem undo_redo_nothing_to_do (h : CommandHistory C) (w : W) :
  (undoStack h = [] ->
   canUndo h = false /\ CommandHistory_undo (h, w) = (Ok false, (h, w))) /\
  (redoStack h = [] ->
   canRedo h = false /\ CommandHistory_redo (h, w) = (Ok false, (h, w))).
Proof.
  split; intros E.
  - split; [unfold canUndo; rewrite E; reflexivity | apply CommandHistory_undo_empty; exact E].
  - split; [unfold canRedo; rewrite E; reflexivity | apply CommandHistory_redo_empty; exact E].
Qed.

End HistoryStacks.

Lemma history_size_bounded_witness :
  let h := historyWithRedo in
  let bounded (s : CommandHistory nat * World) :=
    maxStackSize (fst s) = maxStackSize h /\
    undoStackSize (fst s) + redoStackSize (fst s) <= maxStackSize h in
  bounded (snd (CommandHistory_execute 0%nat (h, threeCommandsWorld))) /\
  bounded (snd (CommandHistory_undo (h, threeCommandsWorld))) /\
  bounded (snd (CommandHistory_redo (h, threeCommandsWorld))) /\
  bounded (snd (CommandHistory_clear (h, threeCommandsWorld))).
Proof.
  apply (history_size_bounded historyWithRedo threeCommandsWorld 0%nat).
  - vm_compute. discriminate.
  - vm_compute. discriminate.
Defined.

Lemma undo_then_redo_restores_stacks_witness :
  let s0 := (CommandHistory_new 10, threeCommandsWorld) in
  let s1 := snd (CommandHistory_execute 0%nat s0) in
  let s2 := snd (CommandHistory_undo s1) in
  let s3 := snd (CommandHistory_redo s2) in
  true = true /\ true = true /\ fst s3 = fst s1 /\
  exists c, undoStack (fst s1) = undoStack (fst s2) ++ [c] /\
            redoStack (fst s2) = redoStack (fst s1) ++ [c].
Proof.
  cbv zeta.
  apply (undo_then_redo_restores_stacks
           (fst (snd (CommandHistory_execute 0%nat (CommandHistory_new 10, threeCommandsWorld))))
           (fst (snd (CommandHistory_undo
                        (snd (CommandHistory_execute 0%nat (CommandHistory_new 10, threeCommandsWorld))))))
           (fst (snd (CommandHistory_redo
                        (snd (CommandHistory_undo
                                (snd (CommandHistory_execute 0%nat
                                        (CommandHistory_new 10, threeCommandsWorld))))))))
           (snd (snd (CommandHistory_execute 0%nat (CommandHistory_new 10, threeCommandsWorld))))
           (snd (snd (CommandHistory_undo
                        (snd (CommandHistory_execute 0%nat (CommandHistory_new 10, threeCommandsWorld))))))
           (snd (snd (CommandHistory_redo
                        (snd (CommandHistory_undo
                                (snd (CommandHistory_execute 0%nat
                                        (CommandHistory_new 10, threeCommandsWorld))))))))
           true true).
  - vm_compute. discriminate.
  - vm_compute. reflexivity.
  - vm_compute. reflexivity.
Defined.

Lemma undo_redo_nothing_to_do_witness :
  CommandHistory_undo (CommandHistory_new 1000, threeCommandsWorld)
  = (Ok false, (CommandHistory_new 1000, threeCommandsWorld)) /\
  CommandHistory_redo (CommandHistory_new 1000, threeCommandsWorld)
  = (Ok false, (CommandHistory_new 1000, threeCommandsWorld)).
Proof.
  destruct (undo_redo_nothing_to_do (CommandHistory_new 1000) threeCommandsWorld) as [Hu Hr].
  split; [apply Hu | apply Hr]; reflexivity.
Defined.

(** *** Text edit commands *)

(** X16. The guards of a text edit command: [undo] on a command that is
    not executed and [redo] on a command that is not undone do nothing at
    all, and [redo] on an undone command is [execute]. [execute] leaves the
    command executed and not undone, with the text [getTextRange] read in
    its range before the edit as [previousText] and the range [replaceText]
    returned as [actualRange]; its range and its text are never changed. *)
Theorem TextEditCommand_guards (c : nat) (w : World) (o : TextEditCommand) :
  lines (buffer w) <> [] ->
  objects w !! c = Some o ->
  (executed o = false -> TextEditCommand_undo c w = (Ok tt, w)) /\
  (undone o = false -> TextEditCommand_redo c w = (Ok tt, w)) /\
  (undone o = true -> TextEditCommand_redo c w = TextEditCommand_execute c w) /\
  exists (w' : World) (o' : TextEditCommand),
    TextEditCommand_execute c w = (Ok tt, w') /\
    objects w' !! c = Some o' /\
    executed o' = true /\ undone o' = false /\
    range o' = range o /\ newText o' = newText o /\
    fst (getTextRange (range o) (buffer w)) = Ok (previousText o') /\
    replaceText (range o) (newText o) (buffer w) = (Ok (actualRange o'), buffer w').
Proof.
  intros Hne Ho. destruct w as [b objs]. cbn [buffer objects] in *.
  split; [|split; [|split]].
  - intros He. unfold TextEditCommand_undo, bind, this_. cbn [objects]. rewrite Ho, He. reflexivity.
  - intros Hu. unfold TextEditCommand_redo, bind, this_. cbn [objects]. rewrite Ho, Hu. reflexivity.
  - intros Hu. rewrite (TextEditCommand_redo_run c b objs o Hne Ho Hu).
    rewrite (TextEditCommand_execute_run c b objs o Hne Ho). reflexivity.
  - eexists _, _. split; [apply (TextEditCommand_execute_run c b objs o Hne Ho)|].
    cbn [objects buffer]. split; [apply lookup_insert_eq|].
    unfold executedCmd. cbn [executed undone range newText previousText actualRange fst snd].
    repeat (split; [reflexivity|]).
    split; [rewrite getTextRange_run by assumption; reflexivity|].
    apply replaceText_run. assumption.
Qed.

Lemma TextEditCommand_guards_witness :
  let o := TextEditCommand_new (mkRange (mkPosition 0 1) (mkPosition 0 1)) (lit "X") in
  (executed o = false -> TextEditCommand_undo 0%nat threeCommandsWorld = (Ok tt, threeCommandsWorld)) /\
  (undone o = false -> TextEditCommand_redo 0%nat threeCommandsWorld = (Ok tt, threeCommandsWorld)) /\
  (undone o = true ->
   TextEditCommand_redo 0%nat threeCommandsWorld = TextEditCommand_execute 0%nat threeCommandsWorld) /\
  exists (w' : World) (o' : TextEditCommand),
    TextEditCommand_execute 0%nat threeCommandsWorld = (Ok tt, w') /\
    objects w' !! 0%nat = Some o' /\
    executed o' = true /\ undone o' = false /\
    range o' = range o /\ newText o' = newText o /\
    fst (getTextRange (range o) (buffer threeCommandsWorld)) = Ok (previousText o') /\
    replaceText (range o) (newText o) (buffer threeCommandsWorld) = (Ok (actualRange o'), buffer w').
Proof.
  apply (TextEditCommand_guards 0%nat threeCommandsWorld
           (TextEditCommand_new (mkRange (mkPosition 0 1) (mkPosition 0 1)) (lit "X"))).
  - vm_compute. discriminate.
  - vm_compute. reflexivity.
Defined.

Lemma delLines_empty (ls : list str) (q : Position) :
  inBounds ls q -> delLines ls q q = ls.
Proof.
  intros [Hl Hc]. unfold delLines. rewrite take_drop. cbn [app].
  symmetry. apply lines_split. assumption.
Qed.

Lemma insLines_empty (ls : list str) (q : Position) :
  inBounds ls q -> insLines ls q [[]] = ls.
Proof.
  intros [Hl Hc]. unfold insLines, glue. cbn [app]. rewrite take_drop.
  symmetry. apply lines_split. assumption.
Qed.

Lemma replaceLines_insert (ls : list str) (p : Position) (t : str) :
  ls <> [] ->
  normRange ls (mkRange p p) = mkRange (clampPos ls p) (clampPos ls p) /\
  replaceLines ls (mkRange p p) t = insLines ls (clampPos ls p) (splitLines t) /\
  replaceRange ls (mkRange p p) t =
    mkRange (clampPos ls p) (insEnd (clampPos ls p) (splitLines t)).
Proof.
  intros Hne. pose proof (clampPos_inBounds ls p Hne) as Hq.
  assert (normRange ls (mkRange p p) = mkRange (clampPos ls p) (clampPos ls p)) as En.
  { unfold normRange. cbn [start end_].
    destruct (_ || _); reflexivity. }
  split; [exact En|].
  unfold replaceLines, replaceRange. rewrite En. cbn [start end_].
  rewrite (delLines_empty _ _ Hq).
  assert (clampPos ls p = clampPos ls (clampPos ls p)) as Eq by (symmetry; apply clampPos_id; exact Hq).
  split; reflexivity.
Qed.

Lemma rangeText_empty (sep : str) (ls : list str) (q : Position) :
  inBounds ls q -> rangeText sep ls q q = [].
Proof.
  intros [Hl Hc]. unfold rangeText. rewrite Z.eqb_refl.
  rewrite substring_take_drop by lia. rewrite Nat.sub_diag. reflexivity.
Qed.

Lemma replaceLines_remove_inserted (sep : str) (ls : list str) (q : Position) (segs : list str) :
  inBounds ls q -> segs <> [] ->
  replaceLines (insLines ls q segs) (mkRange q (insEnd q segs)) [] = ls.
Proof.
  intros Hq Hsegs.
  destruct (insLines_facts ls q segs Hq Hsegs) as (Hne1 & Hq1 & He1 & Hle1 & Hdel).
  unfold replaceLines. rewrite (normRange_id _ _ _ Hq1 He1 Hle1). cbn [start end_].
  rewrite Hdel, (clampPos_id _ _ Hq). cbn [splitLines]. apply insLines_empty. exact Hq.
Qed.

(** X17. A command made by [createInsertTextCommand] can always be undone
    exactly, wherever its position lies, also outside the buffer: run
    through the history, [execute] changes the lines as [insertText] at that
    position does, [undo] gives back the original lines and text, and
    [redo] gives the lines [execute] gave. *)
Theorem insert_command_undo_exact (h : CommandHistory nat) (w : World) (c : nat)
  (position : Position) (text : str) :
  lines (buffer w) <> [] ->
  objects w !! c = Some (createInsertTextCommand position text) ->
  1 <= maxStackSize h ->
  exists s1 s2 s3,
    CommandHistory_execute c (h, w) = (Ok tt, s1) /\
    lines (buffer (snd s1)) = lines (snd (insertText position text (buffer w))) /\
    CommandHistory_undo s1 = (Ok true, s2) /\
    lines (buffer (snd s2)) = lines (buffer w) /\
    textOf s2 = textOf (h, w) /\
    CommandHistory_redo s2 = (Ok true, s3) /\
    lines (buffer (snd s3)) = lines (buffer (snd s1)).
Proof.
  intros Hne Ho Hm. destruct w as [[ls v sep] objs]. cbn [buffer objects lines] in *.
  destruct h as [u r m]. cbn [maxStackSize] in Hm.
  pose proof (clampPos_inBounds ls position Hne) as Hq.
  destruct (replaceLines_insert ls position text Hne) as (En & El & Er).
  set (q := clampPos ls position) in *. set (segs := splitLines text) in *.
  assert (segs <> []) as Hsegs by apply splitLines_nonempty.
  destruct (insLines_facts ls q segs Hq Hsegs) as (Hne1 & _).
  set (o1 := executedCmd sep ls (mkRange position position, text)).
  (* execute *)
  rewrite CommandHistory_execute_run. cbn [execute TextEditCommand_UndoableCommand].
  rewrite (TextEditCommand_execute_run c (mkLineBuffer ls v sep) objs _ Hne Ho).
  cbn [lines _version _lineEndings undoStack maxStackSize].
  unfold createInsertTextCommand, TextEditCommand_new. cbn [range newText].
  fold o1. rewrite El.
  assert (exists u', (if Z.of_nat (length (u ++ [c])) >? m then tail (u ++ [c]) else u ++ [c])
                     = u' ++ [c]) as [u' ->].
  { destruct (_ >? _) eqn:E; [|eauto].
    destruct u as [|x u0]; [|exists u0; reflexivity].
    cbn [app length] in E. apply Z.gtb_lt in E. lia. }
  eexists _, _, _. split; [reflexivity|]. cbn [snd buffer lines].
  split; [rewrite insertText_run by assumption; reflexivity|].
  (* undo *)
  rewrite CommandHistory_undo_run. cbn [undo TextEditCommand_UndoableCommand].
  rewrite (TextEditCommand_undo_run c (mkLineBuffer (insLines ls q segs) (v + 2) sep)
             (<[c := o1]> objs) o1 Hne1 (lookup_insert_eq objs c o1) eq_refl).
  cbn [lines _version _lineEndings].
  unfold o1 at 1 2. unfold executedCmd. cbn [actualRange previousText fst snd].
  rewrite Er, En. cbn [start end_]. rewrite (rangeText_empty _ _ _ Hq).
  rewrite (replaceLines_remove_inserted sep ls q segs Hq Hsegs).
  split; [reflexivity|]. cbn [snd buffer lines].
  split; [reflexivity|]. split; [reflexivity|].
  (* redo *)
  rewrite CommandHistory_redo_run. cbn [redo TextEditCommand_UndoableCommand].
  rewrite (TextEditCommand_redo_run c (mkLineBuffer ls (v + 2 + 2) sep)
             (<[c := markUndone o1]> (<[c := o1]> objs)) (markUndone o1)
             Hne (lookup_insert_eq _ c (markUndone o1)) eq_refl).
  cbn [lines _version _lineEndings markUndone range newText].
  split; [reflexivity|]. cbn [snd buffer lines]. exact El.
Qed.

Lemma insert_command_undo_exact_witness :
  exists s1 s2 s3,
    CommandHistory_execute 0%nat
      (CommandHistory_new 5,
       mkWorld exampleBuffer
         {[ 0%nat := createInsertTextCommand (mkPosition 1 99) (lit "X" ++ [LF] ++ lit "Y") ]})
    = (Ok tt, s1) /\
    lines (buffer (snd s1))
    = lines (snd (insertText (mkPosition 1 99) (lit "X" ++ [LF] ++ lit "Y") exampleBuffer)) /\
    CommandHistory_undo s1 = (Ok true, s2) /\
    lines (buffer (snd s2)) = lines exampleBuffer /\
    textOf s2 =
    textOf (CommandHistory_new 5,
            mkWorld exampleBuffer
              {[ 0%nat := createInsertTextCommand (mkPosition 1 99) (lit "X" ++ [LF] ++ lit "Y") ]}) /\
    CommandHistory_redo s2 = (Ok true, s3) /\
    lines (buffer (snd s3)) = lines (buffer (snd s1)).
Proof.
  apply (insert_command_undo_exact (CommandHistory_new 5)
           (mkWorld exampleBuffer
              {[ 0%nat := createInsertTextCommand (mkPosition 1 99) (lit "X" ++ [LF] ++ lit "Y") ]})
           0%nat (mkPosition 1 99) (lit "X" ++ [LF] ++ lit "Y")).
  - vm_compute. discriminate.
  - vm_compute. reflexivity.
  - vm_compute. discriminate.
Defined.

(** *** Composite commands *)

Section CompositeFacts.

Context {W C : Type} `{UndoableCommand W C}.

(** The loops of a composite do to the children what the history does when
    the same commands are executed, undone and redone one by one. *)
Lemma executeAll_forEach (cs : list C) :
  forall (h h' : CommandHistory C) (w w' : W),
  executeAll cs (h, w) = (Ok tt, (h', w')) -> forEach execute cs w = (Ok tt, w').
Proof.
  induction cs as [|c cs IH]; intros h h' w w' E.
  - cbn in E. injection E as <- <-. reflexivity.
  - cbn [executeAll forEach] in *. unfold bind in *.
    rewrite CommandHistory_execute_run in E.
    destruct (execute c w) as [[[]|e|] w1]; try discriminate.
    eapply IH. exact E.
Qed.

Lemma undo_loop_app (cs extra : list C) (n : nat) (w : W) :
  (n <= length cs)%nat -> undo_loop n (cs ++ extra) w = undo_loop n cs w.
Proof.
  revert w. induction n as [|n IH]; intros w Hn; [reflexivity|].
  cbn [undo_loop]. unfold bind. rewrite lookup_app_l by lia.
  destruct (deref (cs !! n) w) as [[c|e|] w0]; try reflexivity.
  destruct (undo c w0) as [[[]|e|] w1]; try reflexivity.
  apply IH. lia.
Qed.

Lemma undoAll_loop (cs : list C) :
  forall (pre r : list C) (m : Z) (w : W) (h' : CommandHistory C) (w' : W),
  times (length cs) CommandHistory_undo (mkCommandHistory (pre ++ cs) r m, w) = (Ok tt, (h', w')) ->
  undo_loop (length cs) cs w = (Ok tt, w').
Proof.
  induction cs as [|c cs IH] using rev_ind; intros pre r m w h' w' E.
  - cbn in E. injection E as <- <-. reflexivity.
  - rewrite length_app in *. cbn [length] in *. rewrite Nat.add_1_r in *.
    cbn [times undo_loop] in *. unfold bind in *.
    rewrite app_assoc, CommandHistory_undo_run in E.
    rewrite lookup_app_r, Nat.sub_diag by lia. cbn [lookup list_lookup deref]. unfold ret at 1.
    destruct (undo c w) as [[[]|e|] w1]; try discriminate.
    rewrite undo_loop_app by lia. eapply IH. exact E.
Qed.

Lemma redoAll_forEach (cs : list C) :
  forall (pre r : list C) (m : Z) (w : W) (h' : CommandHistory C) (w' : W),
  times (length cs) CommandHistory_redo (mkCommandHistory pre (r ++ rev cs) m, w) = (Ok tt, (h', w')) ->
  forEach redo cs w = (Ok tt, w').
Proof.
  induction cs as [|c cs IH]; intros pre r m w h' w' E.
  - cbn in E. injection E as <- <-. reflexivity.
  - cbn [length times forEach rev] in *. unfold bind in *.
    rewrite app_assoc, CommandHistory_redo_run in E.
    destruct (redo c w) as [[[]|e|] w1]; try discriminate.
    eapply IH. exact E.
Qed.

Lemma CompositeCommand_execute_run (k : nat) (s : Heap W C) (o : CompositeCommand.t C) (w' : W) :
  composites s !! k = Some o ->
  forEach execute (CompositeCommand.commands o) (world s) = (Ok tt, w') ->
  CompositeCommand_execute k s =
  (Ok tt, mkHeap w' (<[k := CompositeCommand.markExecuted o]> (composites s))).
Proof.
  intros Ho E. unfold CompositeCommand_execute, thisComposite, onChildren, updateComposite.
  unfold bind, modify. rewrite Ho, E. cbn [world composites].
  f_equal. f_equal. apply map_eq. intros j.
  destruct (decide (j = k)) as [->|Hj].
  - rewrite lookup_alter_eq, lookup_insert_eq, Ho. reflexivity.
  - rewrite lookup_alter_ne, lookup_insert_ne by congruence. reflexivity.
Qed.

Lemma CompositeCommand_undo_run (k : nat) (s : Heap W C) (o : CompositeCommand.t C) (w' : W) :
  composites s !! k = Some o ->
  CompositeCommand.executed o = true ->
  undo_loop (length (CompositeCommand.commands o)) (CompositeCommand.commands o) (world s)
  = (Ok tt, w') ->
  CompositeCommand_undo k s =
  (Ok tt, mkHeap w' (<[k := CompositeCommand.markUndone o]> (composites s))).
Proof.
  intros Ho He E. unfold CompositeCommand_undo, thisComposite, onChildren, updateComposite.
  unfold bind, modify. rewrite Ho, He. cbn [negb]. rewrite E. cbn [world composites].
  f_equal. f_equal. apply map_eq. intros j.
  destruct (decide (j = k)) as [->|Hj].
  - rewrite lookup_alter_eq, lookup_insert_eq, Ho. reflexivity.
  - rewrite lookup_alter_ne, lookup_insert_ne by congruence. reflexivity.
Qed.

Lemma CompositeCommand_redo_run (k : nat) (s : Heap W C) (o : CompositeCommand.t C) (w' : W) :
  composites s !! k = Some o ->
  CompositeCommand.undone o = true ->
  forEach redo (CompositeCommand.commands o) (world s) = (Ok tt, w') ->
  CompositeCommand_redo k s =
  (Ok tt, mkHeap w' (<[k := CompositeCommand.markExecuted o]> (composites s))).
Proof.
  intros Ho Hu E. unfold CompositeCommand_redo, thisComposite, onChildren, updateComposite.
  unfold bind, modify. rewrite Ho, Hu. cbn [negb]. rewrite E. cbn [world composites].
  f_equal. f_equal. apply map_eq. intros j.
  destruct (decide (j = k)) as [->|Hj].
  - rewrite lookup_alter_eq, lookup_insert_eq, Ho. reflexivity.
  - rewrite lookup_alter_ne, lookup_insert_ne by congruence. reflexivity.
Qed.

(** X18. The guards of a composite command, for children of any class:
    [undo] on a composite that is not executed and [redo] on one that is
    not undone call no child and change nothing; [addCommand] on an
    executed composite raises the error and changes nothing, and otherwise
    puts the command after the children already there, touching neither the
    flags nor the state the children act on. *)
Theorem CompositeCommand_guards (k : nat) (s : Heap W C) (o : CompositeCommand.t C)
  (command : C) :
  composites s !! k = Some o ->
  (CompositeCommand.executed o = false -> CompositeCommand_undo k s = (Ok tt, s)) /\
  (CompositeCommand.undone o = false -> CompositeCommand_redo k s = (Ok tt, s)) /\
  (CompositeCommand.executed o = true ->
   CompositeCommand_addCommand k command s =
   (Raised "Cannot add commands to an already executed composite command", s)) /\
  (CompositeCommand.executed o = false ->
   exists s',
     CompositeCommand_addCommand k command s = (Returned tt, s') /\
     world s' = world s /\
     composites s' =
       <[k := CompositeCommand.mk (CompositeCommand.commands o ++ [command])
                (CompositeCommand.executed o) (CompositeCommand.undone o)]> (composites s)).
Proof.
  intros Ho. split; [|split; [|split]].
  - intros He. unfold CompositeCommand_undo, thisComposite, bind. rewrite Ho, He. reflexivity.
  - intros Hu. unfold CompositeCommand_redo, thisComposite, bind. rewrite Ho, Hu. reflexivity.
  - intros He. unfold CompositeCommand_addCommand. rewrite Ho, He. reflexivity.
  - intros He. unfold CompositeCommand_addCommand. rewrite Ho, He.
    eexists. split; [reflexivity|]. split; reflexivity.
Qed.

End CompositeFacts.

Lemma CompositeCommand_guards_witness :
  let s := mkHeap threeCommandsWorld {[ 7%nat := CompositeCommand.new [0%nat; 1%nat] ]} in
  let o := CompositeCommand.new [0%nat; 1%nat] in
  (CompositeCommand.executed o = false -> CompositeCommand_undo 7%nat s = (Ok tt, s)) /\
  (CompositeCommand.undone o = false -> CompositeCommand_redo 7%nat s = (Ok tt, s)) /\
  (CompositeCommand.executed o = true ->
   CompositeCommand_addCommand 7%nat 2%nat s =
   (Raised "Cannot add commands to an already executed composite command", s)) /\
  (CompositeCommand.executed o = false ->
   exists s',
     CompositeCommand_addCommand 7%nat 2%nat s = (Returned tt, s') /\
     world s' = world s /\
     composites s' =
       <[7%nat := CompositeCommand.mk (CompositeCommand.commands o ++ [2%nat])
                    (CompositeCommand.executed o) (CompositeCommand.undone o)]> (composites s)).
Proof.
  apply (CompositeCommand_guards 7%nat
           (mkHeap threeCommandsWorld {[ 7%nat := CompositeCommand.new [0%nat; 1%nat] ]})
           (CompositeCommand.new [0%nat; 1%nat]) 2%nat).
  vm_compute. reflexivity.
Defined.

(** *** Multi-cursor edits *)

Lemma allocEdits_run (edits : list (Range * str)) :
  forall (b : LineBuffer) (objs : gmap nat TextEditCommand),
  exists (ks : list nat) (objs' : gmap nat TextEditCommand),
    allocEdits edits (mkWorld b objs) = (Ok ks, mkWorld b objs') /\
    NoDup ks /\
    (forall k, k ∈ ks -> objs !! k = None) /\
    (forall j x, objs !! j = Some x -> objs' !! j = Some x) /\
    Forall2 (fun k e => objs' !! k = Some (TextEditCommand_new (fst e) (snd e))) ks edits.
Proof.
  induction edits as [|e edits IH]; intros b objs.
  - exists [], objs. split; [reflexivity|]. split; [constructor|].
    split; [intros k Hk; apply elem_of_nil in Hk; contradiction|].
    split; [auto | constructor].
  - set (k := fresh (dom objs)).
    assert (objs !! k = None) as Hk by (apply not_elem_of_dom, is_fresh).
    destruct (IH b (<[k := TextEditCommand_new (fst e) (snd e)]> objs))
      as (ks & objs' & E & Hnd & Hfresh & Hkeep & Hall).
    exists (k :: ks), objs'.
    split.
    { cbn [allocEdits]. unfold bind at 1. unfold alloc at 1. cbn [objects buffer]. fold k.
      unfold bind. rewrite E. reflexivity. }
    split.
    { constructor; [|exact Hnd]. intros Hin. apply Hfresh in Hin.
      rewrite lookup_insert_eq in Hin. discriminate. }
    split.
    { intros j Hj. apply elem_of_cons in Hj as [-> | Hj]; [exact Hk|].
      pose proof (Hfresh j Hj) as Hn.
      destruct (decide (j = k)) as [->|Hjk]; [exact Hk|].
      rewrite lookup_insert_ne in Hn by congruence. exact Hn. }
    split.
    { intros j x Hj. apply Hkeep.
      destruct (decide (j = k)) as [->|Hjk]; [congruence|].
      rewrite lookup_insert_ne by congruence. exact Hj. }
    constructor; [|exact Hall]. apply Hkeep. apply lookup_insert_eq.
Qed.

Lemma editOf_allocated (b : LineBuffer) (objs : gmap nat TextEditCommand) (ks : list nat)
  (edits : list (Range * str)) :
  Forall2 (fun k e => objs !! k = Some (TextEditCommand_new (fst e) (snd e))) ks edits ->
  map (editOf (mkWorld b objs)) ks = edits /\
  forall k, k ∈ ks -> hasEdit (editOf (mkWorld b objs)) objs k.
Proof.
  induction 1 as [|k e ks edits Hk Hall [IH1 IH2]].
  - split; [reflexivity|]. intros k Hk. apply elem_of_nil in Hk. contradiction.
  - split.
    + cbn [map]. rewrite IH1. f_equal. unfold editOf. cbn [objects]. rewrite Hk.
      destruct e; reflexivity.
    + intros j Hj. apply elem_of_cons in Hj as [-> | Hj]; [|apply IH2; exact Hj].
      eexists. split; [exact Hk|]. unfold editOf. cbn [objects]. rewrite Hk. reflexivity.
Qed.

Lemma applyEdits_linesAfter (edits : list (Range * str)) :
  forall b, lines b <> [] ->
  lines (snd (applyEdits (map (fun e => ReplaceText (fst e) (snd e)) edits) b))
  = linesAfter (lines b) edits.
Proof.
  induction edits as [|[r t] edits IH]; intros b Hne; [reflexivity|].
  cbn [map applyEdits applyEdit linesAfter fst snd]. unfold bind.
  rewrite replaceText_run by assumption. unfold ret.
  rewrite IH by (cbn [lines]; apply replaceLines_nonempty). reflexivity.
Qed.

(** X19. A multi-cursor edit is undone exactly when each of its ranges is
    well-formed in the buffer the edits before it leave. The composite made
    by [createMultiCursorEditCommand] leaves the buffer alone until it is
    executed; [execute] changes the lines as one [replaceText] per edit
    does, in the order of the edits; [undo] gives back the original lines
    and [redo] the lines [execute] gave. *)
Theorem multiCursorEdit_undo_exact (s : Heap World nat) (edits : list (Range * str)) :
  wfc (buffer (world s)) ->
  rangesOk (lines (buffer (world s))) edits ->
  exists (k : nat) (s0 s1 s2 s3 : Heap World nat),
    createMultiCursorEditCommand edits s = (Ok k, s0) /\
    buffer (world s0) = buffer (world s) /\
    CompositeCommand_execute k s0 = (Ok tt, s1) /\
    lines (buffer (world s1))
    = lines (snd (applyEdits (map (fun e => ReplaceText (fst e) (snd e)) edits)
                    (buffer (world s)))) /\
    CompositeCommand_undo k s1 = (Ok tt, s2) /\
    lines (buffer (world s2)) = lines (buffer (world s)) /\
    CompositeCommand_redo k s2 = (Ok tt, s3) /\
    lines (buffer (world s3)) = lines (buffer (world s1)).
Proof.
  intros [[Hne Hsep] Hclean] Hok.
  destruct s as [[[ls v sep] objs] comps]. cbn [world buffer lines _lineEndings] in *.
  destruct (allocEdits_run edits (mkLineBuffer ls v sep) objs)
    as (ks & objs' & Ealloc & Hnd & _ & _ & Hall).
  destruct (editOf_allocated (mkLineBuffer ls v sep) objs' ks edits Hall) as [Hmap Hed].
  set (ed := editOf (mkWorld (mkLineBuffer ls v sep) objs')) in *.
  set (k := fresh (dom comps)).
  (* the three loops over the children *)
  destruct (executeAll_run sep ed ks ls v objs' (CommandHistory_new 0) Hne Hnd Hed)
    as (h1 & v1 & Hexec).
  apply executeAll_forEach in Hexec.
  rewrite <- Hmap in Hok.
  destruct (undoAll_run sep ed objs' ks ls v1 (execObjs sep ed ls objs' ks) [] [] 0
              Hsep Hne Hclean Hnd Hok ltac:(reflexivity))
    as (v2 & objsU & Hundo & Hund & _).
  apply undoAll_loop in Hundo.
  destruct (redoAll_run sep ed ks ls v2 objsU [] [] 0 Hne Hnd Hund) as (v3 & objsR & Hredo).
  apply redoAll_forEach in Hredo.
  eexists k, _, _, _, _.
  split.
  { unfold createMultiCursorEditCommand, bind, onChildren. cbn [world composites].
    rewrite Ealloc. cbn [composites world]. fold k. reflexivity. }
  cbn [world buffer]. split; [reflexivity|].
  split.
  { apply (CompositeCommand_execute_run k _ (CompositeCommand.new ks));
      [apply lookup_insert_eq | exact Hexec]. }
  cbn [world buffer lines].
  split; [rewrite applyEdits_linesAfter by assumption; rewrite Hmap; reflexivity|].
  split.
  { apply (CompositeCommand_undo_run k _ (CompositeCommand.markExecuted (CompositeCommand.new ks)));
      [apply lookup_insert_eq | reflexivity | exact Hundo]. }
  cbn [world buffer lines]. split; [reflexivity|].
  split.
  { apply (CompositeCommand_redo_run k _
             (CompositeCommand.markUndone (CompositeCommand.markExecuted (CompositeCommand.new ks))));
      [apply lookup_insert_eq | reflexivity | exact Hredo]. }
  reflexivity.
Qed.

Lemma multiCursorEdit_undo_exact_witness :
  exists (k : nat) (s0 s1 s2 s3 : Heap World nat),
    createMultiCursorEditCommand twoCursorEdits emptyHeap = (Ok k, s0) /\
    buffer (world s0) = buffer (world emptyHeap) /\
    CompositeCommand_execute k s0 = (Ok tt, s1) /\
    lines (buffer (world s1))
    = lines (snd (applyEdits (map (fun e => ReplaceText (fst e) (snd e)) twoCursorEdits)
                    (buffer (world emptyHeap)))) /\
    CompositeCommand_undo k s1 = (Ok tt, s2) /\
    lines (buffer (world s2)) = lines (buffer (world emptyHeap)) /\
    CompositeCommand_redo k s2 = (Ok tt, s3) /\
    lines (buffer (world s3)) = lines (buffer (world s1)).
Proof.
  apply (multiCursorEdit_undo_exact emptyHeap twoCursorEdits).
  - split; [split; [vm_compute; discriminate | right; right; reflexivity]|].
    vm_compute. repeat constructor.
  - vm_compute. intuition discriminate.
Defined.

(** *** Edits seen on the text *)

Lemma join_cons_ne (sep a : str) (rest : list str) :
  rest <> [] -> join sep (a :: rest) = a ++ sep ++ join sep rest.
Proof. destruct rest; [congruence | reflexivity]. Qed.

(** The text splits where a line does. *)
Lemma join_app_mid (sep x y : str) (A B : list str) :
  join sep (A ++ [x ++ y] ++ B) = join sep (A ++ [x]) ++ join sep ([y] ++ B).
Proof.
  induction A as [|a A IH].
  - cbn [app]. destruct B as [|b B]; cbn [join]; rewrite <- ?app_assoc; reflexivity.
  - cbn [app]. rewrite !join_cons_ne by (destruct A; discriminate).
    cbn [app] in IH. rewrite IH, <- !app_assoc. reflexivity.
Qed.

Lemma join_app_ne (sep : str) (X Y : list str) :
  X <> [] -> Y <> [] -> join sep (X ++ Y) = join sep X ++ sep ++ join sep Y.
Proof.
  intros HX HY. induction X as [|x X IHX]; [congruence|].
  destruct X as [|x' X'].
  - cbn [app]. rewrite join_cons_ne by assumption. reflexivity.
  - change ((x :: x' :: X') ++ Y) with (x :: (x' :: X') ++ Y).
    rewrite (join_cons_ne sep x ((x' :: X') ++ Y)) by discriminate.
    rewrite (join_cons_ne sep x (x' :: X')) by discriminate.
    rewrite IHX by discriminate. rewrite <- !app_assoc. reflexivity.
Qed.

Lemma join_snoc_app (sep x y : str) (A : list str) :
  join sep (A ++ [x ++ y]) = join sep (A ++ [x]) ++ y.
Proof.
  pose proof (join_app_mid sep x y A []) as H. cbn [app join] in H.
  rewrite <- H. reflexivity.
Qed.

Lemma text_split (sep : str) (ls : list str) (q : Position) :
  inBounds ls q -> join sep ls = textBefore sep ls q ++ textFrom sep ls q.
Proof.
  intros [Hl Hc]. unfold textBefore, textFrom. rewrite <- join_app_mid, take_drop.
  f_equal. apply lines_split. assumption.
Qed.

Lemma len_textBefore (b : LineBuffer) (q : Position) :
  inBounds (lines b) q ->
  len (textBefore (_lineEndings b) (lines b) q) = sumLens b (Z.to_nat (line q)) 0 + column q.
Proof.
  intros [Hl Hc]. unfold textBefore. rewrite len_join_snoc.
  rewrite (sumLens_take b (Z.to_nat (line q)) 0) by lia.
  change (Z.to_nat 0) with 0%nat. rewrite drop_0.
  unfold len in *. rewrite length_take. lia.
Qed.

Lemma textBefore_take (b : LineBuffer) (q : Position) :
  inBounds (lines b) q ->
  textBefore (_lineEndings b) (lines b) q
  = take (Z.to_nat (sumLens b (Z.to_nat (line q)) 0 + column q))
      (join (_lineEndings b) (lines b)).
Proof.
  intros Hq. rewrite (text_split _ _ _ Hq) at 1.
  rewrite <- (len_textBefore b q Hq). unfold len. rewrite Nat2Z.id.
  rewrite take_app_length. reflexivity.
Qed.

Lemma textFrom_drop (b : LineBuffer) (q : Position) :
  inBounds (lines b) q ->
  textFrom (_lineEndings b) (lines b) q
  = drop (Z.to_nat (sumLens b (Z.to_nat (line q)) 0 + column q))
      (join (_lineEndings b) (lines b)).
Proof.
  intros Hq. rewrite (text_split _ _ _ Hq) at 1.
  rewrite <- (len_textBefore b q Hq). unfold len. rewrite Nat2Z.id.
  rewrite drop_app_length. reflexivity.
Qed.

Lemma join_insLines (sep : str) (ls : list str) (q : Position) (segs : list str) :
  inBounds ls q -> segs <> [] ->
  join sep (insLines ls q segs) = textBefore sep ls q ++ join sep segs ++ textFrom sep ls q.
Proof.
  intros [Hl Hc] Hne. unfold insLines, textBefore, textFrom.
  set (A := take (Z.to_nat (line q)) ls).
  set (B := drop (S (Z.to_nat (line q))) ls).
  set (before := take (Z.to_nat (column q)) (lineAt ls (line q))).
  set (after := drop (Z.to_nat (column q)) (lineAt ls (line q))).
  destruct (segments_cases segs Hne) as [[s0 ->] | (s0 & mid & sl & ->)].
  - cbn [glue join]. rewrite (app_assoc before s0 after), join_app_mid, join_snoc_app.
    rewrite <- !app_assoc. reflexivity.
  - rewrite glue_snoc.
    replace (A ++ ([before ++ s0] ++ mid ++ [sl ++ after]) ++ B)
      with ((A ++ [before ++ s0]) ++ (mid ++ [sl ++ after] ++ B))
      by (rewrite <- !app_assoc; reflexivity).
    rewrite join_app_ne by (try (destruct A; discriminate); destruct mid; discriminate).
    rewrite join_snoc_app, join_app_mid.
    rewrite (join_cons_ne sep s0 (mid ++ [sl])) by (destruct mid; discriminate).
    rewrite <- !app_assoc. reflexivity.
Qed.

Lemma join_delLines (sep : str) (ls : list str) (s e : Position) :
  join sep (delLines ls s e) = textBefore sep ls s ++ textFrom sep ls e.
Proof. unfold delLines, textBefore, textFrom. apply join_app_mid. Qed.

Lemma textBefore_rangeText (sep : str) (ls : list str) (s e : Position) :
  inBounds ls s -> inBounds ls e -> posLe s e ->
  textBefore sep ls e = textBefore sep ls s ++ rangeText sep ls s e.
Proof.
  intros [Hsl Hsc] [Hel Hec] Hle. unfold textBefore, rangeText. unfold len in *.
  destruct (Z.eqb_spec (line s) (line e)) as [Heq|Hneq].
  - assert (column s <= column e) as Hcol by (destruct Hle; lia).
    rewrite <- Heq in *. rewrite substring_take_drop by (unfold len; lia).
    rewrite <- join_snoc_app. f_equal. f_equal. f_equal.
    rewrite <- (take_drop (Z.to_nat (column s)) (take (Z.to_nat (column e)) _)).
    rewrite take_take, skipn_firstn_comm. f_equal. f_equal. lia.
  - assert (line s < line e) as Hlt by (destruct Hle; lia).
    rewrite substringFrom_drop, substring_0 by lia.
    set (M := take (Z.to_nat (line e - line s - 1)) (drop (Z.to_nat (line s + 1)) ls)).
    pose proof (join_app_mid sep (take (Z.to_nat (column s)) (lineAt ls (line s)))
                  (drop (Z.to_nat (column s)) (lineAt ls (line s)))
                  (take (Z.to_nat (line s)) ls)
                  (M ++ [take (Z.to_nat (column e)) (lineAt ls (line e))])) as H.
    rewrite take_drop in H. cbn [app] in *. rewrite <- H. f_equal.
    pose proof (lines_split2 ls (line s) (line e) ltac:(lia) ltac:(lia)) as Hsplit.
    fold M in Hsplit.
    rewrite <- Hsplit at 1.
    replace (take (Z.to_nat (line s)) ls ++ [lineAt ls (line s)] ++ M ++
             [lineAt ls (line e)] ++ drop (S (Z.to_nat (line e))) ls)
      with ((take (Z.to_nat (line s)) ls ++ [lineAt ls (line s)] ++ M) ++
            ([lineAt ls (line e)] ++ drop (S (Z.to_nat (line e))) ls))
      by (rewrite <- !app_assoc; reflexivity).
    rewrite take_app_length'.
    + rewrite <- !app_assoc. reflexivity.
    + rewrite !length_app, length_take. unfold M. rewrite length_take, length_drop.
      cbn [length]. lia.
Qed.

(** X20. [insertText] on the text: the text after the call is the text
    before it with the inserted text, its line breaks replaced by the line
    ending of the buffer, put at the offset [positionToOffset] gives to the
    position, whatever the position. *)
Theorem insertText_on_text (b : LineBuffer) (p : Position) (t : str) :
  lines b <> [] ->
  exists (o : Z) (text : str) (r : Range) (b1 : LineBuffer),
    positionToOffset p b = (Ok o, b) /\
    getText b = (Ok text, b) /\
    insertText p t b = (Ok r, b1) /\
    getText b1 =
    (Ok (take (Z.to_nat o) text ++ join (lineEndings b) (splitLines t) ++ drop (Z.to_nat o) text),
     b1).
Proof.
  intros Hne. pose proof (clampPos_inBounds (lines b) p Hne) as Hq.
  eexists _, _, _, _.
  split; [apply positionToOffset_run; assumption|].
  split; [reflexivity|].
  split; [apply insertText_run; assumption|].
  unfold getText, bind, get, ret, lineEndings. cbn [lines _lineEndings].
  rewrite join_insLines by (assumption || apply splitLines_nonempty).
  rewrite (textBefore_take b _ Hq), (textFrom_drop b _ Hq). reflexivity.
Qed.

Lemma insertText_on_text_witness :
  exists (o : Z) (text : str) (r : Range) (b1 : LineBuffer),
    positionToOffset (mkPosition 1 7) exampleBuffer = (Ok o, exampleBuffer) /\
    getText exampleBuffer = (Ok text, exampleBuffer) /\
    insertText (mkPosition 1 7) (lit "X" ++ [CR] ++ lit "Y") exampleBuffer = (Ok r, b1) /\
    getText b1 =
    (Ok (take (Z.to_nat o) text ++
         join (lineEndings exampleBuffer) (splitLines (lit "X" ++ [CR] ++ lit "Y")) ++
         drop (Z.to_nat o) text), b1).
Proof.
  apply (insertText_on_text exampleBuffer (mkPosition 1 7) (lit "X" ++ [CR] ++ lit "Y")).
  vm_compute. discriminate.
Defined.

(** X21. [deleteText] on the text: with [os] and [oe] the offsets of the two
    ends of the validated range, the call returns the characters of the
    text from [os] to [oe] and leaves the text without them. *)
Theorem deleteText_on_text (b : LineBuffer) (r : Range) :
  lines b <> [] ->
  exists (v : Range) (os oe : Z) (text deleted : str) (b1 : LineBuffer),
    validateRange r b = (Ok v, b) /\
    positionToOffset (start v) b = (Ok os, b) /\
    positionToOffset (end_ v) b = (Ok oe, b) /\
    0 <= os <= oe /\
    getText b = (Ok text, b) /\
    deleteText r b = (Ok deleted, b1) /\
    deleted = take (Z.to_nat (oe - os)) (drop (Z.to_nat os) text) /\
    getText b1 = (Ok (take (Z.to_nat os) text ++ drop (Z.to_nat oe) text), b1).
Proof.
  intros Hne.
  destruct (normRange_spec (lines b) r Hne) as (Hs & He & Hle).
  set (n := normRange (lines b) r) in *.
  pose proof (textBefore_rangeText (_lineEndings b) (lines b) _ _ Hs He Hle) as Hmid.
  pose proof (len_textBefore b _ Hs) as Hls. pose proof (len_textBefore b _ He) as Hl.
  rewrite Hmid, len_app in Hl.
  pose proof (sumLens_nonneg b (Z.to_nat (line (start n))) 0) as Hnn.
  assert (0 <= column (start n)) as Hc0 by (destruct Hs; lia).
  exists n, (sumLens b (Z.to_nat (line (start n))) 0 + column (start n)),
    (sumLens b (Z.to_nat (line (end_ n))) 0 + column (end_ n)).
  eexists _, _, _.
  split; [apply validateRange_run; assumption|].
  split; [rewrite positionToOffset_run, (clampPos_id _ _ Hs) by assumption; reflexivity|].
  split; [rewrite positionToOffset_run, (clampPos_id _ _ He) by assumption; reflexivity|].
  split; [unfold len in *; lia|].
  split; [reflexivity|].
  split; [apply deleteText_run; assumption|].
  fold n. split.
  - rewrite <- (textFrom_drop b _ Hs).
    assert (textFrom (_lineEndings b) (lines b) (start n)
            = rangeText (_lineEndings b) (lines b) (start n) (end_ n) ++
              textFrom (_lineEndings b) (lines b) (end_ n)) as ->.
    { pose proof (text_split (_lineEndings b) (lines b) _ Hs) as H1.
      pose proof (text_split (_lineEndings b) (lines b) _ He) as H2.
      rewrite H1, Hmid, <- app_assoc in H2. apply app_inv_head in H2. exact H2. }
    replace (Z.to_nat (sumLens b (Z.to_nat (line (end_ n))) 0 + column (end_ n) -
                       (sumLens b (Z.to_nat (line (start n))) 0 + column (start n))))
      with (length (rangeText (_lineEndings b) (lines b) (start n) (end_ n)))
      by (unfold len in *; lia).
    rewrite take_app_length. reflexivity.
  - unfold getText, bind, get, ret. cbn [lines _lineEndings].
    rewrite join_delLines, (textBefore_take b _ Hs), (textFrom_drop b _ He). reflexivity.
Qed.

Lemma deleteText_on_text_witness :
  exists (v : Range) (os oe : Z) (text deleted : str) (b1 : LineBuffer),
    validateRange (mkRange (mkPosition 2 1) (mkPosition 0 2)) exampleBuffer = (Ok v, exampleBuffer) /\
    positionToOffset (start v) exampleBuffer = (Ok os, exampleBuffer) /\
    positionToOffset (end_ v) exampleBuffer = (Ok oe, exampleBuffer) /\
    0 <= os <= oe /\
    getText exampleBuffer = (Ok text, exampleBuffer) /\
    deleteText (mkRange (mkPosition 2 1) (mkPosition 0 2)) exampleBuffer = (Ok deleted, b1) /\
    deleted = take (Z.to_nat (oe - os)) (drop (Z.to_nat os) text) /\
    getText b1 = (Ok (take (Z.to_nat os) text ++ drop (Z.to_nat oe) text), b1).
Proof.
  apply (deleteText_on_text exampleBuffer (mkRange (mkPosition 2 1) (mkPosition 0 2))).
  vm_compute. discriminate.
Defined.

Lemma join_replaceLines (sep : str) (ls : list str) (r : Range) (t : str) :
  ls <> [] -> rangeOk ls r ->
  join sep (replaceLines ls r t)
  = textBefore sep ls (start r) ++ join sep (splitLines t) ++
    textFrom sep ls (clampPos ls (end_ r)).
Proof.
  intros Hne Hok. pose proof Hok as [Hs Hle].
  pose proof (clampPos_inBounds ls (end_ r) Hne) as He.
  unfold replaceLines. rewrite (normRange_ok ls r Hok). cbn [start end_].
  destruct (delLines_facts ls _ _ Hs He Hle) as (Hs1 & HA & HB & Hbefore & Hafter).
  rewrite (clampPos_id _ _ Hs1).
  rewrite join_insLines by (assumption || apply splitLines_nonempty).
  unfold textBefore, textFrom. rewrite HA, HB, Hbefore, Hafter. reflexivity.
Qed.

(** X22. [replaceText] on the text, for a range whose start is a position
    of the buffer and does not come after its clamped end: the text after
    the call is the text before it with the characters between the offsets
    of the two ends replaced by the new text, its line breaks turned into
    the line ending of the buffer; the range returned starts where the
    range given starts. *)
Theorem replaceText_on_text (b : LineBuffer) (r : Range) (t : str) :
  lines b <> [] -> rangeOk (lines b) r ->
  exists (os oe : Z) (text : str) (r' : Range) (b1 : LineBuffer),
    positionToOffset (start r) b = (Ok os, b) /\
    positionToOffset (end_ r) b = (Ok oe, b) /\
    getText b = (Ok text, b) /\
    replaceText r t b = (Ok r', b1) /\
    start r' = start r /\
    getText b1 =
    (Ok (take (Z.to_nat os) text ++ join (lineEndings b) (splitLines t) ++
         drop (Z.to_nat oe) text), b1).
Proof.
  intros Hne Hok. pose proof Hok as [Hs Hle].
  pose proof (clampPos_inBounds (lines b) (end_ r) Hne) as He.
  eexists _, _, _, _, _.
  split; [rewrite positionToOffset_run, (clampPos_id _ _ Hs) by assumption; reflexivity|].
  split; [apply positionToOffset_run; assumption|].
  split; [reflexivity|].
  split; [apply replaceText_run; assumption|].
  split.
  - unfold replaceRange. cbn [start]. rewrite (normRange_ok _ _ Hok). cbn [start end_].
    destruct (delLines_facts _ _ _ Hs He Hle) as (Hs1 & _). apply clampPos_id. exact Hs1.
  - unfold getText, bind, get, ret, lineEndings. cbn [lines _lineEndings].
    rewrite join_replaceLines by assumption.
    rewrite (textBefore_take b _ Hs), (textFrom_drop b _ He). reflexivity.
Qed.

Lemma replaceText_on_text_witness :
  exists (os oe : Z) (text : str) (r' : Range) (b1 : LineBuffer),
    positionToOffset (start (mkRange (mkPosition 0 2) (mkPosition 1 9))) exampleBuffer
    = (Ok os, exampleBuffer) /\
    positionToOffset (end_ (mkRange (mkPosition 0 2) (mkPosition 1 9))) exampleBuffer
    = (Ok oe, exampleBuffer) /\
    getText exampleBuffer = (Ok text, exampleBuffer) /\
    replaceText (mkRange (mkPosition 0 2) (mkPosition 1 9)) (lit "p" ++ [LF] ++ lit "q") exampleBuffer
    = (Ok r', b1) /\
    start r' = start (mkRange (mkPosition 0 2) (mkPosition 1 9)) /\
    getText b1 =
    (Ok (take (Z.to_nat os) text ++
         join (lineEndings exampleBuffer) (splitLines (lit "p" ++ [LF] ++ lit "q")) ++
         drop (Z.to_nat oe) text), b1).
Proof.
  apply (replaceText_on_text exampleBuffer (mkRange (mkPosition 0 2) (mkPosition 1 9))
           (lit "p" ++ [LF] ++ lit "q")).
  - vm_compute. discriminate.
  - vm_compute. intuition discriminate.
Defined.

(** *** Documents and batches of changes *)







Lemma posLe_trans (x y z : Position) : posLe x y -> posLe y z -> posLe x z.
Proof. unfold posLe. lia. Qed.



Lemma applySorted_total (cs : list (Range * str)) :
  forall (b1 : LineBuffer),
  lines b1 <> [] -> Forall clean (lines b1) ->
  exists b2,
    applySorted cs b1 = (Ok tt, b2) /\
    lines b2 <> [] /\ _lineEndings b2 = _lineEndings b1 /\ Forall clean (lines b2) /\
    (cs = [] -> b2 = b1).
Proof.
  induction cs as [|[r t] cs IH]; intros b1 Hne1 Hclean1.
  - exists b1. cbn [applySorted]. repeat split; assumption.
  - cbn [applySorted fst snd]. unfold bind. rewrite replaceText_run by assumption.
    destruct (IH (mkLineBuffer (replaceLines (lines b1) r t) (_version b1 + 2) (_lineEndings b1)))
      as (b2 & E & Hne2 & Hsep2 & Hclean2 & _).
    + apply replaceLines_nonempty.
    + apply Forall_clean_replaceLines. exact Hclean1.
    + exists b2. split; [exact E|]. split; [exact Hne2|]. split; [exact Hsep2|].
      split; [exact Hclean2 | discriminate].
Qed.

Lemma detectedEnding_valid (b : LineBuffer) :
  validLineEnding (_lineEndings b) -> validLineEnding (detectedEnding b).
Proof.
  intros H. unfold detectedEnding. destruct (_ <? _)%nat; [exact H | right; right; reflexivity].
Qed.

Lemma applyChanges_run (changes : list (Range * str)) (d : TextDocumentImpl.t) :
  wfc (TextDocumentImpl.buffer d) ->
  exists b2,
    applySorted (sort compareChanges changes)
      (mkLineBuffer (lines (TextDocumentImpl.buffer d)) 1
         (detectedEnding (TextDocumentImpl.buffer d))) = (Ok tt, b2) /\
    lines b2 <> [] /\ Forall clean (lines b2) /\
    _lineEndings b2 = detectedEnding (TextDocumentImpl.buffer d) /\
    applyChanges changes d =
    (Ok (TextDocumentImpl.mk (TextDocumentImpl.uri d) (TextDocumentImpl.languageId d)
           (TextDocumentImpl.version d + 1)
           (mkLineBuffer (lines b2) 1 (detectedEnding b2))), d).
Proof.
  intros Hb. pose proof Hb as [[Hne Hsep] Hclean]. destruct d as [u l v b]. cbn [TextDocumentImpl.buffer] in *.
  destruct (applySorted_total (sort compareChanges changes)
              (mkLineBuffer (lines b) 1 (detectedEnding b)) Hne Hclean)
    as (b2 & E & Hne2 & Hsep2 & Hclean2 & _).
  cbn [_lineEndings] in Hsep2.
  exists b2. split; [exact E|]. split; [exact Hne2|]. split; [exact Hclean2|].
  split; [exact Hsep2|].
  unfold applyChanges, onDocumentBuffer, bind, get, liftRes. cbn [TextDocumentImpl.buffer].
  unfold getText at 1. unfold bind, get, ret.
  cbn [TextDocumentImpl.buffer TextDocumentImpl.uri TextDocumentImpl.languageId
       TextDocumentImpl.version].
  unfold lineEndings. rewrite (LineBuffer_new_of_text b (_lineEndings b) Hb).
  fold (detectedEnding b). rewrite E.
  unfold getText, bind, get, ret. cbn [fst].
  unfold TextDocumentImpl_new.
  assert (wfc b2) as Hb2.
  { split; [split; [exact Hne2 | rewrite Hsep2; apply detectedEnding_valid; exact Hsep] | exact Hclean2]. }
  rewrite (LineBuffer_new_of_text b2 [LF] Hb2). reflexivity.
Qed.

(** X23. [applyChanges] on a document never throws and never touches the
    document it is called on. The document it returns has the same uri and
    language, the version plus one, and a fresh buffer at version 1 with at
    least one line, a valid line ending and no line break inside a line;
    without changes it has the same lines and the same text. *)
Theorem applyChanges_new_document (changes : list (Range * str)) (d : TextDocumentImpl.t) :
  wfc (TextDocumentImpl.buffer d) ->
  exists d' : TextDocumentImpl.t,
    applyChanges changes d = (Ok d', d) /\
    TextDocumentImpl.uri d' = TextDocumentImpl.uri d /\
    TextDocumentImpl.languageId d' = TextDocumentImpl.languageId d /\
    TextDocumentImpl.version d' = TextDocumentImpl.version d + 1 /\
    version (TextDocumentImpl.buffer d') = 1 /\
    wfc (TextDocumentImpl.buffer d') /\
    (changes = [] ->
     lines (TextDocumentImpl.buffer d') = lines (TextDocumentImpl.buffer d) /\
     fst (TextDocumentImpl_getText None d') = fst (TextDocumentImpl_getText None d)).
Proof.
  intros Hb. pose proof Hb as [[Hne Hsep] Hclean].
  destruct (applyChanges_run changes d Hb) as (b2 & E & Hne2 & Hclean2 & Hsep2 & Happly).
  eexists. split; [exact Happly|].
  cbn [TextDocumentImpl.uri TextDocumentImpl.languageId TextDocumentImpl.version
       TextDocumentImpl.buffer].
  repeat (split; [reflexivity|]).
  split.
  { split; [split|]; cbn [lines _lineEndings]; [exact Hne2 | | exact Hclean2].
    apply detectedEnding_valid. rewrite Hsep2. apply detectedEnding_valid. exact Hsep. }
  intros ->. cbn [sort fold_right applySorted] in E. injection E as <-.
  cbn [lines]. split; [reflexivity|].
  unfold TextDocumentImpl_getText, onDocumentBuffer, getText, bind, get, ret.
  cbn [TextDocumentImpl.buffer lines _lineEndings fst].
  unfold detectedEnding. cbn [lines _lineEndings]. rewrite !join_detected. reflexivity.
Qed.






Lemma applyChanges_new_document_witness :
  exists d' : TextDocumentImpl.t,
    applyChanges twoCursorEdits exampleDocument = (Ok d', exampleDocument) /\
    TextDocumentImpl.uri d' = TextDocumentImpl.uri exampleDocument /\
    TextDocumentImpl.languageId d' = TextDocumentImpl.languageId exampleDocument /\
    TextDocumentImpl.version d' = TextDocumentImpl.version exampleDocument + 1 /\
    version (TextDocumentImpl.buffer d') = 1 /\
    wfc (TextDocumentImpl.buffer d') /\
    (twoCursorEdits = [] ->
     lines (TextDocumentImpl.buffer d') = lines (TextDocumentImpl.buffer exampleDocument) /\
     fst (TextDocumentImpl_getText None d') = fst (TextDocumentImpl_getText None exampleDocument)).
Proof.
  apply (applyChanges_new_document twoCursorEdits exampleDocument).
  split; [split; [vm_compute; discriminate | right; right; reflexivity]|].
  vm_compute. repeat constructor.
Defined.

(** *** The order of a batch *)

Lemma compareChanges_le (a b : Range * str) :
  compareChanges a b <= 0 <-> posLe (start (fst b)) (start (fst a)).
Proof.
  unfold compareChanges, posLe.
  destruct (Z.eqb_spec (line (start (fst a))) (line (start (fst b)))); cbn [negb]; lia.
Qed.

Lemma insertSorted_Permutation {A : Type} (compare : A -> A -> Z) (x : A) (l : list A) :
  insertSorted compare x l ≡ₚ x :: l.
Proof.
  induction l as [|y l IH]; [reflexivity|]. cbn [insertSorted].
  destruct (compare x y >? 0); [|reflexivity].
  rewrite IH. apply Permutation_swap.
Qed.

Lemma sort_Permutation {A : Type} (compare : A -> A -> Z) (l : list A) :
  sort compare l ≡ₚ l.
Proof.
  induction l as [|x l IH]; [reflexivity|].
  cbn [sort fold_right]. fold (sort compare l).
  rewrite insertSorted_Permutation, IH. reflexivity.
Qed.

Lemma insertSorted_StronglySorted (x : Range * str) (l : list (Range * str)) :
  StronglySorted (fun a b => compareChanges a b <= 0) l ->
  StronglySorted (fun a b => compareChanges a b <= 0) (insertSorted compareChanges x l).
Proof.
  induction 1 as [|y l Hl IH Hy]; [repeat constructor|].
  cbn [insertSorted]. destruct (Z.gtb_spec (compareChanges x y) 0) as [Hgt|Hle].
  - constructor; [exact IH|].
    rewrite (insertSorted_Permutation compareChanges x l). constructor; [|exact Hy].
    apply compareChanges_le. unfold compareChanges, posLe in *.
    destruct (Z.eqb_spec (line (start (fst x))) (line (start (fst y)))); cbn [negb] in *; lia.
  - constructor; [constructor; assumption|].
    constructor; [exact Hle|].
    eapply Forall_impl; [exact Hy|]. intros z Hz. cbn beta in *.
    apply compareChanges_le. apply compareChanges_le in Hle, Hz.
    eapply posLe_trans; eassumption.
Qed.

Lemma sort_StronglySorted (l : list (Range * str)) :
  StronglySorted (fun a b => compareChanges a b <= 0) (sort compareChanges l).
Proof.
  induction l as [|x l IH]; [constructor|].
  cbn [sort fold_right]. apply insertSorted_StronglySorted. exact IH.
Qed.

(** X25. The order in which the changes of a batch are listed does not
    matter when no two different changes start at the same position:
    [applyChanges] sorts them, and on two listings of the same changes it
    computes the same document. *)
Theorem applyChanges_order_irrelevant (changes changes' : list (Range * str))
  (d : TextDocumentImpl.t) :
  changes ≡ₚ changes' ->
  (forall x y, x ∈ changes -> y ∈ changes -> start (fst x) = start (fst y) -> x = y) ->
  sort compareChanges changes = sort compareChanges changes' /\
  applyChanges changes d = applyChanges changes' d.
Proof.
  intros Hperm Hdistinct.
  assert (sort compareChanges changes = sort compareChanges changes') as E.
  { apply (StronglySorted_unique_strong (fun a b => compareChanges a b <= 0)).
    - intros x y Hx Hy Hxy Hyx.
      rewrite sort_Permutation in Hx. rewrite sort_Permutation, <- Hperm in Hy.
      apply Hdistinct; [assumption..|].
      apply compareChanges_le in Hxy, Hyx. unfold posLe in *.
      destruct (start (fst x)) as [lx cx], (start (fst y)) as [ly cy]. cbn [line column] in *.
      f_equal; lia.
    - apply sort_StronglySorted.
    - apply sort_StronglySorted.
    - rewrite !sort_Permutation. exact Hperm. }
  split; [exact E|]. unfold applyChanges. rewrite E. reflexivity.
Qed.

Lemma applyChanges_order_irrelevant_witness :
  sort compareChanges twoCursorEdits = sort compareChanges (reverse twoCursorEdits) /\
  applyChanges twoCursorEdits exampleDocument = applyChanges (reverse twoCursorEdits) exampleDocument.
Proof.
  apply (applyChanges_order_irrelevant twoCursorEdits (reverse twoCursorEdits) exampleDocument).
  - apply Permutation_swap.
  - intros x y Hx Hy.
    unfold twoCursorEdits in Hx, Hy.
    apply elem_of_cons in Hx as [-> | Hx]; [|apply list_elem_of_singleton in Hx as ->];
      (apply elem_of_cons in Hy as [-> | Hy]; [|apply list_elem_of_singleton in Hy as ->]);
      cbn [fst start]; intros E; try reflexivity; discriminate E.
Defined.

(** *** The command registry *)

Section MapFacts.

Context {V : Type}.

Lemma Map_get_set_eq (m : list (string * V)) (k : string) (v : V) :
  Map_get (Map_set m k v) k = Some v.
Proof.
  induction m as [|[k' v'] m IH]; cbn [Map_set Map_get].
  - rewrite String.eqb_refl. reflexivity.
  - destruct (String.eqb k' k) eqn:E; cbn [Map_get]; rewrite E; [reflexivity | exact IH].
Qed.

Lemma Map_get_set_ne (m : list (string * V)) (k k0 : string) (v : V) :
  k0 <> k -> Map_get (Map_set m k v) k0 = Map_get m k0.
Proof.
  intros Hne. induction m as [|[k' v'] m IH]; cbn [Map_set Map_get].
  - destruct (String.eqb_spec k k0); [congruence | reflexivity].
  - destruct (String.eqb_spec k' k) as [->|Hk]; cbn [Map_get].
    + destruct (String.eqb_spec k k0); [congruence | reflexivity].
    + rewrite IH. reflexivity.
Qed.

Lemma Map_get_delete_eq (m : list (string * V)) (k : string) :
  Map_get (Map_delete m k) k = None.
Proof.
  induction m as [|[k' v'] m IH]; [reflexivity|].
  unfold Map_delete in *. cbn [List.filter fst].
  destruct (String.eqb k' k) eqn:E; cbn [negb]; [exact IH|].
  cbn [Map_get]. rewrite E. exact IH.
Qed.

Lemma Map_get_delete_ne (m : list (string * V)) (k k0 : string) :
  k0 <> k -> Map_get (Map_delete m k) k0 = Map_get m k0.
Proof.
  intros Hne. induction m as [|[k' v'] m IH]; [reflexivity|].
  unfold Map_delete in *. cbn [List.filter fst].
  destruct (String.eqb_spec k' k) as [->|Hk]; cbn [negb Map_get].
  - destruct (String.eqb_spec k k0); [congruence | exact IH].
  - rewrite IH. reflexivity.
Qed.

Lemma Map_keys_get (m : list (string * V)) (k : string) :
  k ∈ Map_keys m <-> is_Some (Map_get m k).
Proof.
  induction m as [|[k' v'] m IH]; cbn [Map_keys map Map_get fst].
  - split; [intros H; apply elem_of_nil in H; contradiction | intros [x H]; discriminate].
  - rewrite elem_of_cons. destruct (String.eqb_spec k' k) as [->|Hk].
    + split; [eauto | left; reflexivity].
    + fold (Map_keys m). rewrite IH. split; [intros [->|H]; [congruence | exact H] | auto].
Qed.

Lemma Map_has_get (m : list (string * V)) (k : string) :
  Map_has m k = true <-> is_Some (Map_get m k).
Proof.
  unfold Map_has. destruct (Map_get m k); split; eauto; try discriminate.
  intros [x H]; discriminate.
Qed.

Lemma Map_keys_set (m : list (string * V)) (k : string) (v : V) :
  Map_has m k = false -> Map_keys (Map_set m k v) = Map_keys m ++ [k].
Proof.
  unfold Map_has. induction m as [|[k' v'] m IH]; intros H; [reflexivity|].
  cbn [Map_get] in H. cbn [Map_set]. destruct (String.eqb k' k); [discriminate|].
  cbn [Map_keys map fst app]. f_equal. apply IH. exact H.
Qed.

Lemma Map_keys_delete (m : list (string * V)) (k : string) :
  NoDup (Map_keys m) -> NoDup (Map_keys (Map_delete m k)) /\
  forall k0, k0 ∈ Map_keys (Map_delete m k) -> k0 ∈ Map_keys m.
Proof.
  induction m as [|[k' v'] m IH]; intros Hnd; [split; [constructor | auto]|].
  cbn [Map_keys map fst] in Hnd. apply NoDup_cons in Hnd as [Hk' Hnd].
  destruct (IH Hnd) as [IH1 IH2].
  unfold Map_delete in *. cbn [List.filter fst].
  destruct (String.eqb k' k); cbn [negb].
  - split; [exact IH1|]. intros k0 H. cbn [Map_keys map fst]. right. apply IH2. exact H.
  - cbn [Map_keys map fst]. split.
    + constructor; [|exact IH1]. intros H. apply Hk'. apply IH2. exact H.
    + intros k0 H. apply elem_of_cons in H as [->|H]; [left | right; apply IH2]; auto.
Qed.

End MapFacts.

Section RegistryFacts.

Context {Command Handler : Type}.
Variable id : Command -> string.

Local Abbreviation Registry := (CommandRegistry Command Handler).
Local Abbreviation Call := (RegistryCall Command Handler).

Lemma newDisposable_fresh (c : Cleanup) (ds : gmap nat DisposableImpl) :
  ds !! fst (newDisposable c ds) = None.
Proof. unfold newDisposable. cbn [fst]. apply not_elem_of_dom, is_fresh. Qed.

Lemma registryOk_new : registryOk (CommandRegistry_new Command Handler).
Proof.
  split; [|split].
  - intros k i H. unfold liveFor in H. cbn in H. rewrite lookup_empty in H. discriminate.
  - intros k k' i H. unfold liveFor in H. cbn in H. rewrite lookup_empty in H. discriminate.
  - constructor.
Qed.

Lemma Map_has_set_keep {V : Type} (m : list (string * V)) (k k0 : string) (v : V) :
  Map_has m k0 = true -> Map_has (Map_set m k v) k0 = true.
Proof.
  intros H. apply Map_has_get. apply Map_has_get in H.
  destruct (String.eqb_spec k0 k) as [->|Hne].
  - rewrite Map_get_set_eq. eauto.
  - rewrite Map_get_set_ne by assumption. exact H.
Qed.

Lemma registryOk_runCall (call : Call) (s : Registry) :
  registryOk s -> registryOk (runCall Command Handler id call s).
Proof.
  intros (Hhas & Huniq & Hnd). destruct call as [c | i h | k0]; cbn [runCall].
  - (* register *)
    unfold register. destruct (Map_has (commands s) (id c)) eqn:Epresent; cbn [snd].
    { split; [|split]; assumption. }
    pose proof (newDisposable_fresh (DeleteCommand (id c)) (disposables s)) as Hfresh.
    unfold newDisposable in *. cbn [fst snd] in *.
    set (k := fresh (dom (disposables s))) in *.
    split; [|split]; unfold liveFor; cbn [disposables commands].
    + intros k1 i H. destruct (decide (k1 = k)) as [->|Hk].
      * rewrite lookup_insert_eq in H. injection H as <-.
        apply Map_has_get. rewrite Map_get_set_eq. eauto.
      * rewrite lookup_insert_ne in H by congruence.
        apply Map_has_set_keep. eapply Hhas. exact H.
    + intros k1 k2 i H1 H2.
      destruct (decide (k1 = k)) as [->|Hk1], (decide (k2 = k)) as [->|Hk2]; [reflexivity | | |].
      * rewrite lookup_insert_eq in H1. injection H1 as <-.
        rewrite lookup_insert_ne in H2 by congruence.
        apply Hhas in H2. congruence.
      * rewrite lookup_insert_eq in H2. injection H2 as <-.
        rewrite lookup_insert_ne in H1 by congruence.
        apply Hhas in H1. congruence.
      * rewrite lookup_insert_ne in H1, H2 by congruence. eapply Huniq; eassumption.
    + rewrite Map_keys_set by assumption. apply NoDup_app. split; [exact Hnd|].
      split; [|repeat constructor; intros H; apply elem_of_nil in H; contradiction].
      intros x Hx Hx'. apply list_elem_of_singleton in Hx' as ->.
      apply Map_keys_get, Map_has_get in Hx. congruence.
  - (* registerHandler *)
    unfold registerHandler. destruct (Map_has (handlers s) i) eqn:Epresent; cbn [snd].
    { split; [|split]; assumption. }
    pose proof (newDisposable_fresh (DeleteHandler i) (disposables s)) as Hfresh.
    unfold newDisposable in *. cbn [fst snd] in *.
    set (k := fresh (dom (disposables s))) in *.
    split; [|split]; unfold liveFor; cbn [disposables commands]; [| |exact Hnd].
    + intros k1 i1 H. destruct (decide (k1 = k)) as [->|Hk].
      * rewrite lookup_insert_eq in H. discriminate.
      * rewrite lookup_insert_ne in H by congruence. eapply Hhas. exact H.
    + intros k1 k2 i1 H1 H2.
      destruct (decide (k1 = k)) as [->|Hk1]; [rewrite lookup_insert_eq in H1; discriminate|].
      destruct (decide (k2 = k)) as [->|Hk2]; [rewrite lookup_insert_eq in H2; discriminate|].
      rewrite lookup_insert_ne in H1, H2 by congruence. eapply Huniq; eassumption.
  - (* dispose *)
    unfold dispose. destruct (disposables s !! k0) as [[disposed cleanup]|] eqn:Ek0; cbn [snd];
      [|split; [|split]; assumption].
    destruct disposed; cbn [negb isDisposed cleanupFn snd]; [split; [|split]; assumption|].
    assert (forall k1 c1,
              <[k0 := mkDisposableImpl true cleanup]> (disposables s) !! k1
              = Some (mkDisposableImpl false c1) ->
              k1 <> k0 /\ disposables s !! k1 = Some (mkDisposableImpl false c1)) as Hlive.
    { intros k1 c1 H. destruct (decide (k1 = k0)) as [->|Hk].
      - rewrite lookup_insert_eq in H. discriminate.
      - rewrite lookup_insert_ne in H by congruence. split; assumption. }
    destruct cleanup as [i0 | i0]; cbn [snd]; (split; [|split]); unfold liveFor;
      cbn [disposables commands].
    + intros k1 i H. apply Hlive in H as [Hk H].
      assert (i <> i0) as Hi.
      { intros ->. apply Hk. eapply Huniq; [exact H | exact Ek0]. }
      apply Map_has_get. rewrite Map_get_delete_ne by assumption.
      apply Map_has_get. eapply Hhas. exact H.
    + intros k1 k2 i H1 H2. apply Hlive in H1 as [_ H1]. apply Hlive in H2 as [_ H2].
      eapply Huniq; eassumption.
    + apply Map_keys_delete. exact Hnd.
    + intros k1 i H. apply Hlive in H as [_ H]. eapply Hhas. exact H.
    + intros k1 k2 i H1 H2. apply Hlive in H1 as [_ H1]. apply Hlive in H2 as [_ H2].
      eapply Huniq; eassumption.
    + exact Hnd.
Qed.

Lemma registryOk_runCalls (calls : list Call) :
  forall s : Registry, registryOk s -> registryOk (runCalls Command Handler id calls s).
Proof.
  induction calls as [|call calls IH]; intros s Hs; [exact Hs|].
  cbn [runCalls fold_left]. apply IH. apply registryOk_runCall. exact Hs.
Qed.

Lemma registered_runCall (c : Command) (k : nat) (call : Call) (s : Registry) :
  call <> CallDispose k -> registered id c k s -> registered id c k (runCall Command Handler id call s).
Proof.
  intros Hcall (Hok & Hlive & Hget).
  split; [apply registryOk_runCall; exact Hok|].
  destruct Hok as (Hhas & Huniq & Hnd). unfold liveFor in *.
  assert (fresh (dom (disposables s)) <> k) as Hfresh.
  { intros E. pose proof (is_fresh (dom (disposables s))) as Hf. rewrite E in Hf.
    apply Hf. apply elem_of_dom. eauto. }
  destruct call as [c' | i h | k0]; cbn [runCall].
  - unfold register. destruct (Map_has (commands s) (id c')) eqn:Epresent; cbn [snd];
      [split; assumption|].
    unfold newDisposable. cbn [snd disposables commands].
    split; [rewrite lookup_insert_ne by exact Hfresh; exact Hlive|].
    rewrite Map_get_set_ne; [exact Hget|].
    intros E. rewrite <- E in Epresent.
    assert (Map_has (commands s) (id c) = true) by (apply Map_has_get; eauto). congruence.
  - unfold registerHandler. destruct (Map_has (handlers s) i) eqn:Epresent; cbn [snd];
      [split; assumption|].
    unfold newDisposable. cbn [snd disposables commands].
    split; [rewrite lookup_insert_ne by exact Hfresh; exact Hlive | exact Hget].
  - assert (k0 <> k) as Hk by congruence.
    unfold dispose. destruct (disposables s !! k0) as [[disposed cleanup]|] eqn:Ek0; cbn [snd];
      [|split; assumption].
    destruct disposed; cbn [negb isDisposed cleanupFn snd]; [split; assumption|].
    destruct cleanup as [i0 | i0]; cbn [snd disposables commands];
      (split; [rewrite lookup_insert_ne by congruence; exact Hlive|]); [|exact Hget].
    rewrite Map_get_delete_ne; [exact Hget|].
    intros E. apply Hk. eapply Huniq; [exact Ek0 | rewrite <- E; exact Hlive].
Qed.

Lemma registered_runCalls (c : Command) (k : nat) (calls : list Call) :
  Forall (fun call => call <> CallDispose k) calls ->
  forall s : Registry, registered id c k s -> registered id c k (runCalls Command Handler id calls s).
Proof.
  induction 1 as [|call calls Hcall Hcalls IH]; intros s Hs; [exact Hs|].
  cbn [runCalls fold_left]. apply IH. apply registered_runCall; assumption.
Qed.

(** X26. A registration lasts exactly until its own disposable is disposed.
    Starting from a new registry, after any calls of [register],
    [registerHandler] and [dispose]: when [register] returns a disposable
    for a command, then after any further such calls that do not dispose
    that disposable, [get] still returns the command for its id and [has]
    is true; disposing the disposable then removes the command, and
    disposing it once more changes nothing. *)
Theorem registration_lasts_until_disposed (calls1 calls2 : list Call)
  (c : Command) (k : nat) (s2 : Registry) :
  register Command Handler id c (runCalls Command Handler id calls1 (CommandRegistry_new _ _))
  = (Returned k, s2) ->
  Forall (fun call => call <> CallDispose k) calls2 ->
  CommandRegistry_get Command Handler (id c) (runCalls Command Handler id calls2 s2) = Some c /\
  has Command Handler (id c) (runCalls Command Handler id calls2 s2) = true /\
  exists s4,
    dispose Command Handler k (runCalls Command Handler id calls2 s2) = (Returned tt, s4) /\
    CommandRegistry_get Command Handler (id c) s4 = None /\
    dispose Command Handler k s4 = (Returned tt, s4).
Proof.
  intros Hreg Hcalls.
  set (s1 := runCalls Command Handler id calls1 (CommandRegistry_new _ _)) in *.
  assert (registryOk s1) as Hs1 by (apply registryOk_runCalls, registryOk_new).
  assert (registered id c k s2) as Hs2.
  { pose proof (registryOk_runCall (CallRegister c) s1 Hs1) as Hok. cbn [runCall] in Hok.
    rewrite Hreg in Hok. cbn [snd] in Hok. split; [exact Hok|].
    unfold register in Hreg. destruct (Map_has (commands s1) (id c)); [discriminate|].
    unfold newDisposable in Hreg. injection Hreg as <- <-. unfold liveFor. cbn [disposables commands].
    split; [apply lookup_insert_eq | apply Map_get_set_eq]. }
  pose proof (registered_runCalls c k calls2 Hcalls s2 Hs2) as (Hok3 & Hlive3 & Hget3).
  set (s3 := runCalls Command Handler id calls2 s2) in *.
  split; [exact Hget3|].
  split.
  { unfold has. rewrite (proj2 (Map_has_get _ _)) by (rewrite Hget3; eauto). reflexivity. }
  unfold liveFor in Hlive3. unfold dispose at 1. rewrite Hlive3. cbn [negb isDisposed cleanupFn].
  eexists. split; [reflexivity|].
  split.
  - unfold CommandRegistry_get. cbn [commands]. apply Map_get_delete_eq.
  - unfold dispose. cbn [disposables]. rewrite lookup_insert_eq. reflexivity.
Qed.

Variables Args Value : Type.
Variable callHandler : Handler -> Args -> E Registry Value.
Variable callCommand : Command -> Args -> E Registry Value.

(** X27. In a registry reached from a new one by calls of [register],
    [registerHandler] and [dispose], [getCommandIds] lists each registered
    command id once, and exactly the ids [get] finds a command for.
    Registering a command whose id is registered raises the error and
    changes nothing. [execute] with an id for which [has] is false raises
    the not-found error without changing the registry, and with an id that
    has a handler it calls the handler, also when a command has that id. *)
Theorem registry_lookup (calls : list Call) (i : string) (args : Args) (c : Command) :
  let s := runCalls Command Handler id calls (CommandRegistry_new _ _) in
  NoDup (getCommandIds Command Handler s) /\
  (i ∈ getCommandIds Command Handler s <-> is_Some (CommandRegistry_get Command Handler i s)) /\
  (is_Some (CommandRegistry_get Command Handler (id c) s) ->
   register Command Handler id c s =
   (Raised ("Command with id '" ++ id c ++ "' is already registered")%string, s)) /\
  (has Command Handler i s = false ->
   CommandRegistry_execute Command Handler Args Value callHandler callCommand i args s
   = (Raised ("Command '" ++ i ++ "' not found")%string, s)) /\
  (forall h, Map_get (handlers s) i = Some h ->
   CommandRegistry_execute Command Handler Args Value callHandler callCommand i args s
   = callHandler h args s).
Proof.
  intros s.
  destruct (registryOk_runCalls calls _ registryOk_new) as (_ & _ & Hnd). fold s in Hnd.
  split; [exact Hnd|].
  split; [apply Map_keys_get|].
  split.
  { intros H. unfold register. apply Map_has_get in H. unfold CommandRegistry_get in H.
    rewrite H. reflexivity. }
  split.
  - intros H. unfold has in H. apply orb_false_iff in H as [Hc Hh].
    unfold Map_has in Hc, Hh. unfold CommandRegistry_execute.
    destruct (Map_get (handlers s) i); [discriminate|].
    destruct (Map_get (commands s) i); [discriminate|]. reflexivity.
  - intros h Hh. unfold CommandRegistry_execute. rewrite Hh. reflexivity.
Qed.

End RegistryFacts.

Lemma registration_lasts_until_disposed_witness :
  let s2 :=
    snd (register string unit (fun x => x) "editor.save"%string
           (runCalls string unit (fun x => x) exampleCalls (CommandRegistry_new _ _))) in
  CommandRegistry_get string unit "editor.save"%string
    (runCalls string unit (fun x => x) laterCalls s2) = Some "editor.save"%string /\
  has string unit "editor.save"%string (runCalls string unit (fun x => x) laterCalls s2) = true /\
  exists s4,
    dispose string unit 2%nat (runCalls string unit (fun x => x) laterCalls s2) = (Returned tt, s4) /\
    CommandRegistry_get string unit "editor.save"%string s4 = None /\
    dispose string unit 2%nat s4 = (Returned tt, s4).
Proof.
  cbv zeta.
  apply (registration_lasts_until_disposed (fun x : string => x) exampleCalls laterCalls
           "editor.save"%string 2%nat).
  - vm_compute. reflexivity.
  - repeat constructor; discriminate.
Defined.

(** *** The command grouper *)

Section GrouperFacts.

Context {W C : Type}.

Lemma addToGroup_run (c : C) (s : GrouperWorld W C) (k : nat) (acc : list C) :
  currentGroup (grouper s) = Some k ->
  composites (heap s) !! k = Some (CompositeCommand.mk acc false false) ->
  timersOk s ->
  exists s',
    addToGroup c s = (Returned tt, s') /\
    currentGroup (grouper s') = Some k /\
    composites (heap s') = <[k := CompositeCommand.mk (acc ++ [c]) false false]> (composites (heap s)) /\
    world (heap s') = world (heap s) /\
    timersOk s' /\
    exists t, groupTimeout (grouper s') = Some t /\ t ∈ pending (timers s').
Proof.
  intros Hk Hc (Hpend & Hid & Hnext).
  unfold addToGroup, CompositeCommand_addCommand. rewrite Hk, Hc.
  cbn [CompositeCommand.executed CompositeCommand.commands CompositeCommand.undone].
  unfold resetGroupTimeout, setTimeout, clearGroupTimeout. cbn [grouper timers heap].
  set (ts := if truthy (groupTimeout (grouper s))
             then match groupTimeout (grouper s) with
                  | Some t => clearTimeout t (timers s)
                  | None => timers s
                  end
             else timers s).
  assert (nextTimerId ts = nextTimerId (timers s)) as Hn.
  { unfold ts. destruct (truthy _); [|reflexivity].
    destruct (groupTimeout (grouper s)); reflexivity. }
  assert (forall x, x ∉ pending ts) as Hempty.
  { intros x Hx. unfold ts in Hx.
    destruct (groupTimeout (grouper s)) as [t|] eqn:Et.
    - pose proof (Hid t eq_refl) as Ht. destruct t as [|t']; [lia|]. cbn [truthy] in Hx.
      cbn [clearTimeout pending] in Hx. apply elem_of_difference in Hx as [Hx Hne].
      apply Hpend in Hx. injection Hx as <-. apply Hne. apply elem_of_singleton. reflexivity.
    - cbn [truthy] in Hx. apply Hpend in Hx. discriminate. }
  eexists. split; [reflexivity|]. cbn [grouper timers heap currentGroup groupTimeout composites world].
  split; [exact Hk|]. split; [reflexivity|]. split; [reflexivity|].
  clearbody ts.
  split.
  - split; [|split]; cbn [pending nextTimerId grouper timers groupTimeout].
    + intros x Hx. apply elem_of_union in Hx as [Hx | Hx].
      * apply elem_of_singleton in Hx as ->. reflexivity.
      * exfalso. eapply Hempty. exact Hx.
    + intros x Hx. injection Hx as <-. lia.
    + lia.
  - eexists. split; [reflexivity|]. cbn [pending]. apply elem_of_union_l, elem_of_singleton.
    reflexivity.
Qed.

Lemma addAllToGroup_run (cs : list C) :
  forall (s : GrouperWorld W C) (k : nat) (acc : list C),
  currentGroup (grouper s) = Some k ->
  composites (heap s) !! k = Some (CompositeCommand.mk acc false false) ->
  timersOk s ->
  exists s',
    addAllToGroup cs s = (Returned tt, s') /\
    currentGroup (grouper s') = Some k /\
    composites (heap s') !! k = Some (CompositeCommand.mk (acc ++ cs) false false) /\
    world (heap s') = world (heap s) /\
    timersOk s' /\
    (cs <> [] -> exists t, groupTimeout (grouper s') = Some t /\ t ∈ pending (timers s')) /\
    (cs = [] -> s' = s).
Proof.
  induction cs as [|c cs IH]; intros s k acc Hk Hc Hok.
  - exists s. cbn [addAllToGroup]. rewrite app_nil_r.
    split; [reflexivity|]. split; [exact Hk|]. split; [exact Hc|]. split; [reflexivity|].
    split; [exact Hok|]. split; [congruence | reflexivity].
  - destruct (addToGroup_run c s k acc Hk Hc Hok) as (s1 & E1 & Hk1 & Hc1 & Hw1 & Hok1 & Ht1).
    destruct (IH s1 k (acc ++ [c]) Hk1) as (s2 & E2 & Hk2 & Hc2 & Hw2 & Hok2 & Ht2 & Hnil); [|exact Hok1|].
    { rewrite Hc1. apply lookup_insert_eq. }
    exists s2. cbn [addAllToGroup]. rewrite E1, E2.
    split; [reflexivity|]. split; [exact Hk2|].
    split; [rewrite Hc2, <- app_assoc; reflexivity|].
    split; [congruence|]. split; [exact Hok2|].
    split; [|discriminate].
    intros _. destruct cs as [|c' cs']; [rewrite (Hnil eq_refl); exact Ht1 | apply Ht2; discriminate].
Qed.

(** X28. A group collects the commands added to it, in order. On a grouper
    fresh from the constructor, [startGroup] followed by [addToGroup] for
    the commands of a list never raises; at most one timer is pending
    afterwards, and one is when the list is not empty. [endGroup] then
    returns the composite with exactly these commands, not executed, leaves
    no group open and no timer pending, and none of this touches the state
    the commands act on. If instead the pending timer fires, its callback
    closes the group: the next [endGroup] returns [null]. *)
Theorem grouper_collects_in_order (ms : Z) (h : Heap W C) (cs : list C) :
  exists (k : nat) (s1 s2 s3 : GrouperWorld W C),
    startGroup (CommandGrouper_new ms h) = (Returned tt, s1) /\
    getCurrentGroup s1 = Some k /\
    addAllToGroup cs s1 = (Returned tt, s2) /\
    (forall x y, x ∈ pending (timers s2) -> y ∈ pending (timers s2) -> x = y) /\
    (cs <> [] -> exists t, t ∈ pending (timers s2)) /\
    endGroup s2 = (Returned (Some k), s3) /\
    composites (heap s3) !! k = Some (CompositeCommand.mk cs false false) /\
    world (heap s3) = world h /\
    getCurrentGroup s3 = None /\
    (forall x, x ∉ pending (timers s3)) /\
    (forall t, t ∈ pending (timers s2) ->
       exists s3' s4,
         timerFires t s2 = (Returned tt, s3') /\
         getCurrentGroup s3' = None /\
         (forall x, x ∉ pending (timers s3')) /\
         endGroup s3' = (Returned None, s4)).
Proof.
  set (k := fresh (dom (composites h))).
  set (s1 := mkGrouperWorld (mkCommandGrouper (Some k) None ms) (mkTimers ∅ 1)
               (mkHeap (world h) (<[k := CompositeCommand.new []]> (composites h)))).
  assert (timersOk s1) as Hok1.
  { split; [|split]; cbn.
    - intros x Hx. apply elem_of_empty in Hx. contradiction.
    - intros x Hx. discriminate.
    - lia. }
  destruct (addAllToGroup_run cs s1 k [] eq_refl (lookup_insert_eq _ _ _) Hok1)
    as (s2 & E2 & Hk2 & Hc2 & Hw2 & Hok2 & Ht2 & _).
  pose proof Hok2 as (Hpend & Hid & Hnext).
  assert (forall x, x ∈ pending (timers s2) -> truthy (groupTimeout (grouper s2)) = true) as Htruthy.
  { intros x Hx. pose proof (Hpend x Hx) as Hg. rewrite Hg.
    pose proof (Hid x Hg). destruct x; [lia | reflexivity]. }
  exists k, s1, s2, (snd (endGroup s2)).
  split; [reflexivity|]. split; [reflexivity|]. split; [exact E2|].
  split.
  { intros x y Hx Hy. apply Hpend in Hx, Hy. congruence. }
  split.
  { intros Hne. destruct (Ht2 Hne) as (t & _ & Ht). eauto. }
  split; [unfold endGroup; cbn [snd]; destruct (truthy (groupTimeout (grouper s2)));
          cbn [grouper currentGroup]; rewrite Hk2; reflexivity|].
  unfold endGroup at 1 2 3 4. cbn [snd heap timers grouper]. unfold getCurrentGroup at 1.
  cbn [grouper currentGroup].
  assert (forall x, x ∉ pending (timers
            (if truthy (groupTimeout (grouper s2))
             then mkGrouperWorld
                    (mkCommandGrouper (currentGroup (grouper s2)) None (groupingTimeoutMs (grouper s2)))
                    (clearGroupTimeout s2) (heap s2)
             else s2))) as Hnone.
  { intros x Hx. destruct (truthy (groupTimeout (grouper s2))) eqn:Etr.
    - cbn [timers] in Hx. unfold clearGroupTimeout in Hx.
      destruct (groupTimeout (grouper s2)) as [t|] eqn:Et; [|discriminate].
      cbn [clearTimeout pending] in Hx. apply elem_of_difference in Hx as [Hx Hne].
      apply Hpend in Hx. injection Hx as <-.
      apply Hne, elem_of_singleton. reflexivity.
    - pose proof (Htruthy x Hx). congruence. }
  split.
  { destruct (truthy (groupTimeout (grouper s2))); cbn [heap]; rewrite Hc2, app_nil_l; reflexivity. }
  split.
  { destruct (truthy (groupTimeout (grouper s2))); cbn [heap]; exact Hw2. }
  split; [reflexivity|].
  split.
  { cbn [timers]. exact Hnone. }
  intros t Ht. unfold timerFires. rewrite decide_True by exact Ht.
  pose proof (Hpend t Ht) as Hg. pose proof (Htruthy t Ht) as Htr.
  unfold endGroup at 1. cbn [grouper]. rewrite Htr.
  eexists _, _. split; [reflexivity|]. split; [reflexivity|].
  split.
  { cbn [timers grouper groupTimeout]. unfold clearGroupTimeout. cbn [grouper timers]. rewrite Hg.
    cbn [clearTimeout pending]. intros x Hx.
    apply elem_of_difference in Hx as [Hx Hne]. apply elem_of_difference in Hx as [Hx _].
    apply Hpend in Hx. rewrite Hg in Hx. injection Hx as <-.
    apply Hne, elem_of_singleton. reflexivity. }
  unfold endGroup. cbn [grouper groupTimeout currentGroup truthy]. reflexivity.
Qed.

End GrouperFacts.

(** *** Lines and their lengths *)

(** X29. [getLineContent] and [getLineLength] accept exactly the line
    numbers from 0 to [lineCount - 1]: for these they return the line and
    its length, counted with the line ending except on the last line; for
    every other number both throw the out-of-bounds error with that number.
    Neither changes the buffer, and the lengths of all the lines, added up
    as [positionToOffset] adds them, give the length of the text. *)
Theorem line_lengths_add_up (b : LineBuffer) (i : Z) :
  (0 <= i < lineCount b ->
   exists l, lines b !! Z.to_nat i = Some l /\
     getLineContent i b = (Ok l, b) /\
     getLineLength i b
     = (Ok (len l + (if i =? lineCount b - 1 then 0 else len (lineEndings b))), b)) /\
  (i < 0 \/ lineCount b <= i ->
   getLineContent i b = (Throw (LineOutOfBounds i), b) /\
   getLineLength i b = (Throw (LineOutOfBounds i), b)) /\
  (exists text,
     getText b = (Ok text, b) /\
     positionToOffset_loop (length (lines b)) 0 0 b = (Ok (len text), b)).
Proof.
  unfold lineCount. split; [|split].
  - intros Hi.
    destruct (lookup_lt_is_Some_2 (lines b) (Z.to_nat i) ltac:(lia)) as [l Hl].
    exists l. split; [exact Hl|].
    assert (lineAt (lines b) i = l) as El by (apply lineAt_lookup; [lia | exact Hl]).
    split.
    + unfold getLineContent, bind, get.
      destruct (Z.ltb_spec i 0); [lia|].
      destruct (Z.geb_spec i (Z.of_nat (length (lines b)))); [lia|].
      cbn [orb]. rewrite lines_at_inside by lia. rewrite El. reflexivity.
    + rewrite getLineLength_run by lia. unfold lineLen, lineEndings. rewrite El. reflexivity.
  - intros Hi.
    assert (getLineContent i b = (Throw (LineOutOfBounds i), b)) as E.
    { unfold getLineContent, bind, get.
      destruct (Z.ltb_spec i 0), (Z.geb_spec i (Z.of_nat (length (lines b))));
        cbn [orb]; try reflexivity. lia. }
    split; [exact E|]. unfold getLineLength, bind. rewrite E. reflexivity.
  - eexists. split; [reflexivity|].
    rewrite positionToOffset_loop_run by lia. rewrite Z.add_0_l.
    destruct (lines b) as [|l ls] eqn:El; [reflexivity|].
    rewrite <- El. rewrite len_text by (rewrite El; discriminate). reflexivity.
Qed.
